(** * The panda scanner (compiler/scanner.go), embedded in Rocq

    A shallow embedding of the lexical scanner of the panda compiler
    front-end.  The Go receiver [*Scanner] is mutated by every method; here
    each method is a function from the scanner state to the new state (and
    its results).  Loops that advance the cursor take a fuel argument and
    report [OutOfFuel] when it runs out; slicing the source outside its
    bounds reports [Panic], as the Go runtime does. *)

From Stdlib Require Import ZArith List Bool Lia.
From Stdlib Require Import Strings.String Strings.Ascii Strings.Byte.
Import ListNotations.

Local Open Scope Z_scope.

(** ** Runes, bytes and constants *)

(** Go's [rune] is an [int32]; every rune the scanner handles is a byte, a
    decoded code point (at most 0x10FFFF) or [eof]. *)
Definition rune := Z.

Definition bom : rune := 0xFEFF.
Definition eof : rune := -1.

(** Constants of the Go packages [unicode/utf8] and [unicode]. *)
Definition RuneError : rune := 0xFFFD.
Definition RuneSelf : rune := 0x80.
Definition MaxRune : rune := 0x10FFFF.

(** [rune(b)] for a byte [b]. *)
Definition rune_of_byte (b : byte) : rune := Z.of_N (Byte.to_N b).

(** A rune literal ['c'] of the source. *)
Definition ch (c : ascii) : rune := Z.of_N (N_of_ascii c).

(** The double quote, written by its code. *)
Definition dquote : rune := 34.

(** [p[i]] for an index known to be in range; [x00] stands in otherwise and
    is never read by the code below, which checks the length first. *)
Definition byteAt (p : list byte) (i : nat) : Z := rune_of_byte (nth i p x00).

(** ** utf8.DecodeRune

    The scanner calls [utf8.DecodeRune] of the Go standard library on the
    rest of the source.  This is that function, with its [first] and
    [acceptRanges] tables. *)
Module utf8.

(** [first[b]]: [0xF0] for ASCII, [0xF1] for an invalid first byte,
    otherwise the size in the low 3 bits and the index of the accept range
    of the second byte in the high 4 bits. *)
Definition first (b : Z) : Z :=
  if b <? 0x80 then 0xF0
  else if b <? 0xC2 then 0xF1
  else if b <? 0xE0 then 0x02
  else if b =? 0xE0 then 0x13
  else if b <? 0xED then 0x03
  else if b =? 0xED then 0x23
  else if b <? 0xF0 then 0x03
  else if b =? 0xF0 then 0x34
  else if b <? 0xF4 then 0x04
  else if b =? 0xF4 then 0x44
  else 0xF1.

Definition locb : Z := 0x80.
Definition hicb : Z := 0xBF.

(** [acceptRanges[i]] as the pair [(lo, hi)]; the entries the table does
    not list are zero. *)
Definition acceptRanges (i : Z) : Z * Z :=
  if i =? 0 then (locb, hicb)
  else if i =? 1 then (0xA0, hicb)
  else if i =? 2 then (locb, 0x9F)
  else if i =? 3 then (0x90, hicb)
  else if i =? 4 then (locb, 0x8F)
  else (0, 0).

Definition DecodeRune (p : list byte) : rune * nat :=
  match p with
  | [] => (RuneError, 0%nat)
  | _ :: _ =>
      let p0 := byteAt p 0 in
      let x := first p0 in
      if 0xF0 <=? x then
        (* mask := rune(x) << 31 >> 31 is all ones exactly when bit 0 of
           x is set, and the result is p0 &^ mask | RuneError & mask *)
        (if Z.testbit x 0 then RuneError else p0, 1%nat)
      else
        let sz := Z.land x 7 in
        let '(lo, hi) := acceptRanges (Z.shiftr x 4) in
        if Z.of_nat (List.length p) <? sz then (RuneError, 1%nat)
        else
          let b1 := byteAt p 1 in
          if (b1 <? lo) || (hi <? b1) then (RuneError, 1%nat)
          else if sz <=? 2 then
            (Z.lor (Z.shiftl (Z.land p0 0x1F) 6) (Z.land b1 0x3F), 2%nat)
          else
            let b2 := byteAt p 2 in
            if (b2 <? locb) || (hicb <? b2) then (RuneError, 1%nat)
            else if sz <=? 3 then
              (Z.lor (Z.lor (Z.shiftl (Z.land p0 0x0F) 12)
                            (Z.shiftl (Z.land b1 0x3F) 6))
                     (Z.land b2 0x3F), 3%nat)
            else
              let b3 := byteAt p 3 in
              if (b3 <? locb) || (hicb <? b3) then (RuneError, 1%nat)
              else
                (Z.lor (Z.lor (Z.lor (Z.shiftl (Z.land p0 0x07) 18)
                                     (Z.shiftl (Z.land b1 0x3F) 12))
                              (Z.shiftl (Z.land b2 0x3F) 6))
                       (Z.land b3 0x3F), 4%nat)
  end.

End utf8.

(** ** Tokens *)

(** Modelled from the spec: the [Token] type and [Lookup] are declared in a
    file of the package that is not part of the sources at hand.  The
    constants are the ones scanner.go names ([ILLEGAL], [EOF], [COMMENT],
    [META], [INT], [FLOAT], [CHAR], [STRING]), with the identifier kind and
    one kind per keyword of the closed keyword table. *)
Inductive Token : Type :=
| ILLEGAL | EOF | COMMENT | META | IDENT | INT | FLOAT | CHAR | STRING
| KEYWORD (k : string).

Definition Token_eqb (a b : Token) : bool :=
  match a, b with
  | ILLEGAL, ILLEGAL | EOF, EOF | COMMENT, COMMENT | META, META
  | IDENT, IDENT | INT, INT | FLOAT, FLOAT | CHAR, CHAR
  | STRING, STRING => true
  | KEYWORD k, KEYWORD k' => String.eqb k k'
  | _, _ => false
  end.

(** Modelled from the spec: [Lookup] resolves the text of an identifier
    against the closed keyword table; text that is no keyword is an
    identifier.  The table itself is a parameter. *)
Definition Lookup (keywords : list string) (literal : string) : Token :=
  if existsb (String.eqb literal) keywords then KEYWORD literal else IDENT.

(** ** Diagnostics *)

(** The message of a diagnostic: a string constant of the source, or the one
    formatted message,
    [fmt.Sprintf("illegal character %#U in escape sequence", c)]. *)
Inductive Msg : Type :=
| Text (m : string)
| IllegalCharInEscape (c : rune).

Definition Msg_eqb (a b : Msg) : bool :=
  match a, b with
  | Text m, Text m' => String.eqb m m'
  | IllegalCharInEscape c, IllegalCharInEscape c' => c =? c'
  | _, _ => false
  end.

(** ** The scanner state *)

(** The fields of [Scanner].  [file] and [dir] are never read or written by
    code that is not commented out and are left out.  [err] records whether
    the handler is non-nil.  Offsets are [nat]: the code assigns them only
    [0], [len(s.src)], [s.readOffset] and [s.readOffset + w].

    Two more fields record the effects on the outside world: [stdout], the
    lines written by [fmt.Println] (each is "error: " followed by the
    message, oldest first), and [handled], the calls made to the error
    handler [s.err], oldest first. *)
Record Scanner : Type := mkScanner {
  src : list byte;
  err : bool;
  ErrorCount : Z;
  scanComments : bool;
  flags : list string;
  flagStarted : bool;
  char : rune;
  offset : nat;
  readOffset : nat;
  lineOffset : nat;
  stdout : list Msg;
  handled : list (Z * Msg)
}.

(** Assignments to the cursor fields. *)
Definition set_char (c : rune) (s : Scanner) : Scanner :=
  mkScanner (src s) (err s) (ErrorCount s) (scanComments s) (flags s)
            (flagStarted s) c (offset s) (readOffset s) (lineOffset s)
            (stdout s) (handled s).

Definition set_offset (o : nat) (s : Scanner) : Scanner :=
  mkScanner (src s) (err s) (ErrorCount s) (scanComments s) (flags s)
            (flagStarted s) (char s) o (readOffset s) (lineOffset s)
            (stdout s) (handled s).

Definition set_readOffset (o : nat) (s : Scanner) : Scanner :=
  mkScanner (src s) (err s) (ErrorCount s) (scanComments s) (flags s)
            (flagStarted s) (char s) (offset s) o (lineOffset s)
            (stdout s) (handled s).

(** [len(s.src)] *)
Definition len (s : Scanner) : nat := List.length (src s).

(** ** error *)

(** [fmt.Println("error:", msg)] *)
Definition Println (msg : Msg) (s : Scanner) : Scanner :=
  mkScanner (src s) (err s) (ErrorCount s) (scanComments s) (flags s)
            (flagStarted s) (char s) (offset s) (readOffset s) (lineOffset s)
            (stdout s ++ [msg]) (handled s).

(** [s.ErrorCount++].  The count is bounded by the diagnostics of a scan,
    a few per source byte, and cannot reach the limit of [int]. *)
Definition count_error (s : Scanner) : Scanner :=
  mkScanner (src s) (err s) (ErrorCount s + 1) (scanComments s) (flags s)
            (flagStarted s) (char s) (offset s) (readOffset s) (lineOffset s)
            (stdout s) (handled s).

(** [error]: print, then count.  The body of [if s.err != nil] holds only a
    commented-out call of the handler, so both branches leave the state as
    it is. *)
Definition error (off : Z) (msg : Msg) (s : Scanner) : Scanner :=
  let s := Println msg s in
  let s := if err s then s else s in
  count_error s.

(** ** The rune cursor: next and peek *)

Definition next (s : Scanner) : Scanner :=
  if (readOffset s <? len s)%nat then
    let s := set_offset (readOffset s) s in
    let r := byteAt (src s) (readOffset s) in
    if r =? 0 then
      let s := error (Z.of_nat (offset s)) (Text "illegal character NUL") s in
      set_char r (set_readOffset (readOffset s + 1) s)
    else if RuneSelf <=? r then
      let '(r, w) := utf8.DecodeRune (skipn (readOffset s) (src s)) in
      let s :=
        if (r =? RuneError) && (w =? 1)%nat then
          error (Z.of_nat (offset s)) (Text "illegal UTF-8 encoding") s
        else if (r =? bom) && (0 <? offset s)%nat then
          error (Z.of_nat (offset s)) (Text "illegal byte order mark") s
        else s in
      set_char r (set_readOffset (readOffset s + w) s)
    else
      set_char r (set_readOffset (readOffset s + 1) s)
  else
    set_char eof (set_offset (len s) s).

Definition peek (s : Scanner) : Z :=
  if (readOffset s <? len s)%nat then byteAt (src s) (readOffset s) else 0.

(** ** NewScanner *)

(** [flags] is filled with the given names, each mapped to [true]; it is
    kept as the list of its keys. *)
Definition NewScanner (source : list byte) (handler : bool)
    (scanComment : bool) (flagNames : list string) : Scanner :=
  let s := mkScanner source handler 0 scanComment [] false
                     (ch " ") 0 0 0 [] [] in
  let s := next s in
  let s := if char s =? bom then next s else s in
  mkScanner (src s) (err s) (ErrorCount s) (scanComments s)
            (nodup string_dec flagNames)
            (flagStarted s) (char s) (offset s) (readOffset s) (lineOffset s)
            (stdout s) (handled s).

(** ** Results of partial operations *)

(** A method either returns, or panics in the Go runtime (a slice expression
    out of range), or, in this model, exhausts the fuel of a loop. *)
Inductive Res (A : Type) : Type :=
| Ok (a : A)
| Panic
| OutOfFuel.

Arguments Ok {A} a.
Arguments Panic {A}.
Arguments OutOfFuel {A}.

Definition bind {A B : Type} (m : Res A) (k : A -> Res B) : Res B :=
  match m with
  | Ok a => k a
  | Panic => Panic
  | OutOfFuel => OutOfFuel
  end.

Notation "x <- m ;; k" := (bind m (fun x => k))
  (at level 61, m at next level, right associativity).
Notation "' p <- m ;; k" := (bind m (fun x => let 'p := x in k))
  (at level 61, p pattern, m at next level, right associativity).

(** [string(s.src[lo:hi])].  The slice expression panics unless
    [0 <= lo <= hi <= cap(s.src)]; the capacity is taken to be the length. *)
Definition text (s : Scanner) (lo hi : Z) : Res string :=
  if (0 <=? lo) && (lo <=? hi) && (hi <=? Z.of_nat (len s)) then
    Ok (string_of_list_byte
          (firstn (Z.to_nat (hi - lo)) (skipn (Z.to_nat lo) (src s))))
  else Panic.

(** ** Character classes *)

Definition isLetter (c : rune) : bool :=
  (c =? ch "_") || ((ch "a" <=? c) && (c <=? ch "z"))
  || ((ch "A" <=? c) && (c <=? ch "Z")).

Definition isDecimal (c : rune) : bool :=
  (ch "0" <=? c) && (c <=? ch "9").

Definition lower (c : rune) : rune := Z.lor (ch "a" - ch "A") c.

Definition digitVal (c : rune) : Z :=
  if (ch "0" <=? c) && (c <=? ch "9") then c - ch "0"
  else if (ch "a" <=? lower c) && (lower c <=? ch "f") then
    lower c - ch "a" + 10
  else 16.

(** The condition of the first loop of [Scan]. *)
Definition isSpace (c : rune) : bool :=
  (c =? ch " ") || (c =? 9) || (c =? 10) || (c =? 13).

(** ** Loops that advance the cursor *)

(** [for cond(s) { s.next() }] *)
Fixpoint advance_while (cond : Scanner -> bool) (fuel : nat) (s : Scanner)
  : Res Scanner :=
  if cond s then
    match fuel with
    | O => OutOfFuel
    | S f => advance_while cond f (next s)
    end
  else Ok s.

(** ** scanComment *)

(** The loop of the block comment; the result says whether the comment was
    terminated. *)
Fixpoint blockComment (fuel : nat) (s : Scanner) : Res (bool * Scanner) :=
  if 0 <=? char s then
    match fuel with
    | O => OutOfFuel
    | S f =>
        let c := char s in
        let s := next s in
        if (c =? ch "*") && (char s =? ch "/") then Ok (true, next s)
        else blockComment f s
    end
  else Ok (false, s).

Definition scanComment (fuel : nat) (s : Scanner) : Res (string * Scanner) :=
  let off := Z.of_nat (offset s) - 1 in
  s <- (if char s =? ch "/" then
          advance_while (fun s => negb (char s =? 10) && (0 <=? char s))
                        fuel (next s)
        else
          ' (terminated, s) <- blockComment fuel (next s) ;;
          Ok (if terminated then s
              else error off (Text "comment not terminated") s)) ;;
  lit <- text s off (Z.of_nat (offset s)) ;;
  Ok (lit, s).

(** ** scanIdentifier and scanDigits *)

Definition scanIdentifier (fuel : nat) (s : Scanner) : Res (string * Scanner) :=
  let off := Z.of_nat (offset s) in
  s <- advance_while (fun s => isLetter (char s) || isDecimal (char s))
                     fuel s ;;
  lit <- text s off (Z.of_nat (offset s)) ;;
  Ok (lit, s).

Definition scanDigits (base : Z) (fuel : nat) (s : Scanner) : Res Scanner :=
  advance_while (fun s => digitVal (char s) <? base) fuel s.

(** ** scanNumber *)

(** The first [if] of [scanNumber]: the integer part, with its base prefix.
    [off] is the offset of the first character of the number. *)
Definition scanNumber_integer (fuel : nat) (off : Z) (s : Scanner)
  : Res (Token * Scanner) :=
  if negb (char s =? ch ".") then
    if char s =? ch "0" then
      let s := next s in
      if negb (char s =? ch ".") then
        let c := lower (char s) in
        if (c =? ch "x") || (c =? ch "b") || (c =? ch "o") then
          let base := if c =? ch "x" then 16
                      else if c =? ch "b" then 2 else 8 in
          let s := next s in
          s <- scanDigits base fuel s ;;
          let '(token, s) :=
            if Z.of_nat (offset s) - off <=? 2
            then (ILLEGAL, error off (Text "illegal number") s)
            else (INT, s) in
          Ok (if char s =? ch "."
              then (ILLEGAL, error off (Text "invalid radix point") s)
              else (token, s))
        else Ok (ILLEGAL, error off (Text "invalid integer") s)
      else Ok (INT, s)
    else
      s <- scanDigits 10 fuel s ;;
      Ok (INT, s)
  else Ok (INT, s).

(** The second [if] of [scanNumber]: the fraction. *)
Definition scanNumber_fraction (fuel : nat) (off : Z) (token : Token)
    (s : Scanner) : Res (Token * Scanner) :=
  if char s =? ch "." then
    let offsetFraction := Z.of_nat (offset s) in
    let s := next s in
    s <- scanDigits 10 fuel s ;;
    Ok (if offsetFraction =? Z.of_nat (offset s) - 1
        then (ILLEGAL, error off (Text "float has no digits after .") s)
        else (FLOAT, s))
  else Ok (token, s).

Definition scanNumber (fuel : nat) (s : Scanner)
  : Res (Token * string * Scanner) :=
  let off := Z.of_nat (offset s) in
  ' (token, s) <- scanNumber_integer fuel off s ;;
  ' (token, s) <- scanNumber_fraction fuel off token s ;;
  lit <- text s off (Z.of_nat (offset s)) ;;
  Ok (token, lit, s).

(** ** scanEscape *)

(** Arithmetic on [uint32] wraps around. *)
Definition wrap32 (x : Z) : Z := x mod 2 ^ 32.

(** The message of a digit that is missing or out of range for the base. *)
Definition escape_digit_msg (c : rune) : Msg :=
  if c <? 0 then Text "escape sequence not terminated"
  else IllegalCharInEscape c.

(** The loop [for n > 0] over the digits of an escape: [None] when it
    returned [false] from inside the loop, the accumulated value
    otherwise. *)
Fixpoint escapeDigits (n : nat) (base x : Z) (s : Scanner)
  : option Z * Scanner :=
  match n with
  | O => (Some x, s)
  | S k =>
      let d := wrap32 (digitVal (char s)) in
      if base <=? d then
        (None, error (Z.of_nat (offset s)) (escape_digit_msg (char s)) s)
      else
        escapeDigits k base (wrap32 (x * base + d)) (next s)
  end.

(** The first [switch] of [scanEscape]: a single-character escape, which
    returns at once; an escape with [n] digits in the given base and with
    the largest value [max], whose introducing letter is consumed first
    ([letter], false for an octal escape, whose first character is already
    a digit); or anything else. *)
Inductive EscapeKind : Type :=
| Simple
| Digits (letter : bool) (n : nat) (base max : Z)
| Unknown.

Definition escapeKind (quote : rune) (c : rune) : EscapeKind :=
  if existsb (Z.eqb c)
       [ch "a"; ch "b"; ch "f"; ch "n"; ch "r"; ch "t"; ch "v"; ch "\"; quote]
  then Simple
  else if (ch "0" <=? c) && (c <=? ch "7") then Digits false 3 8 255
  else if c =? ch "x" then Digits true 2 16 255
  else if c =? ch "u" then Digits true 4 16 MaxRune
  else if c =? ch "U" then Digits true 8 16 MaxRune
  else Unknown.

Definition scanEscape (quote : rune) (s : Scanner) : bool * Scanner :=
  let off := Z.of_nat (offset s) in
  match escapeKind quote (char s) with
  | Simple => (true, next s)
  | Unknown =>
      let msg := if char s <? 0 then Text "escape sequence not terminated"
                 else Text "unknown escape sequence" in
      (false, error off msg s)
  | Digits letter n base max =>
      let s := if letter then next s else s in
      match escapeDigits n base 0 s with
      | (None, s) => (false, s)
      | (Some x, s) =>
          if (max <? x) || ((0xD800 <=? x) && (x <? 0xE000)) then
            (false,
             error off (Text "escape sequence is invalid Unicode code point") s)
          else (true, s)
      end
  end.

(** ** scanString, scanChar, scanRawString *)

(** The loop of [scanString]; [off] is the offset of the opening quote. *)
Fixpoint scanString_loop (fuel : nat) (off : Z) (s : Scanner) : Res Scanner :=
  let c := char s in
  if (c =? 10) || (c <? 0) then
    Ok (error off (Text "string literal not terminated") s)
  else
    match fuel with
    | O => OutOfFuel
    | S f =>
        let s := next s in
        if c =? dquote then Ok s
        else if c =? ch "\" then
          scanString_loop f off (snd (scanEscape dquote s))
        else scanString_loop f off s
    end.

Definition scanString (fuel : nat) (s : Scanner) : Res (string * Scanner) :=
  let off := Z.of_nat (offset s) - 1 in
  s <- scanString_loop fuel off s ;;
  lit <- text s off (Z.of_nat (offset s)) ;;
  Ok (lit, s).

(** The quote of a character literal. *)
Definition squote : rune := ch "'".

(** The loop of [scanChar], with its variables [valid] and [n]. *)
Fixpoint scanChar_loop (fuel : nat) (off : Z) (valid : bool) (n : Z)
    (s : Scanner) : Res (bool * Z * Scanner) :=
  let c := char s in
  if (c =? 10) || (c <? 0) then
    Ok (if valid
        then (false, n, error off (Text "rune literal not terminated") s)
        else (valid, n, s))
  else
    match fuel with
    | O => OutOfFuel
    | S f =>
        let s := next s in
        if c =? squote then Ok (valid, n, s)
        else
          let n := n + 1 in
          if c =? ch "\" then
            if existsb (Z.eqb (char s))
                 [ch "a"; ch "b"; ch "f"; ch "n"; ch "r"; ch "t"; ch "v";
                  ch "\"; squote]
            then scanChar_loop f off valid n (next s)
            else scanChar_loop f off false n
                   (error off (Text "illegal char literal") s)
          else scanChar_loop f off valid n s
    end.

Definition scanChar (fuel : nat) (s : Scanner) : Res (string * Scanner) :=
  let off := Z.of_nat (offset s) - 1 in
  ' (valid, n, s) <- scanChar_loop fuel off true 0 s ;;
  let s := if valid && negb (n =? 1)
           then error off (Text "illegal char literal") s else s in
  lit <- text s off (Z.of_nat (offset s)) ;;
  Ok (lit, s).

(** The loop of [scanRawString]. *)
Fixpoint scanRawString_loop (fuel : nat) (off : Z) (s : Scanner)
  : Res Scanner :=
  let c := char s in
  if c <? 0 then
    Ok (error off (Text "raw string literal not terminated") s)
  else
    match fuel with
    | O => OutOfFuel
    | S f =>
        let s := next s in
        if c =? ch "`" then Ok s else scanRawString_loop f off s
    end.

Definition scanRawString (fuel : nat) (s : Scanner) : Res (string * Scanner) :=
  let off := Z.of_nat (offset s) - 1 in
  s <- scanRawString_loop fuel off s ;;
  lit <- text s off (Z.of_nat (offset s)) ;;
  Ok (lit, s).

(** ** Scan *)

(** What one activation of [Scan] does: it returns a token and its literal,
    or it has skipped a comment and ends in [return s.Scan()]. *)
Inductive Outcome : Type :=
| Return (token : Token) (literal : string)
| Rescan.

(** The body of [Scan].  The result [pos] is never assigned (the assignment
    is commented out) and is left out.  [char] below is the local variable
    of the source, the code point the [switch] looks at. *)
Definition Scan_body (keywords : list string) (fuel : nat) (s : Scanner)
  : Res (Outcome * Scanner) :=
  s <- advance_while (fun s => isSpace (char s)) fuel s ;;
  if isLetter (char s) then
    ' (literal, s) <- scanIdentifier fuel s ;;
    Ok (Return (Lookup keywords literal) literal, s)
  else if isDecimal (char s)
          || ((char s =? ch ".") && isDecimal (peek s)) then
    ' (token, literal, s) <- scanNumber fuel s ;;
    Ok (Return token literal, s)
  else
    let c := char s in
    let s := next s in
    if c =? eof then Ok (Return EOF EmptyString, s)
    else if c =? dquote then
      ' (literal, s) <- scanString fuel s ;;
      Ok (Return STRING literal, s)
    else if c =? ch "`" then
      ' (literal, s) <- scanRawString fuel s ;;
      Ok (Return STRING literal, s)
    else if c =? squote then
      ' (literal, s) <- scanChar fuel s ;;
      Ok (Return CHAR literal, s)
    else if c =? ch "." then Ok (Return ILLEGAL EmptyString, s)
    else if c =? ch "/" then
      if (char s =? ch "/") || (char s =? ch "*") then
        ' (literal, s) <- scanComment fuel s ;;
        if negb (scanComments s) then Ok (Rescan, s)
        else Ok (Return COMMENT literal, s)
      else Ok (Return ILLEGAL EmptyString, s)
    else if c =? ch "@" then
      if isLetter (char s) then
        ' (literal, s) <- scanIdentifier fuel s ;;
        Ok (Return META literal, s)
      else
        Ok (Return ILLEGAL EmptyString,
            error (Z.of_nat (offset s)) (Text "invalid meta name") s)
    else
      Ok (Return ILLEGAL EmptyString,
          next (error (Z.of_nat (offset s)) (Text "invalid token") s)).

(** [Scan], with the depth of its recursion bounded by the fuel. *)
Fixpoint Scan_rec (keywords : list string) (fuel : nat) (s : Scanner)
  : Res (Token * string * Scanner) :=
  ' (o, s') <- Scan_body keywords fuel s ;;
  match o with
  | Return token literal => Ok (token, literal, s')
  | Rescan =>
      match fuel with
      | O => OutOfFuel
      | S f => Scan_rec keywords f s'
      end
  end.

(** Every loop iteration and every recursive call consumes a code point, so
    one more than the length of the source is fuel enough (see
    [Scan_returns]). *)
Definition Scan (keywords : list string) (s : Scanner)
  : Res (Token * string * Scanner) :=
  Scan_rec keywords (S (len s)) s.

(** [n] calls of [Scan] in a row, with the tokens they return. *)
Fixpoint Scans (keywords : list string) (n : nat) (s : Scanner)
  : Res (list (Token * string) * Scanner) :=
  match n with
  | O => Ok ([], s)
  | S k =>
      ' (token, literal, s) <- Scan keywords s ;;
      ' (rest, s) <- Scans keywords k s ;;
      Ok ((token, literal) :: rest, s)
  end.

(** The source of a test, from its text. *)
Definition source (t : string) : list byte := list_byte_of_string t.

(** * Specification *)

(** ** Predicates of the specification *)

(** The code point that starts at offset [o] of the source and its width, as
    [next] reads it. *)
Definition decodeAt (p : list byte) (o : nat) : rune * nat :=
  let r := byteAt p o in
  if RuneSelf <=? r then utf8.DecodeRune (skipn o p) else (r, 1%nat).

(** The invariant of the cursor: either the input is exhausted, or [char] is
    the code point that starts at [offset] and [readOffset] is the offset
    just behind it. *)
Definition WF (s : Scanner) : Prop :=
  (readOffset s <= len s)%nat /\
  ((char s = eof /\ offset s = len s /\ readOffset s = len s) \/
   ((offset s < len s)%nat /\
    char s = fst (decodeAt (src s) (offset s)) /\
    readOffset s = (offset s + snd (decodeAt (src s) (offset s)))%nat)).

(** [emits s new s']: from [s] to [s'] the scanner printed and counted the
    diagnostics [new], and touched nothing but the cursor besides. *)
Record emits (s : Scanner) (new : list Msg) (s' : Scanner) : Prop := {
  emits_src : src s' = src s;
  emits_err : err s' = err s;
  emits_scanComments : scanComments s' = scanComments s;
  emits_flags : flags s' = flags s;
  emits_flagStarted : flagStarted s' = flagStarted s;
  emits_lineOffset : lineOffset s' = lineOffset s;
  emits_handled : handled s' = handled s;
  emits_stdout : stdout s' = stdout s ++ new;
  emits_count : ErrorCount s' = ErrorCount s + Z.of_nat (List.length new)
}.

(** The diagnostics of the cursor itself. *)
Definition cursor_msg (m : Msg) : Prop :=
  m = Text "illegal character NUL" \/
  m = Text "illegal UTF-8 encoding" \/
  m = Text "illegal byte order mark".

(** [reach s new s']: the scanner went from [s] to [s'], emitting [new],
    keeping the invariant and never moving the cursor back. *)
Definition reach (s : Scanner) (new : list Msg) (s' : Scanner) : Prop :=
  emits s new s' /\ WF s' /\ (offset s <= offset s')%nat.

(** [s.src[lo:hi]] as a string, for offsets in range. *)
Definition span (s : Scanner) (lo hi : nat) : string :=
  string_of_list_byte (firstn (hi - lo) (skipn lo (src s))).

(** How often message [m] occurs in a list of diagnostics. *)
Definition count_msg (m : Msg) (l : list Msg) : nat :=
  List.length (filter (Msg_eqb m) l).

(** The iterations of [for cond(s) { s.next() }]: from [s] the loop ends in
    [s']. *)
Inductive run (cond : Scanner -> bool) : Scanner -> Scanner -> Prop :=
| run_stop (s : Scanner) : cond s = false -> run cond s s
| run_step (s s' : Scanner) :
    cond s = true -> run cond (next s) s' -> run cond s s'.

(** [n] calls of [s.next()]. *)
Fixpoint advance (n : nat) (s : Scanner) : Scanner :=
  match n with
  | O => s
  | S k => advance k (next s)
  end.

(** The next [n] code points, from the current one on, are digits of the
    base. *)
Fixpoint digitsAhead (n : nat) (base : Z) (s : Scanner) : bool :=
  match n with
  | O => true
  | S k => (digitVal (char s) <? base) && digitsAhead k base (next s)
  end.

(** The value of the next [n] digits, continuing from [x]. *)
Fixpoint digitsValue (n : nat) (base x : Z) (s : Scanner) : Z :=
  match n with
  | O => x
  | S k => digitsValue k base (wrap32 (x * base + digitVal (char s))) (next s)
  end.

(** The diagnostic of an escape that is no code point. *)
Definition invalid_code_point : Msg :=
  Text "escape sequence is invalid Unicode code point".

(** The cursor is at the two characters that open a comment. *)
Definition commentStart (s : Scanner) : bool :=
  (char s =? ch "/")
  && ((char (next s) =? ch "/") || (char (next s) =? ch "*")).

(** The cursor is at a digit, or at a [.] that a digit follows. *)
Definition numberStart (s : Scanner) : bool :=
  isDecimal (char s) || ((char s =? ch ".") && isDecimal (peek s)).

(** How the literal of the token that starts at the cursor relates to the
    source: it is the text the token spans, or that text without the [@] of
    a meta name, or it is empty. *)
Inductive Class : Type := Spanned | MetaName | Bare.

Definition classify (s : Scanner) : Class :=
  let c := char s in
  if isLetter c || numberStart s || (c =? dquote) || (c =? ch "`")
     || (c =? squote) || commentStart s
  then Spanned
  else if (c =? ch "@") && isLetter (char (next s)) then MetaName
  else Bare.

(** The literal of the token that starts in state [s0] and ends in [s']. *)
Definition expected_literal (s0 s' : Scanner) : string :=
  match classify s0 with
  | Spanned => span s0 (offset s0) (offset s')
  | MetaName => span s0 (offset s0 + 1) (offset s')
  | Bare => EmptyString
  end.

(** The cursor invariant as a test. *)
Definition WFb (s : Scanner) : bool :=
  (readOffset s <=? len s)%nat
  && (((char s =? eof) && (offset s =? len s)%nat
       && (readOffset s =? len s)%nat)
      || ((offset s <? len s)%nat
          && (char s =? fst (decodeAt (src s) (offset s)))
          && (readOffset s =? offset s + snd (decodeAt (src s) (offset s)))%nat)).

(** The diagnostics [scanComment] can emit. *)
Definition comment_msg (m : Msg) : Prop :=
  cursor_msg m \/ m = Text "comment not terminated".

(** The diagnostics [scanNumber] emits for the integer part. *)
Definition integer_msg (m : Msg) : Prop :=
  cursor_msg m \/ m = Text "invalid integer" \/ m = Text "illegal number" \/
  m = Text "invalid radix point".

(** The diagnostic of a fraction without digits. *)
Definition float_msg : Msg := Text "float has no digits after .".

(** The diagnostics [scanEscape] emits. *)
Definition escape_msg (m : Msg) : Prop :=
  cursor_msg m \/ m = Text "escape sequence not terminated" \/
  m = Text "unknown escape sequence" \/ m = invalid_code_point \/
  exists c, m = IllegalCharInEscape c.

(** The state in which [scanEscape] is called for the escape of the string
    ["\uD800"]: the opening quote and the backslash are consumed. *)
Definition at_unicode_escape : Scanner :=
  advance 2 (NewScanner ([x22] ++ source "\uD800" ++ [x22]) true true []).

(** The diagnostics [scanChar] emits itself. *)
Definition rune_literal_msg (m : Msg) : Prop :=
  m = Text "rune literal not terminated" \/ m = Text "illegal char literal".

(** The characters [scanChar] accepts behind a backslash. *)
Definition char_escape (c : rune) : bool :=
  existsb (Z.eqb c)
    [ch "a"; ch "b"; ch "f"; ch "n"; ch "r"; ch "t"; ch "v"; ch "\"; squote].

(** The state in which the token that [Scan] returns from [s] starts:
    [Scan] first skips the white space and, with comments suppressed, every
    comment before the token, with the loops of the source. *)
Fixpoint token_start (fuel : nat) (s : Scanner) : Res Scanner :=
  s <- advance_while (fun s => isSpace (char s)) fuel s ;;
  if commentStart s && negb (scanComments s) then
    ' (literal, s) <- scanComment fuel (next s) ;;
    match fuel with
    | O => OutOfFuel
    | S f => token_start f s
    end
  else Ok s.

(** The text of a block comment, code point by code point: from [s], behind
    the opening [/*], the comment is closed by the first [*] that a [/]
    follows and ends behind that [/] (result [true]), or it runs to the end
    of the input (result [false]). *)
Inductive block_run : Scanner -> bool -> Scanner -> Prop :=
| block_open (s : Scanner) : char s < 0 -> block_run s false s
| block_close (s : Scanner) :
    char s = ch "*" -> char (next s) = ch "/" ->
    block_run s true (next (next s))
| block_step (s : Scanner) (t : bool) (s' : Scanner) :
    0 <= char s ->
    (char s =? ch "*") && (char (next s) =? ch "/") = false ->
    block_run (next s) t s' -> block_run s t s'.

(** [comment_end s s']: the comment whose first [/] is the current code
    point of [s] ends in [s'].  A line comment ends at the first newline
    behind its [//], or at the end of the input; a block comment ends
    behind its terminator, or at the end of the input with the diagnostic
    "comment not terminated". *)
Definition comment_end (s s' : Scanner) : Prop :=
  (char (next s) = ch "/" /\
   run (fun s => negb (char s =? 10) && (0 <=? char s))
       (next (next s)) s') \/
  (char (next s) = ch "*" /\
   exists (t : bool) (e : Scanner),
     block_run (next (next s)) t e /\
     s' = if t then e
          else error (Z.of_nat (offset (next s)) - 1)
                     (Text "comment not terminated") e).

(** The number that the digits [ds], the most significant first, write in
    the base. *)
Definition digits_number (base : Z) (ds : list Z) : Z :=
  fold_left (fun a d => a * base + d) ds 0.

(** The values of the next [n] code points, from the current one on, read
    as digits. *)
Fixpoint digitsList (n : nat) (s : Scanner) : list Z :=
  match n with
  | O => []
  | S k => digitVal (char s) :: digitsList k (next s)
  end.

(** * Proofs *)

Lemma land_le_r (a b : Z) : 0 <= a -> 0 <= b -> Z.land a b <= b.
Proof.
  intros Ha Hb.
  pose proof (Z.lor_ldiff_and b a) as H.
  assert (Hd : Z.land (Z.ldiff b a) (Z.land b a) = 0).
  { rewrite Z.land_assoc, (Z.land_comm (Z.ldiff b a) b), <- Z.land_assoc.
    rewrite Z.land_ldiff. apply Z.land_0_r. }
  rewrite <- (Z.lxor_lor _ _ Hd), <- (Z.add_nocarry_lxor _ _ Hd) in H.
  assert (0 <= Z.ldiff b a) by (apply Z.ldiff_nonneg; lia).
  rewrite (Z.land_comm a b). lia.
Qed.

Lemma lor_ge_l (a b : Z) : 0 <= a -> 0 <= b -> a <= Z.lor a b.
Proof.
  intros Ha Hb. pose proof (Z.add_lor_land a b).
  pose proof (land_le_r a b Ha Hb). lia.
Qed.

Lemma lor_ge_r (a b : Z) : 0 <= a -> 0 <= b -> b <= Z.lor a b.
Proof. intros. rewrite Z.lor_comm. now apply lor_ge_l. Qed.

Lemma rune_of_byte_range (b : byte) : 0 <= rune_of_byte b < 256.
Proof.
  unfold rune_of_byte. pose proof (Byte.to_N_bounded b). lia.
Qed.

Lemma byteAt_range (p : list byte) (i : nat) : 0 <= byteAt p i < 256.
Proof. apply rune_of_byte_range. Qed.

Lemma first_cases (b : Z) :
  0 <= b < 256 ->
  (b < 0x80 /\ utf8.first b = 0xF0) \/
  (0x80 <= b /\ utf8.first b = 0xF1) \/
  (0xC2 <= b < 0xE0 /\ utf8.first b = 0x02) \/
  (b = 0xE0 /\ utf8.first b = 0x13) \/
  (0xE1 <= b < 0xF0 /\ utf8.first b = 0x03) \/
  (0xE1 <= b < 0xF0 /\ utf8.first b = 0x23) \/
  (b = 0xF0 /\ utf8.first b = 0x34) \/
  (0xF1 <= b < 0xF4 /\ utf8.first b = 0x04) \/
  (b = 0xF4 /\ utf8.first b = 0x44).
Proof.
  intros Hb. unfold utf8.first.
  repeat match goal with
         | |- context [if ?c then _ else _] => destruct c eqn:?
         end;
    repeat match goal with
           | H : (_ <? _) = true |- _ => apply Z.ltb_lt in H
           | H : (_ <? _) = false |- _ => apply Z.ltb_ge in H
           | H : (_ =? _) = true |- _ => apply Z.eqb_eq in H
           | H : (_ =? _) = false |- _ => apply Z.eqb_neq in H
           end; lia.
Qed.

Ltac bool_hyps :=
  repeat match goal with
         | H : (_ || _) = true |- _ => apply orb_true_iff in H
         | H : (_ || _) = false |- _ => apply orb_false_iff in H; destruct H
         | H : (_ && _) = true |- _ => apply andb_true_iff in H; destruct H
         | H : (_ && _) = false |- _ => apply andb_false_iff in H
         | H : negb _ = true |- _ => apply negb_true_iff in H
         | H : negb _ = false |- _ => apply negb_false_iff in H
         | H : (_ <? _) = true |- _ => apply Z.ltb_lt in H
         | H : (_ <? _) = false |- _ => apply Z.ltb_ge in H
         | H : (_ <=? _) = true |- _ => apply Z.leb_le in H
         | H : (_ <=? _) = false |- _ => apply Z.leb_gt in H
         | H : (_ =? _) = true |- _ => apply Z.eqb_eq in H
         | H : (_ =? _) = false |- _ => apply Z.eqb_neq in H
         | H : (_ <? _)%nat = true |- _ => apply Nat.ltb_lt in H
         | H : (_ <? _)%nat = false |- _ => apply Nat.ltb_ge in H
         | H : (_ =? _)%nat = true |- _ => apply Nat.eqb_eq in H
         | H : (_ =? _)%nat = false |- _ => apply Nat.eqb_neq in H
         end.

Ltac nonneg := repeat (apply Z.lor_nonneg; split); lia.

Ltac lor_bound :=
  match goal with
  | |- _ <= Z.lor ?a ?b =>
      first [ apply (Z.le_trans _ a); [lor_bound | apply lor_ge_l; nonneg]
            | apply (Z.le_trans _ b); [lor_bound | apply lor_ge_r; nonneg] ]
  | _ => lia
  end.

Lemma DecodeRune_spec (p : list byte) :
  p <> [] ->
  (1 <= snd (utf8.DecodeRune p) <= List.length p)%nat /\
  0 <= fst (utf8.DecodeRune p) /\
  (0x80 <= byteAt p 0 -> 0x80 <= fst (utf8.DecodeRune p)).
Proof.
  intros Hp. unfold utf8.DecodeRune.
  destruct p as [|c0 t]; [congruence|]. clear Hp.
  set (p := c0 :: t).
  assert (Hlen : (1 <= List.length p)%nat) by (simpl; lia).
  pose proof (byteAt_range p 0) as H0.
  pose proof (byteAt_range p 1) as H1.
  pose proof (byteAt_range p 2) as H2.
  pose proof (byteAt_range p 3) as H3.
  generalize dependent (byteAt p 0). intros p0 H0.
  generalize dependent (byteAt p 1). intros b1 H1.
  generalize dependent (byteAt p 2). intros b2 H2.
  generalize dependent (byteAt p 3). intros b3 H3.
  generalize dependent (List.length p). intros n Hlen. clear p c0 t.
  cbv zeta.
  change 0x1F with (Z.ones 5). change 0x0F with (Z.ones 4).
  change 7 with (Z.ones 3). change 0x3F with (Z.ones 6).
  rewrite !Z.land_ones, !Z.shiftl_mul_pow2 by lia.
  change (2 ^ 5) with 32. change (2 ^ 4) with 16. change (2 ^ 3) with 8.
  change (2 ^ 6) with 64. change (2 ^ 12) with 4096. change (2 ^ 18) with 262144.
  pose proof (Z.mod_pos_bound b1 64 eq_refl) as Hm1.
  pose proof (Z.mod_pos_bound b2 64 eq_refl) as Hm2.
  pose proof (Z.mod_pos_bound b3 64 eq_refl) as Hm3.
  pose proof (Z.mod_pos_bound p0 32 eq_refl) as Hp5.
  pose proof (Z.mod_pos_bound p0 16 eq_refl) as Hp4.
  pose proof (Z.mod_pos_bound p0 8 eq_refl) as Hp3.
  assert (Hq5 : 0xC2 <= p0 < 0xE0 -> 2 <= p0 mod 32) by (intros; Z.div_mod_to_equations; lia).
  assert (Hq4 : 0xE1 <= p0 < 0xF0 -> 1 <= p0 mod 16) by (intros; Z.div_mod_to_equations; lia).
  assert (Hq3 : 0xF1 <= p0 <= 0xF4 -> 1 <= p0 mod 8) by (intros; Z.div_mod_to_equations; lia).
  assert (Hb1a : 0xA0 <= b1 <= 0xBF -> 32 <= b1 mod 64) by (intros; Z.div_mod_to_equations; lia).
  assert (Hb1b : 0x90 <= b1 <= 0xBF -> 16 <= b1 mod 64) by (intros; Z.div_mod_to_equations; lia).
  generalize dependent (b1 mod 64). intros m1 ? ? ?.
  generalize dependent (b2 mod 64). intros m2 ?.
  generalize dependent (b3 mod 64). intros m3 ?.
  generalize dependent (p0 mod 32). intros q5 ? ?.
  generalize dependent (p0 mod 16). intros q4 ? ?.
  generalize dependent (p0 mod 8). intros q3 ? ?.
  destruct (first_cases p0 H0) as
    [[Hr Hx]|[[Hr Hx]|[[Hr Hx]|[[Hr Hx]|[[Hr Hx]|[[Hr Hx]|[[Hr Hx]|[[Hr Hx]|[Hr Hx]]]]]]]]];
    rewrite Hx;
    repeat match goal with
      | |- context [?c mod 8] =>
          let v := eval vm_compute in (c mod 8) in change (c mod 8) with v
      | |- context [utf8.acceptRanges ?c] =>
          let v := eval vm_compute in (utf8.acceptRanges c) in
          change (utf8.acceptRanges c) with v
      | |- context [Z.testbit ?c 0] =>
          let v := eval vm_compute in (Z.testbit c 0) in
          change (Z.testbit c 0) with v
      | |- context [240 <=? ?c] =>
          let v := eval vm_compute in (240 <=? c) in
          change (240 <=? c) with v
      end;
    cbv beta iota; unfold utf8.locb, utf8.hicb;
    repeat match goal with
      | |- context [if ?c then _ else _] => destruct c eqn:?
      end;
    cbn [fst snd]; bool_hyps; unfold RuneError;
    try lia.
  all: split; [lia|].
  all: split; [nonneg|intros _; lor_bound].
Qed.

Ltac emits_tac :=
  constructor; simpl; try reflexivity; try (now rewrite app_nil_r); try lia.

Lemma emits_refl (s : Scanner) : emits s [] s.
Proof. emits_tac. Qed.

Lemma emits_trans (s1 s2 s3 : Scanner) (n1 n2 : list Msg) :
  emits s1 n1 s2 -> emits s2 n2 s3 -> emits s1 (n1 ++ n2) s3.
Proof.
  intros [] []. constructor; try congruence.
  - rewrite app_assoc. congruence.
  - rewrite length_app. lia.
Qed.

Lemma error_eq (off : Z) (msg : Msg) (s : Scanner) :
  error off msg s = count_error (Println msg s).
Proof. unfold error. cbv zeta. now destruct (err (Println msg s)). Qed.

Lemma emits_error (off : Z) (msg : Msg) (s : Scanner) :
  emits s [msg] (error off msg s).
Proof.
  rewrite error_eq. emits_tac.
Qed.

Lemma error_cursor (off : Z) (msg : Msg) (s : Scanner) :
  char (error off msg s) = char s /\
  offset (error off msg s) = offset s /\
  readOffset (error off msg s) = readOffset s /\
  src (error off msg s) = src s.
Proof. rewrite error_eq. simpl; auto. Qed.

Lemma WF_error (off : Z) (msg : Msg) (s : Scanner) :
  WF s -> WF (error off msg s).
Proof.
  unfold WF, len.
  destruct (error_cursor off msg s) as (-> & -> & -> & ->). auto.
Qed.

Lemma emits_set_cursor (s : Scanner) (c : rune) (o ro : nat) :
  emits s [] (set_char c (set_readOffset ro (set_offset o s))).
Proof. emits_tac. Qed.

Lemma next_emits (s : Scanner) :
  exists new, emits s new (next s) /\ Forall cursor_msg new /\
              (List.length new <= 1)%nat.
Proof.
  unfold next.
  destruct (readOffset s <? len s)%nat.
  - cbv zeta.
    destruct (byteAt _ _ =? 0).
    + exists [Text "illegal character NUL"]. split; [|split].
      * rewrite error_eq. emits_tac.
      * constructor; [unfold cursor_msg; auto|constructor].
      * simpl; lia.
    + destruct (RuneSelf <=? _).
      * destruct (utf8.DecodeRune _) as [r w].
        destruct ((r =? RuneError) && (w =? 1)%nat).
        { exists [Text "illegal UTF-8 encoding"]. split; [|split].
          - rewrite error_eq. emits_tac.
          - constructor; [unfold cursor_msg; auto|constructor].
          - simpl; lia. }
        destruct ((r =? bom) && (0 <? _)%nat).
        { exists [Text "illegal byte order mark"]. split; [|split].
          - rewrite error_eq. emits_tac.
          - constructor; [unfold cursor_msg; auto|constructor].
          - simpl; lia. }
        exists []. split; [|split]; [|constructor|simpl; lia].
        emits_tac.
      * exists []. split; [|split]; [|constructor|simpl; lia].
        emits_tac.
  - exists []. split; [|split]; [|constructor|simpl; lia].
    emits_tac.
Qed.

Lemma next_cursor (s : Scanner) :
  (readOffset s < len s)%nat ->
  src (next s) = src s /\
  offset (next s) = readOffset s /\
  char (next s) = fst (decodeAt (src s) (readOffset s)) /\
  readOffset (next s) = (readOffset s + snd (decodeAt (src s) (readOffset s)))%nat.
Proof.
  intros Hlt. unfold next, decodeAt.
  apply Nat.ltb_lt in Hlt. rewrite Hlt. cbv zeta.
  change (src (set_offset (readOffset s) s)) with (src s).
  change (readOffset (set_offset (readOffset s) s)) with (readOffset s).
  destruct (byteAt (src s) (readOffset s) =? 0) eqn:E0.
  - apply Z.eqb_eq in E0. rewrite E0.
    change (RuneSelf <=? 0) with false. cbv iota.
    rewrite error_eq. simpl; auto.
  - destruct (RuneSelf <=? byteAt (src s) (readOffset s)).
    + destruct (utf8.DecodeRune _) as [r w].
      destruct ((r =? RuneError) && (w =? 1)%nat);
        [|destruct ((r =? bom) && (0 <? _)%nat)];
        rewrite ?error_eq; simpl; auto.
    + simpl; auto.
Qed.

Lemma next_at_end (s : Scanner) :
  (len s <= readOffset s)%nat ->
  next s = set_char eof (set_offset (len s) s).
Proof.
  intros H. unfold next. apply Nat.ltb_ge in H. now rewrite H.
Qed.

Lemma decodeAt_spec (p : list byte) (o : nat) :
  (o < List.length p)%nat ->
  (1 <= snd (decodeAt p o) <= List.length p - o)%nat /\
  0 <= fst (decodeAt p o) /\
  (fst (decodeAt p o) < 0x80 ->
   snd (decodeAt p o) = 1%nat /\ byteAt p o = fst (decodeAt p o)).
Proof.
  intros Ho. unfold decodeAt. cbv zeta.
  pose proof (byteAt_range p o) as Hb.
  destruct (RuneSelf <=? byteAt p o) eqn:E.
  - apply Z.leb_le in E. unfold RuneSelf in E.
    assert (Hne : skipn o p <> []).
    { intros H. apply (f_equal (@List.length _)) in H.
      rewrite length_skipn in H. simpl in H. lia. }
    destruct (DecodeRune_spec _ Hne) as (Hw & Hr & Hge).
    rewrite length_skipn in Hw.
    unfold byteAt in Hge. rewrite nth_skipn, Nat.add_0_r in Hge.
    specialize (Hge E). repeat split; try lia.
  - apply Z.leb_gt in E. simpl. repeat split; lia.
Qed.

Lemma next_WF (s : Scanner) : (readOffset s <= len s)%nat -> WF (next s).
Proof.
  intros Hle. destruct (Nat.lt_ge_cases (readOffset s) (len s)) as [Hlt|Hge].
  - destruct (next_cursor s Hlt) as (Hs & Ho & Hc & Hr).
    destruct (decodeAt_spec (src s) (readOffset s) Hlt) as (Hw & _).
    unfold WF, len in *. rewrite Hs, Ho, Hc, Hr. split; [lia|].
    right. repeat split; lia.
  - rewrite (next_at_end s Hge). unfold WF, len in *. simpl.
    split; [lia|]. left. repeat split; lia.
Qed.

Lemma WF_next (s : Scanner) : WF s -> WF (next s).
Proof. intros [H _]. now apply next_WF. Qed.

Lemma WF_char (s : Scanner) : WF s -> char s = eof \/ 0 <= char s.
Proof.
  intros [_ [[H _]|(Ho & Hc & _)]]; [now left|right].
  rewrite Hc. now apply decodeAt_spec.
Qed.

Lemma WF_offset_le (s : Scanner) : WF s -> (offset s <= len s)%nat.
Proof. intros [_ [(_ & H & _)|(H & _)]]; lia. Qed.

Lemma next_offset (s : Scanner) : WF s -> offset (next s) = readOffset s.
Proof.
  intros [Hle Hc]. destruct (Nat.lt_ge_cases (readOffset s) (len s)) as [Hlt|Hge].
  - now apply next_cursor.
  - rewrite (next_at_end s Hge). simpl. lia.
Qed.

Lemma next_eof (s : Scanner) : WF s -> char s = eof -> next s = s.
Proof.
  intros [Hle [(Hc & Ho & Hr)|(Ho & Hc & Hr)]] He.
  - rewrite next_at_end by lia. unfold set_char, set_offset. rewrite <- Ho.
    destruct s; simpl in *. now rewrite Hc.
  - exfalso. pose proof (decodeAt_spec (src s) (offset s) Ho) as (_ & H & _).
    rewrite <- Hc, He in H. unfold eof in H. lia.
Qed.

Lemma next_advances (s : Scanner) :
  WF s -> 0 <= char s -> (offset s < offset (next s))%nat.
Proof.
  intros Hwf Hc. rewrite (next_offset s Hwf).
  destruct Hwf as [Hle [(He & _)|(Ho & _ & Hr)]].
  - rewrite He in Hc. unfold eof in Hc. lia.
  - pose proof (decodeAt_spec (src s) (offset s) Ho) as (Hw & _). lia.
Qed.

Lemma WF_ascii (s : Scanner) :
  WF s -> 0 <= char s < 0x80 ->
  readOffset s = (offset s + 1)%nat /\ byteAt (src s) (offset s) = char s /\
  (offset s < len s)%nat.
Proof.
  intros [Hle [(He & _)|(Ho & Hc & Hr)]] Hr0.
  - rewrite He in Hr0. unfold eof in Hr0. lia.
  - pose proof (decodeAt_spec (src s) (offset s) Ho) as (_ & _ & H).
    rewrite <- Hc in H. destruct (H ltac:(lia)) as [Hw Hb].
    rewrite Hr, Hw. auto.
Qed.

Lemma next_reach (s : Scanner) :
  WF s -> exists new, reach s new (next s) /\ Forall cursor_msg new /\
                      (List.length new <= 1)%nat.
Proof.
  intros Hwf. destruct (next_emits s) as (new & He & Hf & Hl).
  exists new. split; [|now split]. split; [exact He|]. split.
  - now apply WF_next.
  - destruct (WF_char s Hwf) as [E|E].
    + rewrite (next_eof s Hwf E). lia.
    + pose proof (next_advances s Hwf E). lia.
Qed.

Lemma reach_refl (s : Scanner) : WF s -> reach s [] s.
Proof. intros H. split; [apply emits_refl|]. split; [exact H|lia]. Qed.

Lemma reach_trans (s1 s2 s3 : Scanner) (n1 n2 : list Msg) :
  reach s1 n1 s2 -> reach s2 n2 s3 -> reach s1 (n1 ++ n2) s3.
Proof.
  intros (E1 & W1 & O1) (E2 & W2 & O2).
  split; [eapply emits_trans; eauto|]. split; [exact W2|lia].
Qed.

Lemma reach_error (off : Z) (msg : Msg) (s : Scanner) :
  WF s -> reach s [msg] (error off msg s).
Proof.
  intros H. split; [apply emits_error|]. split; [now apply WF_error|].
  destruct (error_cursor off msg s) as (_ & -> & _). lia.
Qed.

Lemma reach_len (s s' : Scanner) (new : list Msg) :
  reach s new s' -> len s' = len s.
Proof. intros (E & _). unfold len. now rewrite (emits_src _ _ _ E). Qed.

Lemma reach_src (s s' : Scanner) (new : list Msg) :
  reach s new s' -> src s' = src s.
Proof. intros (E & _). exact (emits_src _ _ _ E). Qed.

Lemma reach_offset (s s' : Scanner) (new : list Msg) :
  reach s new s' -> (offset s <= offset s')%nat.
Proof. intros (_ & _ & H). exact H. Qed.

Lemma reach_WF (s s' : Scanner) (new : list Msg) :
  reach s new s' -> WF s'.
Proof. intros (_ & H & _). exact H. Qed.

Lemma WF_nonneg_lt (s : Scanner) :
  WF s -> 0 <= char s -> (offset s < len s)%nat.
Proof.
  intros [_ [(He & _)|(Ho & _)]] Hc; [|exact Ho].
  rewrite He in Hc. unfold eof in Hc. lia.
Qed.

(** The loop [for cond(s) { s.next() }] ends, whatever its condition, as long
    as the condition fails at the end of the input. *)
Lemma advance_while_ok (cond : Scanner -> bool) :
  (forall s, cond s = true -> 0 <= char s) ->
  forall (fuel : nat) (s : Scanner),
    WF s -> (len s - offset s <= fuel)%nat ->
    exists new s',
      advance_while cond fuel s = Ok s' /\ reach s new s' /\
      Forall cursor_msg new /\ run cond s s' /\
      (cond s = true -> (offset s < offset s')%nat).
Proof.
  intros Hcond fuel. induction fuel as [|f IH]; intros s Hwf Hfuel.
  - destruct (cond s) eqn:E.
    + exfalso. pose proof (WF_nonneg_lt s Hwf (Hcond s E)). lia.
    + exists [], s. simpl. rewrite E. split; [reflexivity|].
      split; [now apply reach_refl|]. split; [constructor|].
      split; [now constructor|discriminate].
  - destruct (cond s) eqn:E.
    + pose proof (next_advances s Hwf (Hcond s E)) as Hadv.
      destruct (next_reach s Hwf) as (n1 & R1 & F1 & _).
      destruct (IH (next s) (WF_next s Hwf)) as (n2 & s' & Hrun & R2 & F2 & Hr & _).
      { rewrite (reach_len _ _ _ R1). lia. }
      exists (n1 ++ n2), s'. simpl. rewrite E. split; [exact Hrun|].
      split; [eapply reach_trans; eauto|]. split; [now apply Forall_app|].
      split; [now apply run_step|]. intros _.
      pose proof (reach_offset _ _ _ R2). lia.
    + exists [], s. simpl. rewrite E. split; [reflexivity|].
      split; [now apply reach_refl|]. split; [constructor|].
      split; [now constructor|discriminate].
Qed.

Lemma text_span (s : Scanner) (lo hi : nat) :
  (lo <= hi <= len s)%nat ->
  text s (Z.of_nat lo) (Z.of_nat hi) = Ok (span s lo hi).
Proof.
  intros H. unfold text, span.
  replace ((0 <=? Z.of_nat lo) && (Z.of_nat lo <=? Z.of_nat hi)
           && (Z.of_nat hi <=? Z.of_nat (len s))) with true.
  - rewrite <- Nat2Z.inj_sub, !Nat2Z.id by lia. reflexivity.
  - symmetry. rewrite !andb_true_iff, !Z.leb_le. lia.
Qed.

Lemma text_span_pred (s : Scanner) (o hi : nat) :
  (1 <= o <= hi)%nat -> (hi <= len s)%nat ->
  text s (Z.of_nat o - 1) (Z.of_nat hi) = Ok (span s (o - 1) hi).
Proof.
  intros H1 H2. replace (Z.of_nat o - 1) with (Z.of_nat (o - 1)) by lia.
  apply text_span. lia.
Qed.

Lemma span_src (s s' : Scanner) (lo hi : nat) :
  src s' = src s -> span s' lo hi = span s lo hi.
Proof. unfold span. now intros ->. Qed.

Ltac ch_eval :=
  repeat match goal with
         | |- context [ch ?a] =>
             let v := eval vm_compute in (ch a) in change (ch a) with v
         | H : context [ch ?a] |- _ =>
             let v := eval vm_compute in (ch a) in change (ch a) with v in H
         end.

Lemma isLetter_nonneg (c : rune) : isLetter c = true -> 0 <= c < 0x80.
Proof. unfold isLetter. ch_eval. intros H. bool_hyps. lia. Qed.

Lemma isDecimal_nonneg (c : rune) : isDecimal c = true -> 0 <= c < 0x80.
Proof. unfold isDecimal. ch_eval. intros H. bool_hyps. lia. Qed.

Lemma isSpace_nonneg (c : rune) : isSpace c = true -> 0 <= c < 0x80.
Proof. unfold isSpace. ch_eval. intros H. bool_hyps. lia. Qed.

Lemma scanIdentifier_ok (fuel : nat) (s : Scanner) :
  WF s -> (len s - offset s <= fuel)%nat ->
  exists new s',
    scanIdentifier fuel s = Ok (span s (offset s) (offset s'), s') /\
    reach s new s' /\ Forall cursor_msg new /\
    run (fun s => isLetter (char s) || isDecimal (char s)) s s' /\
    (isLetter (char s) = true -> (offset s < offset s')%nat).
Proof.
  intros Hwf Hfuel. unfold scanIdentifier.
  destruct (advance_while_ok
              (fun s => isLetter (char s) || isDecimal (char s))) with
    (fuel := fuel) (s := s) as (new & s' & Hrun & R & F & Hr & Hadv); auto.
  { intros s0 H. apply orb_true_iff in H.
    destruct H as [H|H]; [apply isLetter_nonneg in H|apply isDecimal_nonneg in H]; lia. }
  exists new, s'. rewrite Hrun. simpl.
  rewrite text_span.
  - simpl. rewrite (span_src s s') by (eapply reach_src; eauto).
    split; [reflexivity|]. split; [exact R|]. split; [exact F|].
    split; [exact Hr|]. intros H. apply Hadv. now rewrite H.
  - pose proof (reach_offset _ _ _ R). pose proof (WF_offset_le _ (reach_WF _ _ _ R)). lia.
Qed.

Lemma blockComment_ok (fuel : nat) :
  forall s : Scanner,
    WF s -> (len s - offset s <= fuel)%nat ->
    exists new t s',
      blockComment fuel s = Ok (t, s') /\ reach s new s' /\
      Forall cursor_msg new /\ (t = false -> char s' = eof).
Proof.
  induction fuel as [|f IH]; intros s Hwf Hfuel; simpl.
  - destruct (0 <=? char s) eqn:E.
    + apply Z.leb_le in E. pose proof (WF_nonneg_lt s Hwf E). lia.
    + exists [], false, s. split; [reflexivity|]. split; [now apply reach_refl|].
      split; [constructor|]. intros _. apply Z.leb_gt in E.
      destruct (WF_char s Hwf); [assumption|lia].
  - destruct (0 <=? char s) eqn:E.
    + apply Z.leb_le in E.
      pose proof (next_advances s Hwf E) as Hadv.
      destruct (next_reach s Hwf) as (n1 & R1 & F1 & _).
      destruct ((char s =? ch "*") && (char (next s) =? ch "/")).
      * destruct (next_reach (next s) (WF_next s Hwf)) as (n2 & R2 & F2 & _).
        exists (n1 ++ n2), true, (next (next s)). split; [reflexivity|].
        split; [eapply reach_trans; eauto|]. split; [now apply Forall_app|].
        discriminate.
      * destruct (IH (next s) (WF_next s Hwf)) as (n2 & t & s' & Hrun & R2 & F2 & Ht).
        { rewrite (reach_len _ _ _ R1). lia. }
        exists (n1 ++ n2), t, s'. split; [exact Hrun|].
        split; [eapply reach_trans; eauto|]. split; [now apply Forall_app|exact Ht].
    + exists [], false, s. split; [reflexivity|]. split; [now apply reach_refl|].
      split; [constructor|]. intros _. apply Z.leb_gt in E.
      destruct (WF_char s Hwf); [assumption|lia].
Qed.

Lemma Forall_impl_cursor (P : Msg -> Prop) (l : list Msg) :
  (forall m, cursor_msg m -> P m) -> Forall cursor_msg l -> Forall P l.
Proof. intros H. apply Forall_impl. exact H. Qed.

Lemma scanComment_ok (fuel : nat) (s : Scanner) :
  WF s -> (len s - offset s <= fuel)%nat -> (1 <= offset s)%nat ->
  exists new s',
    scanComment fuel s = Ok (span s (offset s - 1) (offset s'), s') /\
    reach s new s' /\ Forall comment_msg new.
Proof.
  intros Hwf Hfuel Ho. unfold scanComment.
  destruct (next_reach s Hwf) as (n1 & R1 & F1 & _).
  assert (Hf1 : (len (next s) - offset (next s) <= fuel)%nat).
  { rewrite (reach_len _ _ _ R1). pose proof (reach_offset _ _ _ R1). lia. }
  destruct (char s =? ch "/").
  - destruct (advance_while_ok
                (fun s => negb (char s =? 10) && (0 <=? char s))) with
      (fuel := fuel) (s := next s) as (n2 & s' & Hrun & R2 & F2 & _); auto.
    { intros s0 H. bool_hyps. lia. }
    { now apply WF_next. }
    pose proof (reach_trans _ _ _ _ _ R1 R2) as R.
    exists (n1 ++ n2), s'. rewrite Hrun. simpl.
    rewrite text_span_pred.
    + simpl. rewrite (span_src s s') by (eapply reach_src; eauto).
      split; [reflexivity|]. split; [exact R|].
      apply Forall_impl_cursor; [now left|now apply Forall_app].
    + pose proof (reach_offset _ _ _ R). lia.
    + apply WF_offset_le. eapply reach_WF; eauto.
  - destruct (blockComment_ok fuel (next s)) as (n2 & t & s' & Hrun & R2 & F2 & _); auto.
    { now apply WF_next. }
    rewrite Hrun. simpl.
    pose proof (reach_trans _ _ _ _ _ R1 R2) as R.
    assert (F : Forall comment_msg (n1 ++ n2)).
    { apply Forall_impl_cursor; [now left|now apply Forall_app]. }
    destruct t.
    + exists (n1 ++ n2), s'.
      rewrite text_span_pred.
      * simpl. rewrite (span_src s s') by (eapply reach_src; eauto). auto.
      * pose proof (reach_offset _ _ _ R). lia.
      * apply WF_offset_le. eapply reach_WF; eauto.
    + set (e := error _ _ s').
      assert (Re : reach s' [Text "comment not terminated"] e)
        by (apply reach_error; eapply reach_WF; eauto).
      pose proof (reach_trans _ _ _ _ _ R Re) as R'.
      exists ((n1 ++ n2) ++ [Text "comment not terminated"]), e.
      assert (Hoe : offset e = offset s') by (apply error_cursor).
      rewrite text_span_pred.
      * simpl. rewrite (span_src s e) by (eapply reach_src; eauto).
        split; [reflexivity|]. split; [exact R'|].
        apply Forall_app; split; [exact F|]. constructor; [now right|constructor].
      * pose proof (reach_offset _ _ _ R'). lia.
      * apply WF_offset_le. eapply reach_WF; eauto.
Qed.

Lemma range_check (P : Z -> bool) (n : nat) :
  forallb P (map Z.of_nat (seq 0 n)) = true ->
  forall c, 0 <= c < Z.of_nat n -> P c = true.
Proof.
  intros H c Hc. rewrite forallb_forall in H. apply H.
  apply in_map_iff. exists (Z.to_nat c). split; [lia|].
  apply in_seq. lia.
Qed.

Lemma lower_range (c : rune) :
  ch "a" <= lower c <= ch "z" -> 0 <= c < 0x80.
Proof.
  unfold lower. ch_eval. change (97 - 65) with 32. intros H.
  destruct (Z.neg_nonneg_cases c) as [Hn|Hp].
  - assert (Z.lor 32 c < 0) by (apply Z.lor_neg; lia). lia.
  - pose proof (lor_ge_r 32 c ltac:(lia) Hp). lia.
Qed.

Lemma digitVal_range (c : rune) : 0 <= digitVal c <= 16.
Proof.
  unfold digitVal. ch_eval.
  destruct ((48 <=? c) && (c <=? 57)) eqn:E1; [bool_hyps; lia|].
  destruct ((97 <=? lower c) && (lower c <=? 102)) eqn:E2; [bool_hyps; lia|lia].
Qed.

Lemma digitVal_digit (c : rune) : digitVal c < 16 -> 0 <= c < 0x80.
Proof.
  unfold digitVal. ch_eval.
  destruct ((48 <=? c) && (c <=? 57)) eqn:E1; [bool_hyps; lia|].
  destruct ((97 <=? lower c) && (lower c <=? 102)) eqn:E2; [|lia].
  intros _. bool_hyps. apply lower_range. ch_eval. lia.
Qed.

Lemma digitVal_decimal (c : rune) : (digitVal c <? 10) = isDecimal c.
Proof.
  unfold digitVal, isDecimal. ch_eval.
  destruct ((48 <=? c) && (c <=? 57)) eqn:E1.
  - bool_hyps. apply Z.ltb_lt. lia.
  - destruct ((97 <=? lower c) && (lower c <=? 102)) eqn:E2.
    + bool_hyps; apply Z.ltb_ge; lia.
    + reflexivity.
Qed.

Lemma digitVal_octal (c : rune) :
  (digitVal c <? 8) = (ch "0" <=? c) && (c <=? ch "7").
Proof.
  unfold digitVal. ch_eval.
  destruct ((48 <=? c) && (c <=? 57)) eqn:E1.
  - bool_hyps. destruct (c <=? 55) eqn:E.
    + bool_hyps. rewrite andb_true_r.
      transitivity true; [apply Z.ltb_lt; lia|symmetry; apply Z.leb_le; lia].
    + bool_hyps. rewrite andb_false_r. apply Z.ltb_ge. lia.
  - transitivity false.
    + destruct ((97 <=? lower c) && (lower c <=? 102)) eqn:E2;
        [bool_hyps; apply Z.ltb_ge; lia|reflexivity].
    + symmetry. apply andb_false_iff. apply andb_false_iff in E1.
      destruct E1 as [E|E]; [left; exact E|right]. bool_hyps. apply Z.leb_gt. lia.
Qed.

Lemma run_false (cond : Scanner -> bool) (s s' : Scanner) :
  run cond s s' -> cond s = false -> s' = s.
Proof. intros [] E; [reflexivity|congruence]. Qed.

Lemma run_end (cond : Scanner -> bool) (s s' : Scanner) :
  run cond s s' -> cond s' = false.
Proof. induction 1; auto. Qed.

Lemma scanDigits_ok (base : Z) (fuel : nat) (s : Scanner) :
  base <= 16 -> WF s -> (len s - offset s <= fuel)%nat ->
  exists new s',
    scanDigits base fuel s = Ok s' /\ reach s new s' /\
    Forall cursor_msg new /\
    run (fun s => digitVal (char s) <? base) s s' /\
    (digitVal (char s) < base -> (offset s < offset s')%nat).
Proof.
  intros Hb Hwf Hfuel. unfold scanDigits.
  destruct (advance_while_ok (fun s => digitVal (char s) <? base)) with
    (fuel := fuel) (s := s) as (new & s' & Hrun & R & F & Hr & Hadv); auto.
  { intros s0 H. apply Z.ltb_lt in H.
    pose proof (digitVal_digit (char s0)). lia. }
  exists new, s'. split; [exact Hrun|]. split; [exact R|]. split; [exact F|].
  split; [exact Hr|]. intros H. apply Hadv. now apply Z.ltb_lt.
Qed.

Lemma Forall_cursor_integer (l : list Msg) :
  Forall cursor_msg l -> Forall integer_msg l.
Proof. apply Forall_impl. now left. Qed.

Lemma scanNumber_integer_ok (fuel : nat) (s : Scanner) :
  WF s -> (len s - offset s <= fuel)%nat ->
  exists new token s',
    scanNumber_integer fuel (Z.of_nat (offset s)) s = Ok (token, s') /\
    reach s new s' /\ Forall integer_msg new /\
    (isDecimal (char s) = true -> (offset s < offset s')%nat).
Proof.
  intros Hwf Hfuel. unfold scanNumber_integer.
  destruct (char s =? ch ".") eqn:Edot; simpl negb; cbv iota.
  { exists [], INT, s. split; [reflexivity|]. split; [now apply reach_refl|].
    split; [constructor|]. intros H. apply isDecimal_nonneg in H as H'.
    unfold isDecimal in H. revert Edot H. ch_eval. intros. bool_hyps. lia. }
  destruct (char s =? ch "0") eqn:E0.
  - assert (Hc : 0 <= char s) by (revert E0; ch_eval; intros; bool_hyps; lia).
    pose proof (next_advances s Hwf Hc) as Hadv.
    destruct (next_reach s Hwf) as (n1 & R1 & F1 & _).
    pose proof (reach_WF _ _ _ R1) as W1.
    cbv zeta.
    destruct (char (next s) =? ch ".") eqn:Edot1; simpl negb; cbv iota.
    { exists n1, INT, (next s). split; [reflexivity|]. split; [exact R1|].
      split; [now apply Forall_cursor_integer|]. intros _. exact Hadv. }
    destruct ((lower (char (next s)) =? ch "x") || (lower (char (next s)) =? ch "b")
              || (lower (char (next s)) =? ch "o")) eqn:Ebase.
    + assert (Hc1 : 0 <= char (next s)).
      { assert (ch "a" <= lower (char (next s)) <= ch "z")
          by (revert Ebase; ch_eval; intros; bool_hyps;
              repeat match goal with H : _ \/ _ |- _ => destruct H end;
              bool_hyps; lia).
        apply lower_range in H. lia. }
      destruct (next_reach (next s) W1) as (n2 & R2 & F2 & _).
      pose proof (reach_WF _ _ _ R2) as W2.
      pose proof (reach_trans _ _ _ _ _ R1 R2) as R12.
      set (base := if lower (char (next s)) =? ch "x" then 16
                   else if lower (char (next s)) =? ch "b" then 2 else 8).
      assert (Hbase : base <= 16)
        by (unfold base; repeat match goal with |- context [if ?c then _ else _] => destruct c end; lia).
      destruct (scanDigits_ok base fuel (next (next s)) Hbase W2)
        as (n3 & s3 & Hrun & R3 & F3 & _).
      { rewrite (reach_len _ _ _ R12). pose proof (reach_offset _ _ _ R12). lia. }
      rewrite Hrun. cbn [bind].
      pose proof (reach_trans _ _ _ _ _ R12 R3) as R123.
      pose proof (reach_WF _ _ _ R3) as W3.
      assert (F123 : Forall integer_msg ((n1 ++ n2) ++ n3)).
      { apply Forall_cursor_integer. apply Forall_app; split; [apply Forall_app; split|]; assumption. }
      assert (Hadv3 : (offset s < offset s3)%nat)
        by (pose proof (reach_offset _ _ _ R2); pose proof (reach_offset _ _ _ R3); lia).
      destruct (Z.of_nat (offset s3) - Z.of_nat (offset s) <=? 2).
      * set (e := error _ (Text "illegal number") s3).
        assert (Re : reach s3 [Text "illegal number"] e) by (now apply reach_error).
        pose proof (reach_trans _ _ _ _ _ R123 Re) as R4.
        assert (F4 : Forall integer_msg (((n1 ++ n2) ++ n3) ++ [Text "illegal number"])).
        { apply Forall_app; split; [exact F123|]. constructor; [|constructor].
          right; right; left; reflexivity. }
        assert (Hoe : offset e = offset s3) by apply error_cursor.
        destruct (char e =? ch ".").
        -- set (e2 := error _ (Text "invalid radix point") e).
           assert (Re2 : reach e [Text "invalid radix point"] e2)
             by (apply reach_error; eapply reach_WF; eauto).
           eexists _, ILLEGAL, e2. split; [reflexivity|].
           split; [eapply reach_trans; eauto|].
           split; [apply Forall_app; split; [exact F4|]; constructor; [|constructor];
                   right; right; right; reflexivity|].
           intros _. pose proof (reach_offset _ _ _ Re2). lia.
        -- eexists _, ILLEGAL, e. split; [reflexivity|]. split; [exact R4|].
           split; [exact F4|]. intros _. lia.
      * destruct (char s3 =? ch ".").
        -- set (e2 := error _ (Text "invalid radix point") s3).
           assert (Re2 : reach s3 [Text "invalid radix point"] e2)
             by (now apply reach_error).
           eexists _, ILLEGAL, e2. split; [reflexivity|].
           split; [eapply reach_trans; eauto|].
           split; [apply Forall_app; split; [exact F123|]; constructor; [|constructor];
                   right; right; right; reflexivity|].
           intros _. pose proof (reach_offset _ _ _ Re2). lia.
        -- eexists _, INT, s3. split; [reflexivity|]. split; [exact R123|].
           split; [exact F123|]. intros _. lia.
    + set (e := error _ (Text "invalid integer") (next s)).
      assert (Re : reach (next s) [Text "invalid integer"] e) by (now apply reach_error).
      eexists _, ILLEGAL, e. split; [reflexivity|].
      split; [eapply reach_trans; eauto|].
      split; [apply Forall_app; split; [now apply Forall_cursor_integer|];
              constructor; [|constructor]; right; left; reflexivity|].
      intros _. pose proof (reach_offset _ _ _ Re). lia.
  - destruct (scanDigits_ok 10 fuel s ltac:(lia) Hwf Hfuel)
      as (n & s' & Hrun & R & F & _ & Hadv).
    rewrite Hrun. cbn [bind]. exists n, INT, s'. split; [reflexivity|].
    split; [exact R|]. split; [now apply Forall_cursor_integer|].
    intros H. apply Hadv. rewrite <- digitVal_decimal in H. now apply Z.ltb_lt.
Qed.

Lemma scanNumber_fraction_ok (fuel : nat) (off : Z) (token : Token)
    (s : Scanner) :
  WF s -> (len s - offset s <= fuel)%nat ->
  exists new token' s',
    scanNumber_fraction fuel off token s = Ok (token', s') /\
    reach s new s' /\
    (char s <> ch "." -> token' = token /\ s' = s /\ new = []) /\
    (char s = ch "." ->
     (offset s < offset s')%nat /\
     exists n0 d,
       run (fun s => digitVal (char s) <? 10) (next s) d /\
       Forall cursor_msg n0 /\
       (isDecimal (char (next s)) = true ->
        token' = FLOAT /\ s' = d /\ new = n0) /\
       (isDecimal (char (next s)) = false ->
        token' = ILLEGAL /\ d = next s /\
        s' = error off float_msg (next s) /\ new = n0 ++ [float_msg])).
Proof.
  intros Hwf Hfuel. unfold scanNumber_fraction.
  destruct (char s =? ch ".") eqn:Edot.
  - apply Z.eqb_eq in Edot.
    assert (Hc : 0 <= char s < 0x80) by (rewrite Edot; ch_eval; lia).
    destruct (WF_ascii s Hwf Hc) as (Hro & _ & _).
    pose proof (next_offset s Hwf) as Hno.
    destruct (next_reach s Hwf) as (n1 & R1 & F1 & _).
    pose proof (reach_WF _ _ _ R1) as W1.
    destruct (scanDigits_ok 10 fuel (next s) ltac:(lia) W1)
      as (n2 & d & Hrun & R2 & F2 & Hr & Hadv).
    { rewrite (reach_len _ _ _ R1). pose proof (reach_offset _ _ _ R1). lia. }
    cbv zeta. rewrite Hrun. cbn [bind].
    pose proof (reach_trans _ _ _ _ _ R1 R2) as R12.
    assert (F12 : Forall cursor_msg (n1 ++ n2)) by (apply Forall_app; now split).
    destruct (isDecimal (char (next s))) eqn:Edec.
    + assert (Hlt : (offset (next s) < offset d)%nat).
      { apply Hadv. apply Z.ltb_lt. now rewrite digitVal_decimal. }
      replace (Z.of_nat (offset s) =? Z.of_nat (offset d) - 1) with false
        by (symmetry; apply Z.eqb_neq; lia).
      exists (n1 ++ n2), FLOAT, d. split; [reflexivity|]. split; [exact R12|].
      split; [intros H; congruence|]. intros _. split; [lia|].
      exists (n1 ++ n2), d. split; [exact Hr|]. split; [exact F12|].
      split; [auto|discriminate].
    + assert (Hd : d = next s).
      { eapply run_false; [exact Hr|]. cbv beta. now rewrite digitVal_decimal. }
      subst d.
      replace (Z.of_nat (offset s) =? Z.of_nat (offset (next s)) - 1) with true
        by (symmetry; apply Z.eqb_eq; lia).
      set (e := error off (Text "float has no digits after .") (next s)).
      assert (Re : reach (next s) [float_msg] e) by (now apply reach_error).
      exists ((n1 ++ n2) ++ [float_msg]), ILLEGAL, e. split; [reflexivity|].
      split; [eapply reach_trans; eauto|].
      split; [intros H; congruence|]. intros _.
      split; [pose proof (reach_offset _ _ _ Re); lia|].
      exists (n1 ++ n2), (next s). split; [exact Hr|]. split; [exact F12|].
      split; [discriminate|auto].
  - apply Z.eqb_neq in Edot.
    exists [], token, s. split; [reflexivity|]. split; [now apply reach_refl|].
    split; [auto|]. intros H. contradiction.
Qed.

Lemma scanNumber_ok (fuel : nat) (s : Scanner) :
  WF s -> (len s - offset s <= fuel)%nat ->
  exists new token s',
    scanNumber fuel s = Ok (token, span s (offset s) (offset s'), s') /\
    reach s new s' /\
    (isDecimal (char s) = true \/ char s = ch "." ->
     (offset s < offset s')%nat).
Proof.
  intros Hwf Hfuel. unfold scanNumber.
  destruct (scanNumber_integer_ok fuel s Hwf Hfuel)
    as (n1 & t1 & s1 & H1 & R1 & _ & Hadv1).
  rewrite H1. cbn [bind].
  pose proof (reach_WF _ _ _ R1) as W1.
  destruct (scanNumber_fraction_ok fuel (Z.of_nat (offset s)) t1 s1 W1)
    as (n2 & t2 & s2 & H2 & R2 & Hnd & Hd).
  { rewrite (reach_len _ _ _ R1). pose proof (reach_offset _ _ _ R1). lia. }
  rewrite H2. cbn [bind].
  pose proof (reach_trans _ _ _ _ _ R1 R2) as R.
  rewrite text_span.
  - cbn [bind]. rewrite (span_src s s2) by (eapply reach_src; eauto).
    exists (n1 ++ n2), t2, s2. split; [reflexivity|]. split; [exact R|].
    intros [H|H].
    + pose proof (Hadv1 H). pose proof (reach_offset _ _ _ R2). lia.
    + assert (E : s1 = s).
      { revert H1. unfold scanNumber_integer.
        apply Z.eqb_eq in H. rewrite H. cbn. congruence. }
      subst s1. destruct (Hd H) as (Hlt & _). exact Hlt.
  - pose proof (reach_offset _ _ _ R). pose proof (WF_offset_le _ (reach_WF _ _ _ R)). lia.
Qed.

Lemma wrap32_digitVal (c : rune) : wrap32 (digitVal c) = digitVal c.
Proof.
  unfold wrap32. pose proof (digitVal_range c).
  apply Z.mod_small. change (2 ^ 32) with 4294967296. lia.
Qed.

Lemma advance_reach (n : nat) :
  forall s, WF s -> exists new, reach s new (advance n s) /\ Forall cursor_msg new.
Proof.
  induction n as [|k IH]; intros s Hwf; simpl.
  - exists []. split; [now apply reach_refl|constructor].
  - destruct (next_reach s Hwf) as (n1 & R1 & F1 & _).
    destruct (IH (next s) (reach_WF _ _ _ R1)) as (n2 & R2 & F2).
    exists (n1 ++ n2). split; [eapply reach_trans; eauto|now apply Forall_app].
Qed.

Lemma advance_emits (n : nat) :
  forall s, exists new, emits s new (advance n s) /\ Forall cursor_msg new.
Proof.
  induction n as [|k IH]; intros s; simpl.
  - exists []. split; [apply emits_refl|constructor].
  - destruct (next_emits s) as (n1 & R1 & F1 & _).
    destruct (IH (next s)) as (n2 & R2 & F2).
    exists (n1 ++ n2). split; [eapply emits_trans; eauto|now apply Forall_app].
Qed.

Lemma escapeDigits_good (n : nat) (base : Z) :
  forall x s,
    digitsAhead n base s = true ->
    escapeDigits n base x s = (Some (digitsValue n base x s), advance n s).
Proof.
  induction n as [|k IH]; intros x s H; simpl in *; [reflexivity|].
  apply andb_true_iff in H. destruct H as [Hd Hk].
  rewrite wrap32_digitVal. apply Z.ltb_lt in Hd.
  replace (base <=? digitVal (char s)) with false
    by (symmetry; apply Z.leb_gt; lia).
  now apply IH.
Qed.

Lemma escapeDigits_bad (n : nat) (base : Z) :
  forall x s,
    digitsAhead n base s = false ->
    exists k,
      (k < n)%nat /\ digitsAhead k base s = true /\
      base <= digitVal (char (advance k s)) /\
      escapeDigits n base x s =
        (None, error (Z.of_nat (offset (advance k s)))
                     (escape_digit_msg (char (advance k s))) (advance k s)).
Proof.
  induction n as [|m IH]; intros x s H; simpl in *; [discriminate|].
  rewrite wrap32_digitVal.
  destruct (digitVal (char s) <? base) eqn:Hd.
  - simpl in H. apply Z.ltb_lt in Hd.
    replace (base <=? digitVal (char s)) with false
      by (symmetry; apply Z.leb_gt; lia).
    destruct (IH (wrap32 (x * base + digitVal (char s))) (next s) H)
      as (k & Hk & Ha & Hb & He).
    exists (S k). simpl. split; [lia|]. split; [|split; [exact Hb|exact He]].
    apply andb_true_iff. split; [now apply Z.ltb_lt|exact Ha].
  - apply Z.ltb_ge in Hd.
    replace (base <=? digitVal (char s)) with true
      by (symmetry; apply Z.leb_le; lia).
    exists 0%nat. simpl. split; [lia|]. split; [reflexivity|]. split; [exact Hd|reflexivity].
Qed.

Lemma escape_digit_msg_escape (c : rune) : escape_msg (escape_digit_msg c).
Proof.
  unfold escape_digit_msg, escape_msg. destruct (c <? 0); eauto 6.
Qed.

Lemma escapeDigits_reach (n : nat) (base x : Z) (s : Scanner) :
  WF s ->
  exists new, reach s new (snd (escapeDigits n base x s)) /\
              Forall escape_msg new.
Proof.
  intros Hwf. destruct (digitsAhead n base s) eqn:E.
  - rewrite (escapeDigits_good n base x s E). simpl.
    destruct (advance_reach n s Hwf) as (new & R & F).
    exists new. split; [exact R|]. eapply Forall_impl; [|exact F]. now left.
  - destruct (escapeDigits_bad n base x s E) as (k & _ & _ & _ & ->). simpl.
    destruct (advance_reach k s Hwf) as (new & R & F).
    exists (new ++ [escape_digit_msg (char (advance k s))]).
    split.
    + eapply reach_trans; [exact R|]. apply reach_error. eapply reach_WF; eauto.
    + apply Forall_app. split.
      * eapply Forall_impl; [|exact F]. now left.
      * constructor; [apply escape_digit_msg_escape|constructor].
Qed.

Lemma scanEscape_reach (quote : rune) (s : Scanner) :
  WF s ->
  exists new, reach s new (snd (scanEscape quote s)) /\ Forall escape_msg new.
Proof.
  intros Hwf. unfold scanEscape.
  destruct (escapeKind quote (char s)) as [|letter n base max|].
  - simpl. destruct (next_reach s Hwf) as (new & R & F & _).
    exists new. split; [exact R|]. eapply Forall_impl; [|exact F]. now left.
  - assert (H1 : exists n1, reach s n1 (if letter then next s else s) /\
                            Forall escape_msg n1).
    { destruct letter.
      - destruct (next_reach s Hwf) as (new & R & F & _).
        exists new. split; [exact R|]. eapply Forall_impl; [|exact F]. now left.
      - exists []. split; [now apply reach_refl|constructor]. }
    destruct H1 as (n1 & R1 & F1).
    destruct (escapeDigits_reach n base 0 _ (reach_WF _ _ _ R1)) as (n2 & R2 & F2).
    destruct (escapeDigits n base 0 (if letter then next s else s)) as [[x|] s2];
      simpl in R2.
    + destruct ((max <? x) || ((55296 <=? x) && (x <? 57344))); simpl.
      * exists ((n1 ++ n2) ++ [invalid_code_point]). split.
        -- eapply reach_trans; [eapply reach_trans; eauto|].
           apply reach_error. eapply reach_WF; eauto.
        -- apply Forall_app. split; [now apply Forall_app|].
           constructor; [|constructor]. right; right; right; left; reflexivity.
      * exists (n1 ++ n2). split; [eapply reach_trans; eauto|now apply Forall_app].
    + simpl. exists (n1 ++ n2).
      split; [eapply reach_trans; eauto|now apply Forall_app].
  - simpl. eexists. split; [now apply reach_error|].
    constructor; [|constructor]. destruct (char s <? 0); right; [left|right; left]; reflexivity.
Qed.

Lemma not_eof_nonneg (s : Scanner) :
  WF s -> (char s <? 0) = false -> 0 <= char s.
Proof. intros Hwf H. apply Z.ltb_ge in H. exact H. Qed.

Lemma scanString_loop_ok (fuel : nat) (off : Z) :
  forall s : Scanner,
    WF s -> (len s - offset s <= fuel)%nat ->
    exists new s', scanString_loop fuel off s = Ok s' /\ reach s new s'.
Proof.
  induction fuel as [|f IH]; intros s Hwf Hfuel; simpl.
  - destruct ((char s =? 10) || (char s <? 0)) eqn:E.
    + eexists _, _. split; [reflexivity|]. now apply reach_error.
    + bool_hyps. pose proof (WF_nonneg_lt s Hwf ltac:(lia)). lia.
  - destruct ((char s =? 10) || (char s <? 0)) eqn:E.
    + eexists _, _. split; [reflexivity|]. now apply reach_error.
    + bool_hyps.
      pose proof (next_advances s Hwf ltac:(lia)) as Hadv.
      destruct (next_reach s Hwf) as (n1 & R1 & _).
      pose proof (reach_WF _ _ _ R1) as W1.
      pose proof (reach_len _ _ _ R1) as L1.
      destruct (char s =? dquote).
      * exists n1, (next s). split; [reflexivity|exact R1].
      * destruct (char s =? ch "\").
        -- destruct (scanEscape_reach dquote (next s) W1) as (n2 & R2 & _).
           destruct (IH (snd (scanEscape dquote (next s))) (reach_WF _ _ _ R2))
             as (n3 & s' & Hrun & R3).
           { rewrite (reach_len _ _ _ R2), L1.
             pose proof (reach_offset _ _ _ R2). lia. }
           exists ((n1 ++ n2) ++ n3), s'. split; [exact Hrun|].
           eapply reach_trans; [eapply reach_trans; eauto|exact R3].
        -- destruct (IH (next s) W1) as (n3 & s' & Hrun & R3); [lia|].
           exists (n1 ++ n3), s'. split; [exact Hrun|].
           eapply reach_trans; eauto.
Qed.

Lemma scanString_ok (fuel : nat) (s : Scanner) :
  WF s -> (len s - offset s <= fuel)%nat -> (1 <= offset s)%nat ->
  exists new s',
    scanString fuel s = Ok (span s (offset s - 1) (offset s'), s') /\
    reach s new s'.
Proof.
  intros Hwf Hfuel Ho. unfold scanString.
  destruct (scanString_loop_ok fuel (Z.of_nat (offset s) - 1) s Hwf Hfuel)
    as (new & s' & Hrun & R).
  rewrite Hrun. cbn [bind]. rewrite text_span_pred.
  - cbn [bind]. rewrite (span_src s s') by (eapply reach_src; eauto).
    exists new, s'. split; [reflexivity|exact R].
  - pose proof (reach_offset _ _ _ R). lia.
  - apply WF_offset_le. eapply reach_WF; eauto.
Qed.

Lemma scanRawString_loop_ok (fuel : nat) (off : Z) :
  forall s : Scanner,
    WF s -> (len s - offset s <= fuel)%nat ->
    exists new s', scanRawString_loop fuel off s = Ok s' /\ reach s new s'.
Proof.
  induction fuel as [|f IH]; intros s Hwf Hfuel; simpl.
  - destruct (char s <? 0) eqn:E.
    + eexists _, _. split; [reflexivity|]. now apply reach_error.
    + bool_hyps. pose proof (WF_nonneg_lt s Hwf ltac:(lia)). lia.
  - destruct (char s <? 0) eqn:E.
    + eexists _, _. split; [reflexivity|]. now apply reach_error.
    + bool_hyps.
      pose proof (next_advances s Hwf ltac:(lia)) as Hadv.
      destruct (next_reach s Hwf) as (n1 & R1 & _).
      pose proof (reach_WF _ _ _ R1) as W1.
      pose proof (reach_len _ _ _ R1) as L1.
      destruct (char s =? ch "`").
      * exists n1, (next s). split; [reflexivity|exact R1].
      * destruct (IH (next s) W1) as (n3 & s' & Hrun & R3); [lia|].
        exists (n1 ++ n3), s'. split; [exact Hrun|].
        eapply reach_trans; eauto.
Qed.

Lemma scanRawString_ok (fuel : nat) (s : Scanner) :
  WF s -> (len s - offset s <= fuel)%nat -> (1 <= offset s)%nat ->
  exists new s',
    scanRawString fuel s = Ok (span s (offset s - 1) (offset s'), s') /\
    reach s new s'.
Proof.
  intros Hwf Hfuel Ho. unfold scanRawString.
  destruct (scanRawString_loop_ok fuel (Z.of_nat (offset s) - 1) s Hwf Hfuel)
    as (new & s' & Hrun & R).
  rewrite Hrun. cbn [bind]. rewrite text_span_pred.
  - cbn [bind]. rewrite (span_src s s') by (eapply reach_src; eauto).
    exists new, s'. split; [reflexivity|exact R].
  - pose proof (reach_offset _ _ _ R). lia.
  - apply WF_offset_le. eapply reach_WF; eauto.
Qed.

Lemma scanChar_loop_ok (fuel : nat) (off : Z) :
  forall (valid : bool) (n : Z) (s : Scanner),
    WF s -> (len s - offset s <= fuel)%nat ->
    exists new valid' n' s',
      scanChar_loop fuel off valid n s = Ok (valid', n', s') /\
      reach s new s'.
Proof.
  induction fuel as [|f IH]; intros valid n s Hwf Hfuel; simpl.
  - destruct ((char s =? 10) || (char s <? 0)) eqn:E.
    + destruct valid; eexists _, _, _, _; (split; [reflexivity|]);
        [now apply reach_error|now apply reach_refl].
    + bool_hyps. pose proof (WF_nonneg_lt s Hwf ltac:(lia)). lia.
  - destruct ((char s =? 10) || (char s <? 0)) eqn:E.
    + destruct valid; eexists _, _, _, _; (split; [reflexivity|]);
        [now apply reach_error|now apply reach_refl].
    + bool_hyps.
      pose proof (next_advances s Hwf ltac:(lia)) as Hadv.
      destruct (next_reach s Hwf) as (n1 & R1 & _).
      pose proof (reach_WF _ _ _ R1) as W1.
      pose proof (reach_len _ _ _ R1) as L1.
      destruct (char s =? squote).
      * exists n1, valid, n, (next s). split; [reflexivity|exact R1].
      * destruct (char s =? ch "\").
        -- match goal with |- context [if ?c then _ else _] => destruct c end.
           ++ destruct (next_reach (next s) W1) as (n2 & R2 & _).
              destruct (IH valid (n + 1) (next (next s)) (reach_WF _ _ _ R2))
                as (n3 & v' & m' & s' & Hrun & R3).
              { rewrite (reach_len _ _ _ R2), L1.
                pose proof (reach_offset _ _ _ R2). lia. }
              exists ((n1 ++ n2) ++ n3), v', m', s'. split; [exact Hrun|].
              eapply reach_trans; [eapply reach_trans; eauto|exact R3].
           ++ set (e := error off (Text "illegal char literal") (next s)).
              assert (R2 : reach (next s) [Text "illegal char literal"] e)
                by (now apply reach_error).
              destruct (IH false (n + 1) e (reach_WF _ _ _ R2))
                as (n3 & v' & m' & s' & Hrun & R3).
              { rewrite (reach_len _ _ _ R2), L1.
                pose proof (reach_offset _ _ _ R2). lia. }
              exists ((n1 ++ [Text "illegal char literal"]) ++ n3), v', m', s'.
              split; [exact Hrun|].
              eapply reach_trans; [eapply reach_trans; eauto|exact R3].
        -- destruct (IH valid (n + 1) (next s) W1) as (n3 & v' & m' & s' & Hrun & R3); [lia|].
           exists (n1 ++ n3), v', m', s'. split; [exact Hrun|].
           eapply reach_trans; eauto.
Qed.

Lemma scanChar_ok (fuel : nat) (s : Scanner) :
  WF s -> (len s - offset s <= fuel)%nat -> (1 <= offset s)%nat ->
  exists new s',
    scanChar fuel s = Ok (span s (offset s - 1) (offset s'), s') /\
    reach s new s'.
Proof.
  intros Hwf Hfuel Ho. unfold scanChar.
  destruct (scanChar_loop_ok fuel (Z.of_nat (offset s) - 1) true 0 s Hwf Hfuel)
    as (new & v & n & s1 & Hrun & R).
  rewrite Hrun. cbn [bind].
  set (s2 := if v && negb (n =? 1) then error _ _ s1 else s1).
  assert (R2 : exists n2, reach s1 n2 s2).
  { unfold s2. destruct (v && negb (n =? 1)).
    - eexists. apply reach_error. eapply reach_WF; eauto.
    - exists []. apply reach_refl. eapply reach_WF; eauto. }
  destruct R2 as (n2 & R2).
  pose proof (reach_trans _ _ _ _ _ R R2) as R'.
  rewrite text_span_pred.
  - cbn [bind]. rewrite (span_src s s2) by (eapply reach_src; eauto).
    exists (new ++ n2), s2. split; [reflexivity|exact R'].
  - pose proof (reach_offset _ _ _ R'). lia.
  - apply WF_offset_le. eapply reach_WF; eauto.
Qed.

(** *** More fuel does not change a result *)

Lemma bind_Ok {A B : Type} (m : Res A) (k : A -> Res B) (b : B) :
  bind m k = Ok b -> exists a, m = Ok a /\ k a = Ok b.
Proof. destruct m; simpl; intros H; try discriminate. eauto. Qed.

Lemma advance_while_mono (cond : Scanner -> bool) (f : nat) :
  forall s r, advance_while cond f s = Ok r ->
              advance_while cond (S f) s = Ok r.
Proof.
  induction f as [|f IH]; intros s r H.
  - simpl in *. destruct (cond s); [discriminate|exact H].
  - simpl in H. change (advance_while cond (S (S f)) s)
      with (if cond s then advance_while cond (S f) (next s) else Ok s).
    destruct (cond s); [now apply IH|exact H].
Qed.

Lemma blockComment_mono (f : nat) :
  forall s r, blockComment f s = Ok r -> blockComment (S f) s = Ok r.
Proof.
  induction f as [|f IH]; intros s r H.
  - simpl in *. destruct (0 <=? char s); [discriminate|exact H].
  - simpl in H.
    change (blockComment (S (S f)) s)
      with (if 0 <=? char s then
              if (char s =? ch "*") && (char (next s) =? ch "/")
              then Ok (true, next (next s))
              else blockComment (S f) (next s)
            else Ok (false, s)).
    destruct (0 <=? char s); [|exact H].
    destruct ((char s =? ch "*") && (char (next s) =? ch "/")); [exact H|now apply IH].
Qed.

Lemma scanString_loop_mono (f : nat) (off : Z) :
  forall s r, scanString_loop f off s = Ok r ->
              scanString_loop (S f) off s = Ok r.
Proof.
  induction f as [|f IH]; intros s r H.
  - simpl in *. destruct ((char s =? 10) || (char s <? 0)); [exact H|discriminate].
  - simpl in H.
    change (scanString_loop (S (S f)) off s)
      with (if (char s =? 10) || (char s <? 0)
            then Ok (error off (Text "string literal not terminated") s)
            else if char s =? dquote then Ok (next s)
                 else if char s =? ch "\"
                      then scanString_loop (S f) off (snd (scanEscape dquote (next s)))
                      else scanString_loop (S f) off (next s)).
    destruct ((char s =? 10) || (char s <? 0)); [exact H|].
    destruct (char s =? dquote); [exact H|].
    destruct (char s =? ch "\"); now apply IH.
Qed.

Lemma scanRawString_loop_mono (f : nat) (off : Z) :
  forall s r, scanRawString_loop f off s = Ok r ->
              scanRawString_loop (S f) off s = Ok r.
Proof.
  induction f as [|f IH]; intros s r H.
  - simpl in *. destruct (char s <? 0); [exact H|discriminate].
  - simpl in H.
    change (scanRawString_loop (S (S f)) off s)
      with (if char s <? 0
            then Ok (error off (Text "raw string literal not terminated") s)
            else if char s =? ch "`" then Ok (next s)
                 else scanRawString_loop (S f) off (next s)).
    destruct (char s <? 0); [exact H|].
    destruct (char s =? ch "`"); [exact H|now apply IH].
Qed.

Lemma scanChar_loop_S (f : nat) (off : Z) (valid : bool) (n : Z)
    (s : Scanner) :
  scanChar_loop (S f) off valid n s =
  if (char s =? 10) || (char s <? 0)
  then Ok (if valid
           then (false, n, error off (Text "rune literal not terminated") s)
           else (valid, n, s))
  else if char s =? squote then Ok (valid, n, next s)
       else if char s =? ch "\"
            then if existsb (Z.eqb (char (next s)))
                      [ch "a"; ch "b"; ch "f"; ch "n"; ch "r"; ch "t";
                       ch "v"; ch "\"; squote]
                 then scanChar_loop f off valid (n + 1) (next (next s))
                 else scanChar_loop f off false (n + 1)
                        (error off (Text "illegal char literal") (next s))
            else scanChar_loop f off valid (n + 1) (next s).
Proof. reflexivity. Qed.

Lemma scanChar_loop_mono (f : nat) (off : Z) :
  forall valid n s r, scanChar_loop f off valid n s = Ok r ->
                      scanChar_loop (S f) off valid n s = Ok r.
Proof.
  induction f as [|f IH]; intros valid n s r H.
  - simpl in *. destruct ((char s =? 10) || (char s <? 0)); [exact H|discriminate].
  - rewrite scanChar_loop_S in H. rewrite scanChar_loop_S.
    destruct ((char s =? 10) || (char s <? 0)); [auto|].
    destruct (char s =? squote); [auto|].
    destruct (char s =? ch "\"); [|now apply IH].
    destruct (existsb _ _); now apply IH.
Qed.

Ltac mono_bind lem :=
  match goal with
  | H : bind _ _ = Ok _ |- _ =>
      let a := fresh "a" in
      let E := fresh "E" in
      apply bind_Ok in H; destruct H as (a & E & H);
      apply lem in E; rewrite E; cbn [bind]
  end.

Lemma scanIdentifier_mono (f : nat) (s : Scanner) r :
  scanIdentifier f s = Ok r -> scanIdentifier (S f) s = Ok r.
Proof.
  unfold scanIdentifier. intros H. mono_bind advance_while_mono. exact H.
Qed.

Lemma scanComment_mono (f : nat) (s : Scanner) r :
  scanComment f s = Ok r -> scanComment (S f) s = Ok r.
Proof.
  unfold scanComment. intros H. destruct (char s =? ch "/").
  - mono_bind advance_while_mono. exact H.
  - apply bind_Ok in H. destruct H as (a & E & H).
    apply bind_Ok in E. destruct E as ([t s1] & E & E').
    apply blockComment_mono in E. rewrite E. cbn [bind].
    cbv beta iota in E'. injection E' as <-. exact H.
Qed.

Lemma scanDigits_mono (base : Z) (f : nat) (s : Scanner) r :
  scanDigits base f s = Ok r -> scanDigits base (S f) s = Ok r.
Proof. apply advance_while_mono. Qed.

Lemma scanNumber_mono (f : nat) (s : Scanner) r :
  scanNumber f s = Ok r -> scanNumber (S f) s = Ok r.
Proof.
  unfold scanNumber. intros H.
  apply bind_Ok in H. destruct H as ([t1 s1] & E1 & H).
  apply bind_Ok in H. destruct H as ([t2 s2] & E2 & H).
  assert (E1' : scanNumber_integer (S f) (Z.of_nat (offset s)) s = Ok (t1, s1)).
  { revert E1. unfold scanNumber_integer.
    destruct (negb (char s =? ch ".")); [|auto].
    destruct (char s =? ch "0").
    - cbv zeta. destruct (negb (char (next s) =? ch ".")); [|auto].
      destruct (_ || _); [|auto].
      intros H1. mono_bind scanDigits_mono. exact H1.
    - intros H1. mono_bind scanDigits_mono. exact H1. }
  assert (E2' : scanNumber_fraction (S f) (Z.of_nat (offset s)) t1 s1 = Ok (t2, s2)).
  { revert E2. unfold scanNumber_fraction.
    destruct (char s1 =? ch "."); [|auto].
    cbv zeta. intros H1. mono_bind scanDigits_mono. exact H1. }
  rewrite E1'. cbn [bind]. rewrite E2'. cbn [bind]. exact H.
Qed.

Lemma scanString_mono (f : nat) (s : Scanner) r :
  scanString f s = Ok r -> scanString (S f) s = Ok r.
Proof.
  unfold scanString. intros H. mono_bind scanString_loop_mono. exact H.
Qed.

Lemma scanRawString_mono (f : nat) (s : Scanner) r :
  scanRawString f s = Ok r -> scanRawString (S f) s = Ok r.
Proof.
  unfold scanRawString. intros H. mono_bind scanRawString_loop_mono. exact H.
Qed.

Lemma scanChar_mono (f : nat) (s : Scanner) r :
  scanChar f s = Ok r -> scanChar (S f) s = Ok r.
Proof.
  unfold scanChar. intros H.
  apply bind_Ok in H. destruct H as ([[v n] s1] & E & H).
  apply scanChar_loop_mono in E. rewrite E. cbn [bind]. exact H.
Qed.

Lemma Scan_body_mono (kw : list string) (f : nat) (s : Scanner) r :
  Scan_body kw f s = Ok r -> Scan_body kw (S f) s = Ok r.
Proof.
  unfold Scan_body. intros H. mono_bind advance_while_mono.
  revert H. 
  repeat match goal with
         | |- context [if ?c then _ else _] => destruct c
         end; cbv zeta;
    repeat match goal with
         | |- context [if ?c then _ else _] => destruct c
         end; intros H; auto.
  - mono_bind scanIdentifier_mono; exact H.
  - mono_bind scanNumber_mono; exact H.
  - mono_bind scanString_mono; exact H.
  - mono_bind scanRawString_mono; exact H.
  - mono_bind scanChar_mono; exact H.
  - mono_bind scanComment_mono; exact H.
  - mono_bind scanIdentifier_mono; exact H.
Qed.

Lemma Scan_rec_mono (kw : list string) (f : nat) :
  forall s r, Scan_rec kw f s = Ok r -> Scan_rec kw (S f) s = Ok r.
Proof.
  induction f as [|f IH]; intros s r H.
  - simpl in H. apply bind_Ok in H. destruct H as ([o s1] & E & H).
    apply Scan_body_mono in E.
    change (Scan_rec kw 1 s) with
      (bind (Scan_body kw 1 s) (fun x => let '(o, s') := x in
         match o with
         | Return token literal => Ok (token, literal, s')
         | Rescan => Scan_rec kw 0 s'
         end)).
    rewrite E. cbn [bind]. destruct o; [exact H|discriminate].
  - change (Scan_rec kw (S f) s) with
      (bind (Scan_body kw (S f) s) (fun x => let '(o, s') := x in
         match o with
         | Return token literal => Ok (token, literal, s')
         | Rescan => Scan_rec kw f s'
         end)) in H.
    apply bind_Ok in H. destruct H as ([o s1] & E & H).
    apply Scan_body_mono in E.
    change (Scan_rec kw (S (S f)) s) with
      (bind (Scan_body kw (S (S f)) s) (fun x => let '(o, s') := x in
         match o with
         | Return token literal => Ok (token, literal, s')
         | Rescan => Scan_rec kw (S f) s'
         end)).
    rewrite E. cbn [bind]. destruct o; [exact H|now apply IH].
Qed.

Lemma Scan_rec_mono_le (kw : list string) (f f' : nat) (s : Scanner) r :
  (f <= f')%nat -> Scan_rec kw f s = Ok r -> Scan_rec kw f' s = Ok r.
Proof.
  intros Hle H. induction Hle; [exact H|now apply Scan_rec_mono].
Qed.

Lemma advance_while_false (cond : Scanner -> bool) (fuel : nat) (s : Scanner) :
  cond s = false -> advance_while cond fuel s = Ok s.
Proof. intros H. destruct fuel; simpl; now rewrite H. Qed.

Lemma next_ascii (s : Scanner) :
  WF s -> 0 <= char s < 0x80 ->
  offset (next s) = (offset s + 1)%nat /\ src (next s) = src s /\
  WF (next s) /\ len (next s) = len s.
Proof.
  intros Hwf Hc. destruct (WF_ascii s Hwf Hc) as (Hro & _ & _).
  destruct (next_reach s Hwf) as (n & R & _).
  rewrite (next_offset s Hwf). split; [exact Hro|].
  split; [eapply reach_src; eauto|]. split; [eapply reach_WF; eauto|].
  eapply reach_len; eauto.
Qed.

Lemma scanNumber_token (fuel : nat) (s : Scanner) token literal s' :
  scanNumber fuel s = Ok (token, literal, s') ->
  token = INT \/ token = FLOAT \/ token = ILLEGAL.
Proof.
  unfold scanNumber. intros H.
  apply bind_Ok in H. destruct H as ([t1 s1] & E1 & H).
  apply bind_Ok in H. destruct H as ([t2 s2] & E2 & H).
  apply bind_Ok in H. destruct H as (lit & _ & H). injection H as <- _ _.
  assert (H1 : t1 = INT \/ t1 = ILLEGAL).
  { revert E1. unfold scanNumber_integer.
    repeat match goal with
           | |- context [if ?c then _ else _] => destruct c
           end; cbv zeta;
      repeat match goal with
             | |- context [if ?c then _ else _] => destruct c
             end; intros H;
      try (apply bind_Ok in H; destruct H as (a & _ & H); revert H;
           repeat match goal with
                  | |- context [if ?c then _ else _] => destruct c
                  end; intros H);
      injection H as <- _; auto. }
  revert E2. unfold scanNumber_fraction.
  destruct (char s1 =? ch ".").
  - cbv zeta. intros H. apply bind_Ok in H. destruct H as (a & _ & H).
    revert H. destruct (_ =? _); intros H; injection H as <- _; auto.
  - intros H. injection H as <- _. destruct H1; auto.
Qed.

(** One activation of [Scan] that starts at a token, not at white space. *)
Lemma Scan_body_at (kw : list string) (fuel : nat) (s : Scanner) :
  WF s -> (len s - offset s <= fuel)%nat -> isSpace (char s) = false ->
  exists new o s',
    Scan_body kw fuel s = Ok (o, s') /\ reach s new s' /\
    (char s <> eof -> (offset s < offset s')%nat) /\
    (char s = eof -> o = Return EOF EmptyString /\ s' = s) /\
    (o = Rescan -> commentStart s = true /\ scanComments s = false) /\
    (forall token literal,
        o = Return token literal ->
        literal = expected_literal s s' /\
        (token = COMMENT -> scanComments s = true) /\
        (token = EOF -> char s = eof)).
Proof.
  intros Hwf Hfuel Hsp. unfold Scan_body.
  rewrite advance_while_false by exact Hsp. cbn [bind].
  unfold expected_literal, classify, numberStart. cbv zeta.
  destruct (isLetter (char s)) eqn:EL.
  { (* identifier *)
    destruct (scanIdentifier_ok fuel s Hwf Hfuel) as (new & s' & H & R & _ & _ & Hadv).
    rewrite H. cbn [bind]. eexists new, _, s'. split; [reflexivity|].
    split; [exact R|]. split; [auto|].
    apply isLetter_nonneg in EL as Hc.
    split; [intros E; rewrite E in Hc; unfold eof in Hc; lia|].
    split; [discriminate|]. intros token literal E. injection E as <- <-.
    cbn [orb]. split; [reflexivity|].
    unfold Lookup. split; destruct (existsb _ _); discriminate. }
  cbn [orb].
  destruct (isDecimal (char s) || (char s =? ch ".") && isDecimal (peek s)) eqn:EN.
  { (* number *)
    destruct (scanNumber_ok fuel s Hwf Hfuel) as (new & token & s' & H & R & Hadv).
    rewrite H. cbn [bind]. eexists new, _, s'. split; [reflexivity|].
    split; [exact R|].
    assert (Hc : isDecimal (char s) = true \/ char s = ch ".").
    { apply orb_true_iff in EN. destruct EN as [E|E]; [now left|right].
      apply andb_true_iff in E. destruct E as [E _]. now apply Z.eqb_eq in E. }
    split; [auto|].
    split.
    { intros E. exfalso. destruct Hc as [Hc|Hc].
      - apply isDecimal_nonneg in Hc. rewrite E in Hc. unfold eof in Hc. lia.
      - rewrite E in Hc. revert Hc. ch_eval. unfold eof. lia. }
    split; [discriminate|]. intros tk lit E. injection E as <- <-.
    cbn [orb]. split; [reflexivity|].
    destruct (scanNumber_token _ _ _ _ _ H) as [ -> | [ -> | -> ] ]; split; discriminate. }
  assert (Hnext : 0 <= char s < 0x80 ->
                  offset (next s) = (offset s + 1)%nat /\ src (next s) = src s /\
                  WF (next s) /\ (len (next s) - offset (next s) <= fuel)%nat /\
                  (1 <= offset (next s))%nat /\
                  exists n1, reach s n1 (next s)).
  { intros Hc. destruct (next_ascii s Hwf Hc) as (Ho & Hs & Hw & Hl).
    destruct (next_reach s Hwf) as (n1 & R1 & _).
    split; [exact Ho|]. split; [exact Hs|]. split; [exact Hw|].
    split; [lia|]. split; [lia|]. now exists n1. }
  cbv zeta.
  destruct (char s =? eof) eqn:Eeof.
  { apply Z.eqb_eq in Eeof. rewrite (next_eof s Hwf Eeof).
    exists [], (Return EOF EmptyString), s. split; [reflexivity|].
    split; [now apply reach_refl|]. split; [congruence|]. split; [auto|].
    split; [discriminate|]. intros tk lit E. injection E as <- <-.
    unfold commentStart. rewrite Eeof. cbn. split; [reflexivity|].
    split; [discriminate|reflexivity]. }
  apply Z.eqb_neq in Eeof.
  assert (Hc0 : 0 <= char s) by (destruct (WF_char s Hwf); [contradiction|assumption]).
  unfold commentStart.
  destruct (char s =? dquote) eqn:Eq.
  { apply Z.eqb_eq in Eq.
    destruct Hnext as (Ho & Hs & Hw & Hl & H1 & n1 & R1); [rewrite Eq; unfold dquote; lia|].
    destruct (scanString_ok fuel (next s) Hw Hl H1) as (n2 & s' & H & R2).
    rewrite H. cbn [bind]. exists (n1 ++ n2), (Return STRING (span (next s) (offset (next s) - 1) (offset s'))), s'.
    split; [reflexivity|]. split; [eapply reach_trans; eauto|].
    split; [intros _; pose proof (reach_offset _ _ _ R2); lia|].
    split; [congruence|]. split; [discriminate|].
    intros tk lit E. injection E as <- <-. cbn [orb].
    rewrite (span_src s (next s)) by exact Hs. rewrite Ho.
    replace (offset s + 1 - 1)%nat with (offset s) by lia.
    split; [reflexivity|]. split; discriminate. }
  rewrite ?orb_false_r. cbn [orb].
  destruct (char s =? ch "`") eqn:Eb.
  { apply Z.eqb_eq in Eb.
    destruct Hnext as (Ho & Hs & Hw & Hl & H1 & n1 & R1); [rewrite Eb; ch_eval; lia|].
    destruct (scanRawString_ok fuel (next s) Hw Hl H1) as (n2 & s' & H & R2).
    rewrite H. cbn [bind]. exists (n1 ++ n2), (Return STRING (span (next s) (offset (next s) - 1) (offset s'))), s'.
    split; [reflexivity|]. split; [eapply reach_trans; eauto|].
    split; [intros _; pose proof (reach_offset _ _ _ R2); lia|].
    split; [congruence|]. split; [discriminate|].
    intros tk lit E. injection E as <- <-. cbn [orb].
    rewrite (span_src s (next s)) by exact Hs. rewrite Ho.
    replace (offset s + 1 - 1)%nat with (offset s) by lia.
    split; [reflexivity|]. split; discriminate. }
  cbn [orb].
  destruct (char s =? squote) eqn:Esq.
  { apply Z.eqb_eq in Esq.
    destruct Hnext as (Ho & Hs & Hw & Hl & H1 & n1 & R1); [rewrite Esq; unfold squote; ch_eval; lia|].
    destruct (scanChar_ok fuel (next s) Hw Hl H1) as (n2 & s' & H & R2).
    rewrite H. cbn [bind]. exists (n1 ++ n2), (Return CHAR (span (next s) (offset (next s) - 1) (offset s'))), s'.
    split; [reflexivity|]. split; [eapply reach_trans; eauto|].
    split; [intros _; pose proof (reach_offset _ _ _ R2); lia|].
    split; [congruence|]. split; [discriminate|].
    intros tk lit E. injection E as <- <-. cbn [orb].
    rewrite (span_src s (next s)) by exact Hs. rewrite Ho.
    replace (offset s + 1 - 1)%nat with (offset s) by lia.
    split; [reflexivity|]. split; discriminate. }
  cbn [orb].
  pose proof (next_advances s Hwf Hc0) as Hadv.
  destruct (next_reach s Hwf) as (n1 & R1 & _).
  pose proof (reach_WF _ _ _ R1) as W1.
  destruct (char s =? ch ".") eqn:Edot.
  { apply Z.eqb_eq in Edot.
    exists n1, (Return ILLEGAL EmptyString), (next s). split; [reflexivity|].
    split; [exact R1|]. split; [auto|]. split; [congruence|].
    split; [discriminate|]. intros tk lit E. injection E as <- <-.
    rewrite Edot. cbn. split; [reflexivity|]. split; discriminate. }
  destruct (char s =? ch "/") eqn:Esl.
  { apply Z.eqb_eq in Esl.
    destruct Hnext as (Ho & Hs & Hw & Hl & H1 & _); [rewrite Esl; ch_eval; lia|].
    cbn [andb].
    destruct ((char (next s) =? ch "/") || (char (next s) =? ch "*")) eqn:Ec.
    - destruct (scanComment_ok fuel (next s) Hw Hl H1) as (n2 & s' & H & R2 & _).
      rewrite H. cbn [bind].
      assert (Hsc : scanComments s' = scanComments s).
      { destruct R1 as (E1 & _). destruct R2 as (E2 & _).
        rewrite (emits_scanComments _ _ _ E2). exact (emits_scanComments _ _ _ E1). }
      rewrite Hsc.
      destruct (scanComments s) eqn:Esc; cbn [negb].
      + exists (n1 ++ n2), (Return COMMENT (span (next s) (offset (next s) - 1) (offset s'))), s'.
        split; [reflexivity|]. split; [eapply reach_trans; eauto|].
        split; [intros _; pose proof (reach_offset _ _ _ R2); lia|].
        split; [congruence|]. split; [discriminate|].
        intros tk lit E. injection E as <- <-.
        rewrite (span_src s (next s)) by exact Hs. rewrite Ho.
        replace (offset s + 1 - 1)%nat with (offset s) by lia.
        split; [reflexivity|]. split; [reflexivity|discriminate].
      + exists (n1 ++ n2), Rescan, s'.
        split; [reflexivity|]. split; [eapply reach_trans; eauto|].
        split; [intros _; pose proof (reach_offset _ _ _ R2); lia|].
        split; [congruence|]. split; [auto|]. discriminate.
    - exists n1, (Return ILLEGAL EmptyString), (next s). split; [reflexivity|].
      split; [exact R1|]. split; [auto|]. split; [congruence|].
      split; [discriminate|]. intros tk lit E. injection E as <- <-.
      rewrite Esl. cbn. split; [reflexivity|]. split; discriminate. }
  cbn [andb].
  destruct (char s =? ch "@") eqn:Eat.
  { apply Z.eqb_eq in Eat.
    destruct Hnext as (Ho & Hs & Hw & Hl & H1 & _); [rewrite Eat; ch_eval; lia|].
    cbn [andb].
    destruct (isLetter (char (next s))) eqn:EL2.
    - destruct (scanIdentifier_ok fuel (next s) Hw Hl) as (n2 & s' & H & R2 & _).
      rewrite H. cbn [bind].
      exists (n1 ++ n2), (Return META (span (next s) (offset (next s)) (offset s'))), s'.
      split; [reflexivity|]. split; [eapply reach_trans; eauto|].
      split; [intros _; pose proof (reach_offset _ _ _ R2); lia|].
      split; [congruence|]. split; [discriminate|].
      intros tk lit E. injection E as <- <-.
      rewrite (span_src s (next s)) by exact Hs. rewrite Ho.
      split; [reflexivity|]. split; discriminate.
    - set (e := error _ (Text "invalid meta name") (next s)).
      assert (Re : reach (next s) [Text "invalid meta name"] e) by (now apply reach_error).
      exists (n1 ++ [Text "invalid meta name"]), (Return ILLEGAL EmptyString), e.
      split; [reflexivity|]. split; [eapply reach_trans; eauto|].
      split; [intros _; pose proof (reach_offset _ _ _ Re); lia|].
      split; [congruence|]. split; [discriminate|].
      intros tk lit E. injection E as <- <-.
      split; [reflexivity|]. split; discriminate. }
  cbn [andb].
  set (e := error _ (Text "invalid token") (next s)).
  assert (Re : reach (next s) [Text "invalid token"] e) by (now apply reach_error).
  destruct (next_reach e (reach_WF _ _ _ Re)) as (n3 & R3 & _).
  exists ((n1 ++ [Text "invalid token"]) ++ n3), (Return ILLEGAL EmptyString), (next e).
  split; [reflexivity|].
  split; [eapply reach_trans; [eapply reach_trans; eauto|exact R3]|].
  split; [intros _; pose proof (reach_offset _ _ _ Re); pose proof (reach_offset _ _ _ R3); lia|].
  split; [congruence|]. split; [discriminate|].
  intros tk lit E. injection E as <- <-.
  split; [reflexivity|]. split; discriminate.
Qed.

Lemma Scan_rec_unfold (kw : list string) (fuel : nat) (s : Scanner) :
  Scan_rec kw fuel s =
  bind (Scan_body kw fuel s)
       (fun x => let '(o, s') := x in
                 match o with
                 | Return token literal => Ok (token, literal, s')
                 | Rescan => match fuel with
                             | O => OutOfFuel
                             | S f => Scan_rec kw f s'
                             end
                 end).
Proof. destruct fuel; reflexivity. Qed.

Lemma Scan_body_skip (kw : list string) (fuel : nat) (s s0 : Scanner) :
  advance_while (fun s => isSpace (char s)) fuel s = Ok s0 ->
  isSpace (char s0) = false ->
  Scan_body kw fuel s = Scan_body kw fuel s0.
Proof.
  intros H H0. unfold Scan_body. rewrite H.
  rewrite (advance_while_false _ fuel s0) by exact H0. reflexivity.
Qed.

Lemma isSpace_eof : isSpace eof = false.
Proof. reflexivity. Qed.

(** One activation of [Scan]: it skips white space up to [s0] and then
    behaves as [Scan_body_at] says. *)
Lemma Scan_once (kw : list string) (fuel : nat) (s : Scanner) :
  WF s -> (len s - offset s <= fuel)%nat ->
  exists n0 s0 n1 o s1,
    reach s n0 s0 /\ isSpace (char s0) = false /\
    Scan_body kw fuel s = Ok (o, s1) /\
    Scan_body kw fuel s0 = Ok (o, s1) /\
    reach s0 n1 s1 /\
    (char s <> eof -> (offset s < offset s1)%nat) /\
    (char s = eof -> s0 = s /\ o = Return EOF EmptyString /\ s1 = s) /\
    (o = Rescan -> scanComments s = false) /\
    (forall token literal,
        o = Return token literal ->
        literal = expected_literal s0 s1 /\
        (token = COMMENT -> scanComments s = true) /\
        (token = EOF -> char s0 = eof)).
Proof.
  intros Hwf Hfuel.
  destruct (advance_while_ok (fun s => isSpace (char s))) with
    (fuel := fuel) (s := s)
    as (n0 & s0 & Hskip & R0 & _ & Hrun & Hadv0); [|exact Hwf|exact Hfuel|].
  { intros s1 H1. apply isSpace_nonneg in H1. lia. }
  pose proof (run_end _ _ _ Hrun) as Hns. cbv beta in Hns.
  pose proof (reach_WF _ _ _ R0) as W0.
  pose proof (reach_len _ _ _ R0) as L0.
  pose proof (reach_offset _ _ _ R0) as O0.
  assert (Hsc0 : scanComments s0 = scanComments s)
    by (destruct R0 as (E0 & _); exact (emits_scanComments _ _ _ E0)).
  destruct (Scan_body_at kw fuel s0 W0 ltac:(lia) Hns)
    as (n1 & o & s1 & Hbody & R1 & Hadv1 & Heof1 & Hre & Hret).
  pose proof (reach_offset _ _ _ R1) as O1.
  assert (Hend : char s = eof -> s0 = s)
    by (intros He; apply (run_false _ _ _ Hrun); cbv beta; now rewrite He).
  exists n0, s0, n1, o, s1. split; [exact R0|]. split; [exact Hns|].
  split; [now rewrite (Scan_body_skip kw _ s s0 Hskip Hns)|].
  split; [exact Hbody|]. split; [exact R1|].
  split.
  { intros Hne. destruct (isSpace (char s)) eqn:Esp.
    - specialize (Hadv0 eq_refl). lia.
    - pose proof (run_false _ _ _ Hrun Esp) as E. subst s0. auto. }
  split.
  { intros He. specialize (Hend He). subst s0.
    destruct (Heof1 He) as [-> ->]. auto. }
  split.
  { intros Ho. rewrite <- Hsc0. now apply Hre. }
  intros token literal Ho. destruct (Hret token literal Ho) as (Hl & Hc & He).
  split; [exact Hl|]. split; [|exact He]. rewrite <- Hsc0. exact Hc.
Qed.

(** [Scan] returns a token from every state of the cursor.  [s0] is the
    state in which the token starts: behind the white space and the
    suppressed comments that precede it. *)
Lemma Scan_rec_ok (kw : list string) (fuel : nat) :
  forall s : Scanner,
    WF s -> (len s - offset s <= fuel)%nat ->
    exists n0 n1 token literal s0 s',
      Scan_rec kw fuel s = Ok (token, literal, s') /\
      reach s n0 s0 /\ reach s0 n1 s' /\
      isSpace (char s0) = false /\
      Scan_rec kw fuel s0 = Ok (token, literal, s') /\
      literal = expected_literal s0 s' /\
      (token = COMMENT -> scanComments s = true) /\
      (token = EOF -> char s0 = eof) /\
      (char s <> eof -> (offset s < offset s')%nat) /\
      (char s = eof -> token = EOF /\ literal = EmptyString /\ s' = s).
Proof.
  induction fuel as [|f IH]; intros s Hwf Hfuel.
  - destruct (Scan_once kw 0 s Hwf Hfuel)
      as (n0 & s0 & n1 & o & s1 & R0 & Hns & Hb & Hb0 & R1 & Hprog & Hend & Hre & Hret).
    destruct o as [token literal|].
    + destruct (Hret token literal eq_refl) as (Hlit & Hcom & Hteof).
      exists n0, n1, token, literal, s0, s1.
      rewrite !Scan_rec_unfold, Hb, Hb0. cbn [bind]. split; [reflexivity|].
      split; [exact R0|]. split; [exact R1|]. split; [exact Hns|].
      split; [reflexivity|]. split; [exact Hlit|]. split; [exact Hcom|].
      split; [exact Hteof|]. split; [exact Hprog|].
      intros He. destruct (Hend He) as (_ & E & ->). injection E as <- <-. auto.
    + exfalso. destruct (Z.eq_dec (char s) eof) as [He|Hne].
      * destruct (Hend He) as (_ & E & _). discriminate.
      * specialize (Hprog Hne).
        pose proof (WF_offset_le _ (reach_WF _ _ _ R1)).
        pose proof (reach_len _ _ _ R0). pose proof (reach_len _ _ _ R1). lia.
  - destruct (Scan_once kw (S f) s Hwf Hfuel)
      as (n0 & s0 & n1 & o & s1 & R0 & Hns & Hb & Hb0 & R1 & Hprog & Hend & Hre & Hret).
    destruct o as [token literal|].
    + destruct (Hret token literal eq_refl) as (Hlit & Hcom & Hteof).
      exists n0, n1, token, literal, s0, s1.
      rewrite !Scan_rec_unfold, Hb, Hb0. cbn [bind]. split; [reflexivity|].
      split; [exact R0|]. split; [exact R1|]. split; [exact Hns|].
      split; [reflexivity|]. split; [exact Hlit|]. split; [exact Hcom|].
      split; [exact Hteof|]. split; [exact Hprog|].
      intros He. destruct (Hend He) as (_ & E & ->). injection E as <- <-. auto.
    + assert (Hne : char s <> eof).
      { intros He. destruct (Hend He) as (_ & E & _). discriminate. }
      specialize (Hprog Hne).
      pose proof (reach_trans _ _ _ _ _ R0 R1) as R01.
      pose proof (reach_WF _ _ _ R1) as W1.
      pose proof (reach_len _ _ _ R01) as L1.
      assert (Hsc1 : scanComments s1 = scanComments s)
        by (destruct R01 as (E01 & _); exact (emits_scanComments _ _ _ E01)).
      destruct (IH s1 W1 ltac:(lia))
        as (m0 & m1 & token & literal & t0 & s' & Hrec & Q0 & Q1 & Hnt & Hrec0
            & Hlit & Hcom & Hteof & Hprog1 & _).
      exists ((n0 ++ n1) ++ m0), m1, token, literal, t0, s'.
      split; [rewrite Scan_rec_unfold, Hb; exact Hrec|].
      split; [eapply reach_trans; eauto|].
      split; [exact Q1|]. split; [exact Hnt|].
      split; [now apply Scan_rec_mono|]. split; [exact Hlit|].
      split; [rewrite <- Hsc1; exact Hcom|]. split; [exact Hteof|].
      split.
      * intros _. pose proof (reach_offset _ _ _ Q0).
        pose proof (reach_offset _ _ _ Q1). lia.
      * intros He. contradiction.
Qed.

Lemma Scan_ok (kw : list string) (s : Scanner) :
  WF s ->
  exists n0 n1 token literal s0 s',
    Scan kw s = Ok (token, literal, s') /\
    reach s n0 s0 /\ reach s0 n1 s' /\
    isSpace (char s0) = false /\
    Scan kw s0 = Ok (token, literal, s') /\
    literal = expected_literal s0 s' /\
    (token = COMMENT -> scanComments s = true) /\
    (token = EOF -> char s0 = eof) /\
    (char s <> eof -> (offset s < offset s')%nat) /\
    (char s = eof -> token = EOF /\ literal = EmptyString /\ s' = s).
Proof.
  intros Hwf. unfold Scan.
  destruct (Scan_rec_ok kw (S (len s)) s Hwf ltac:(lia))
    as (n0 & n1 & token & literal & s0 & s' & H).
  exists n0, n1, token, literal, s0, s'.
  destruct H as (H1 & R0 & H). rewrite (reach_len _ _ _ R0). auto.
Qed.

Lemma WFb_WF (s : Scanner) : WFb s = true -> WF s.
Proof.
  unfold WFb, WF. intros H.
  apply andb_true_iff in H. destruct H as [H1 H2].
  apply Nat.leb_le in H1. split; [exact H1|].
  apply orb_true_iff in H2. destruct H2 as [H2|H2]; [left|right];
    repeat (apply andb_true_iff in H2; destruct H2 as [H2 ?]); bool_hyps;
    repeat split; assumption.
Qed.

Lemma NewScanner_WF (source : list byte) (handler scanComment : bool)
    (flagNames : list string) :
  WF (NewScanner source handler scanComment flagNames).
Proof.
  unfold NewScanner. cbv zeta.
  set (s0 := mkScanner source handler 0 scanComment [] false (ch " ") 0 0 0 [] []).
  assert (W1 : WF (next s0)) by (apply next_WF; simpl; lia).
  assert (W2 : WF (if char (next s0) =? bom then next (next s0) else next s0))
    by (destruct (_ =? _); [now apply WF_next|exact W1]).
  exact W2.
Qed.

Lemma Scan_WF (kw : list string) (s : Scanner) token literal s' :
  WF s -> Scan kw s = Ok (token, literal, s') ->
  WF s' /\ src s' = src s /\ (offset s <= offset s')%nat.
Proof.
  intros Hwf H.
  destruct (Scan_ok kw s Hwf) as (n0 & n1 & tk & lit & s0 & s1 & H1 & R0 & R1 & _).
  rewrite H1 in H. injection H as _ _ <-.
  pose proof (reach_trans _ _ _ _ _ R0 R1) as R.
  split; [eapply reach_WF; eauto|]. split; [eapply reach_src; eauto|].
  eapply reach_offset; eauto.
Qed.

Lemma Scans_WF (kw : list string) (n : nat) :
  forall s toks s',
    WF s -> Scans kw n s = Ok (toks, s') ->
    WF s' /\ src s' = src s /\ (offset s <= offset s')%nat.
Proof.
  induction n as [|k IH]; intros s toks s' Hwf H; simpl in H.
  - injection H as _ <-. auto.
  - apply bind_Ok in H. destruct H as ([[tk lit] s1] & E1 & H).
    apply bind_Ok in H. destruct H as ([rest s2] & E2 & H).
    injection H as _ <-.
    destruct (Scan_WF kw s tk lit s1 Hwf E1) as (W1 & S1 & O1).
    destruct (IH s1 rest s2 W1 E2) as (W2 & S2 & O2).
    split; [exact W2|]. split; [congruence|lia].
Qed.

Lemma Scan_eof (kw : list string) (s : Scanner) :
  WF s -> char s = eof -> Scan kw s = Ok (EOF, EmptyString, s).
Proof.
  intros Hwf He.
  destruct (Scan_ok kw s Hwf) as (n0 & n1 & tk & lit & s0 & s1 & H1 & _ & _ & _
                                  & _ & _ & _ & _ & _ & Heof).
  destruct (Heof He) as (-> & -> & ->). exact H1.
Qed.

Lemma Scans_eof (kw : list string) (s : Scanner) :
  WF s -> char s = eof ->
  forall m, Scans kw m s = Ok (repeat (EOF, EmptyString) m, s).
Proof.
  intros Hwf He m. induction m as [|m IH]; simpl; [reflexivity|].
  rewrite (Scan_eof kw s Hwf He). cbn [bind]. rewrite IH. reflexivity.
Qed.

Lemma Scans_reach_eof (kw : list string) (m : nat) :
  forall s, WF s -> (len s - offset s <= m)%nat ->
            exists toks s',
              Scans kw (S m) s = Ok (toks, s') /\ char s' = eof /\
              last toks (ILLEGAL, EmptyString) = (EOF, EmptyString).
Proof.
  induction m as [|m IH]; intros s Hwf Hm.
  - assert (He : char s = eof).
    { destruct (WF_char s Hwf) as [E|E]; [exact E|].
      pose proof (WF_nonneg_lt s Hwf E). lia. }
    exists [(EOF, EmptyString)], s. rewrite (Scans_eof kw s Hwf He 1). auto.
  - destruct (Z.eq_dec (char s) eof) as [He|Hne].
    + exists (repeat (EOF, EmptyString) (S (S m))), s.
      rewrite (Scans_eof kw s Hwf He (S (S m))). split; [reflexivity|].
      split; [exact He|]. 
      change (repeat (EOF, EmptyString) (S (S m)))
        with ((EOF, EmptyString) :: repeat (EOF, EmptyString) (S m)).
      clear. induction (S m) as [|k IHk]; [reflexivity|].
      simpl in *. exact IHk.
    + destruct (Scan_ok kw s Hwf) as (n0 & n1 & tk & lit & s0 & s1 & H1 & R0 & R1 & _
                                      & _ & _ & _ & _ & Hprog & _).
      specialize (Hprog Hne).
      pose proof (reach_trans _ _ _ _ _ R0 R1) as R.
      destruct (IH s1 (reach_WF _ _ _ R)) as (toks & s' & H2 & He' & Hlast).
      { rewrite (reach_len _ _ _ R). lia. }
      exists ((tk, lit) :: toks), s'.
      change (Scans kw (S (S m)) s)
        with (bind (Scan kw s) (fun x => let '(token, literal, s) := x in
                bind (Scans kw (S m) s) (fun y => let '(rest, s) := y in
                  Ok ((token, literal) :: rest, s)))).
      rewrite H1. cbn [bind]. rewrite H2. cbn [bind].
      split; [reflexivity|]. split; [exact He'|].
      destruct toks as [|t toks]; [|exact Hlast].
      simpl in H2. apply bind_Ok in H2. destruct H2 as ([[? ?] ?] & _ & H2).
      apply bind_Ok in H2. destruct H2 as ([? ?] & _ & H2). discriminate.
Qed.

(** *** Skipped comments and the start of the token *)

Lemma run_unique (cond : Scanner -> bool) (s a b : Scanner) :
  run cond s a -> run cond s b -> a = b.
Proof.
  intros Ha. revert b. induction Ha as [s Hs|s a Hs _ IH]; intros b Hb.
  - symmetry. eapply run_false; eauto.
  - destruct Hb as [s Hs'|s b Hs' Hb]; [congruence|now apply IH].
Qed.

Lemma blockComment_run (fuel : nat) :
  forall s t s', blockComment fuel s = Ok (t, s') -> block_run s t s'.
Proof.
  induction fuel as [|f IH]; intros s t s' H; simpl in H.
  - destruct (0 <=? char s) eqn:E; [discriminate|].
    injection H as <- <-. apply block_open. now apply Z.leb_gt.
  - destruct (0 <=? char s) eqn:E.
    + apply Z.leb_le in E.
      destruct ((char s =? ch "*") && (char (next s) =? ch "/")) eqn:Et.
      * injection H as <- <-. apply andb_true_iff in Et.
        destruct Et as [E1 E2]. apply Z.eqb_eq in E1, E2.
        now apply block_close.
      * apply block_step; [exact E|exact Et|now apply IH].
    + injection H as <- <-. apply block_open. now apply Z.leb_gt.
Qed.

Lemma commentStart_chars (s : Scanner) :
  commentStart s = true ->
  char s = ch "/" /\ (char (next s) = ch "/" \/ char (next s) = ch "*").
Proof.
  unfold commentStart. intros H. apply andb_true_iff in H.
  destruct H as [H1 H2]. apply Z.eqb_eq in H1. split; [exact H1|].
  apply orb_true_iff in H2. destruct H2 as [H2|H2]; apply Z.eqb_eq in H2; auto.
Qed.

(** [scanComment] on the comment that starts at [s]. *)
Lemma scanComment_end (fuel : nat) (s : Scanner) :
  WF s -> (len s - offset s <= S fuel)%nat -> commentStart s = true ->
  exists new s',
    scanComment (S fuel) (next s) = Ok (span s (offset s) (offset s'), s') /\
    reach s new s' /\ Forall comment_msg new /\
    (offset s + 2 <= offset s')%nat /\ comment_end s s'.
Proof.
  intros Hwf Hfuel Hcs.
  destruct (commentStart_chars s Hcs) as (Hc & Hn).
  assert (Ha : 0 <= char s < 0x80) by (rewrite Hc; ch_eval; lia).
  destruct (next_ascii s Hwf Ha) as (O1 & S1 & W1 & L1).
  destruct (next_reach s Hwf) as (n1 & R1 & F1 & _).
  assert (Hb : 0 <= char (next s) < 0x80)
    by (destruct Hn as [-> | ->]; ch_eval; lia).
  destruct (next_ascii (next s) W1 Hb) as (O2 & S2 & W2 & L2).
  destruct (next_reach (next s) W1) as (n2 & R2 & F2 & _).
  pose proof (reach_trans _ _ _ _ _ R1 R2) as R12.
  assert (F12 : Forall comment_msg (n1 ++ n2)).
  { apply Forall_impl_cursor; [now left|now apply Forall_app]. }
  unfold scanComment. destruct Hn as [Hn|Hn]; rewrite Hn.
  - change (ch "/" =? ch "/") with true. cbv iota.
    destruct (advance_while_ok
                (fun s => negb (char s =? 10) && (0 <=? char s))) with
      (fuel := S fuel) (s := next (next s))
      as (n3 & s' & Hrun & R3 & F3 & Hr & _).
    { intros s0 H. bool_hyps. lia. }
    { exact W2. }
    { rewrite L2, L1, O2, O1. lia. }
    pose proof (reach_trans _ _ _ _ _ R12 R3) as R.
    pose proof (reach_offset _ _ _ R3) as O3.
    rewrite Hrun. cbn [bind].
    rewrite text_span_pred;
      [|lia|apply WF_offset_le; eapply reach_WF; eauto].
    cbn [bind]. rewrite O1.
    replace (offset s + 1 - 1)%nat with (offset s) by lia.
    rewrite (span_src s s') by (eapply reach_src; eauto).
    eexists _, s'. split; [reflexivity|].
    split; [exact R|]. split.
    { apply Forall_app. split; [exact F12|].
      eapply Forall_impl; [|exact F3]. now left. }
    split; [lia|]. left. auto.
  - change (ch "*" =? ch "/") with false. cbv iota.
    destruct (blockComment_ok (S fuel) (next (next s)) W2)
      as (n3 & t & e & Hrun & R3 & F3 & _).
    { rewrite L2, L1, O2, O1. lia. }
    pose proof (reach_trans _ _ _ _ _ R12 R3) as R.
    pose proof (reach_offset _ _ _ R3) as O3.
    pose proof (blockComment_run _ _ _ _ Hrun) as Hb'.
    rewrite Hrun. cbn [bind].
    assert (F : Forall comment_msg ((n1 ++ n2) ++ n3)).
    { apply Forall_app. split; [exact F12|].
      eapply Forall_impl; [|exact F3]. now left. }
    destruct t.
    + rewrite text_span_pred;
        [|lia|apply WF_offset_le; eapply reach_WF; eauto].
      cbn [bind]. rewrite O1.
      replace (offset s + 1 - 1)%nat with (offset s) by lia.
      rewrite (span_src s e) by (eapply reach_src; eauto).
      eexists _, e. split; [reflexivity|].
      split; [exact R|]. split; [exact F|]. split; [lia|].
      right. split; [exact Hn|]. exists true, e. auto.
    + set (e' := error _ _ e).
      assert (Re : reach e [Text "comment not terminated"] e')
        by (apply reach_error; eapply reach_WF; eauto).
      pose proof (reach_trans _ _ _ _ _ R Re) as R'.
      assert (Hoe : offset e' = offset e) by (apply error_cursor).
      rewrite text_span_pred;
        [|lia|apply WF_offset_le; eapply reach_WF; eauto].
      cbn [bind]. rewrite O1.
      replace (offset s + 1 - 1)%nat with (offset s) by lia.
      rewrite (span_src s e') by (eapply reach_src; eauto).
      eexists _, e'. split; [reflexivity|].
      split; [exact R'|]. split.
      { apply Forall_app; split; [exact F|].
        constructor; [now right|constructor]. }
      split; [lia|].
      right. split; [exact Hn|]. exists false, e. auto.
Qed.

Lemma Scan_body_comment (kw : list string) (fuel : nat) (s : Scanner) :
  commentStart s = true ->
  Scan_body kw fuel s =
  bind (scanComment fuel (next s))
       (fun x => let '(literal, s1) := x in
                 if negb (scanComments s1) then Ok (Rescan, s1)
                 else Ok (Return COMMENT literal, s1)).
Proof.
  intros Hcs. destruct (commentStart_chars s Hcs) as (H & Hn).
  unfold Scan_body.
  rewrite advance_while_false by (cbv beta; rewrite H; reflexivity).
  cbn [bind]. rewrite H. cbv beta zeta.
  change (isLetter (ch "/")) with false.
  change (isDecimal (ch "/")) with false.
  change (ch "/" =? ch ".") with false.
  change (ch "/" =? eof) with false.
  change (ch "/" =? dquote) with false.
  change (ch "/" =? ch "`") with false.
  change (ch "/" =? squote) with false.
  change (ch "/" =? ch "/") with true.
  cbn [orb andb]. cbv iota.
  replace ((char (next s) =? ch "/") || (char (next s) =? ch "*")) with true
    by (symmetry; apply orb_true_iff;
        destruct Hn as [Hn|Hn]; rewrite Hn; auto).
  reflexivity.
Qed.

(** With comments suppressed, [Scan] at a comment goes on behind it. *)
Lemma Scan_rec_comment (kw : list string) (fuel : nat) (s : Scanner) :
  WF s -> (len s - offset s <= S fuel)%nat ->
  scanComments s = false -> commentStart s = true ->
  exists new s',
    scanComment (S fuel) (next s) = Ok (span s (offset s) (offset s'), s') /\
    reach s new s' /\ Forall comment_msg new /\
    (offset s + 2 <= offset s')%nat /\ comment_end s s' /\
    Scan_rec kw (S fuel) s = Scan_rec kw fuel s'.
Proof.
  intros Hwf Hfuel Hsc Hcs.
  destruct (scanComment_end fuel s Hwf Hfuel Hcs)
    as (new & s' & Hrun & R & F & Ho & He).
  exists new, s'. split; [exact Hrun|]. split; [exact R|].
  split; [exact F|]. split; [exact Ho|]. split; [exact He|].
  rewrite Scan_rec_unfold, (Scan_body_comment kw _ s Hcs), Hrun.
  cbn [bind].
  assert (Hs' : scanComments s' = false).
  { destruct R as (E & _). rewrite (emits_scanComments _ _ _ E). exact Hsc. }
  rewrite Hs'. reflexivity.
Qed.

Lemma Scan_rec_skip (kw : list string) (fuel : nat) (s s0 : Scanner) :
  advance_while (fun s => isSpace (char s)) fuel s = Ok s0 ->
  isSpace (char s0) = false ->
  Scan_rec kw fuel s = Scan_rec kw fuel s0.
Proof.
  intros H H0.
  rewrite (Scan_rec_unfold kw fuel s), (Scan_rec_unfold kw fuel s0).
  now rewrite (Scan_body_skip kw fuel s s0 H H0).
Qed.

Lemma token_start_unfold (fuel : nat) (s : Scanner) :
  token_start fuel s =
  bind (advance_while (fun s => isSpace (char s)) fuel s)
       (fun s => if commentStart s && negb (scanComments s)
                 then bind (scanComment fuel (next s))
                        (fun x => let '(literal, s) := x in
                                  match fuel with
                                  | O => OutOfFuel
                                  | S f => token_start f s
                                  end)
                 else Ok s).
Proof. destruct fuel; reflexivity. Qed.

(** The start of the token: [Scan] gets there, and from there it returns
    the token without a further activation. *)
Lemma token_start_ok (kw : list string) (fuel : nat) :
  forall s : Scanner,
    WF s -> (len s - offset s <= fuel)%nat ->
    exists n0 n1 s0 token literal s',
      token_start fuel s = Ok s0 /\ reach s n0 s0 /\
      isSpace (char s0) = false /\
      commentStart s0 && negb (scanComments s0) = false /\
      Scan_body kw fuel s0 = Ok (Return token literal, s') /\
      Scan_rec kw fuel s = Ok (token, literal, s') /\
      reach s0 n1 s' /\
      (char s0 <> eof -> (offset s0 < offset s')%nat) /\
      literal = expected_literal s0 s'.
Proof.
  induction fuel as [|f IH]; intros s Hwf Hfuel.
  - destruct (advance_while_ok (fun s => isSpace (char s))) with
      (fuel := 0%nat) (s := s)
      as (n0 & s0 & Hskip & R0 & _ & Hrun & _); [|exact Hwf|exact Hfuel|].
    { intros s1 H1. apply isSpace_nonneg in H1. lia. }
    pose proof (run_end _ _ _ Hrun) as Hns. cbv beta in Hns.
    pose proof (reach_WF _ _ _ R0) as W0.
    pose proof (reach_len _ _ _ R0) as L0.
    pose proof (reach_offset _ _ _ R0) as O0.
    destruct (commentStart s0 && negb (scanComments s0)) eqn:Ec.
    + exfalso. apply andb_true_iff in Ec. destruct Ec as [Ec _].
      destruct (commentStart_chars s0 Ec) as (Hc & _).
      assert (0 <= char s0) by (rewrite Hc; ch_eval; lia).
      pose proof (WF_nonneg_lt s0 W0 ltac:(assumption)). lia.
    + destruct (Scan_body_at kw 0 s0 W0 ltac:(lia) Hns)
        as (n1 & o & s1 & Hbody & R1 & Hadv1 & _ & Hre & Hret).
      destruct o as [token literal|].
      * destruct (Hret token literal eq_refl) as (Hlit & _).
        exists n0, n1, s0, token, literal, s1.
        rewrite token_start_unfold, Hskip. cbn [bind]. rewrite Ec.
        split; [reflexivity|]. split; [exact R0|]. split; [exact Hns|].
        split; [reflexivity|]. split; [exact Hbody|].
        split; [|auto].
        rewrite (Scan_rec_skip kw _ s s0 Hskip Hns), Scan_rec_unfold, Hbody.
        reflexivity.
      * destruct (Hre eq_refl) as (E1 & E2). rewrite E1, E2 in Ec. discriminate.
  - destruct (advance_while_ok (fun s => isSpace (char s))) with
      (fuel := S f) (s := s)
      as (n0 & s0 & Hskip & R0 & _ & Hrun & _); [|exact Hwf|exact Hfuel|].
    { intros s1 H1. apply isSpace_nonneg in H1. lia. }
    pose proof (run_end _ _ _ Hrun) as Hns. cbv beta in Hns.
    pose proof (reach_WF _ _ _ R0) as W0.
    pose proof (reach_len _ _ _ R0) as L0.
    pose proof (reach_offset _ _ _ R0) as O0.
    destruct (commentStart s0 && negb (scanComments s0)) eqn:Ec.
    + apply andb_true_iff in Ec. destruct Ec as [Ec Es].
      apply negb_true_iff in Es.
      destruct (Scan_rec_comment kw f s0 W0 ltac:(lia) Es Ec)
        as (new & s2 & Hcom & R2 & _ & O2 & _ & Hrec).
      pose proof (reach_WF _ _ _ R2) as W2.
      pose proof (reach_len _ _ _ R2) as L2.
      destruct (IH s2 W2 ltac:(lia))
        as (m0 & m1 & t0 & token & literal & s' & Hts & Q0 & Hnt & Hct & Hbody
            & Hscan & Q1 & Hadv & Hlit).
      exists ((n0 ++ new) ++ m0), m1, t0, token, literal, s'.
      split.
      { rewrite token_start_unfold, Hskip. cbn [bind]. rewrite Ec, Es.
        cbn [negb andb]. rewrite Hcom. cbn [bind]. exact Hts. }
      split; [eapply reach_trans; [eapply reach_trans; eauto|exact Q0]|].
      split; [exact Hnt|]. split; [exact Hct|].
      split; [now apply Scan_body_mono|].
      split; [|auto].
      rewrite (Scan_rec_skip kw _ s s0 Hskip Hns), Hrec. exact Hscan.
    + destruct (Scan_body_at kw (S f) s0 W0 ltac:(lia) Hns)
        as (n1 & o & s1 & Hbody & R1 & Hadv1 & _ & Hre & Hret).
      destruct o as [token literal|].
      * destruct (Hret token literal eq_refl) as (Hlit & _).
        exists n0, n1, s0, token, literal, s1.
        rewrite token_start_unfold, Hskip. cbn [bind]. rewrite Ec.
        split; [reflexivity|]. split; [exact R0|]. split; [exact Hns|].
        split; [reflexivity|]. split; [exact Hbody|].
        split; [|auto].
        rewrite (Scan_rec_skip kw _ s s0 Hskip Hns), Scan_rec_unfold, Hbody.
        reflexivity.
      * destruct (Hre eq_refl) as (E1 & E2). rewrite E1, E2 in Ec. discriminate.
Qed.

(** The white space before a token, skipped by [Scan]. *)
Lemma Scan_skip_run (kw : list string) (s s0 : Scanner) :
  WF s -> run (fun s => isSpace (char s)) s s0 ->
  exists n0,
    reach s n0 s0 /\ Forall cursor_msg n0 /\
    Scan_rec kw (S (len s)) s = Scan_rec kw (S (len s)) s0.
Proof.
  intros Hwf Hrun.
  destruct (advance_while_ok (fun s => isSpace (char s))) with
    (fuel := S (len s)) (s := s)
    as (n0 & s0' & Hskip & R0 & F0 & Hrun' & _); [|exact Hwf|lia|].
  { intros s1 H1. apply isSpace_nonneg in H1. lia. }
  rewrite (run_unique _ _ _ _ Hrun' Hrun) in *.
  exists n0. split; [exact R0|]. split; [exact F0|].
  apply Scan_rec_skip; [exact Hskip|].
  exact (run_end _ _ _ Hrun).
Qed.

(** *** Counting diagnostics *)

Lemma count_msg_app (m : Msg) (l1 l2 : list Msg) :
  count_msg m (l1 ++ l2) = (count_msg m l1 + count_msg m l2)%nat.
Proof. unfold count_msg. now rewrite filter_app, length_app. Qed.

Lemma count_msg_cursor (m : Msg) (l : list Msg) :
  (forall x, cursor_msg x -> Msg_eqb m x = false) ->
  Forall cursor_msg l -> count_msg m l = 0%nat.
Proof.
  intros Hm H. unfold count_msg. induction H as [|x l Hx _ IH]; [reflexivity|].
  simpl. now rewrite (Hm x Hx).
Qed.

Lemma span_bytes (s : Scanner) (lo hi : nat) :
  list_byte_of_string (span s lo hi) = firstn (hi - lo) (skipn lo (src s)).
Proof. unfold span. apply list_byte_of_string_of_list_byte. Qed.

(** *** The dispatch of [Scan] on single characters *)

Lemma Scan_Return (kw : list string) (s : Scanner) token literal s' :
  Scan_body kw (S (len s)) s = Ok (Return token literal, s') ->
  Scan kw s = Ok (token, literal, s').
Proof. intros H. unfold Scan. rewrite Scan_rec_unfold, H. reflexivity. Qed.

Lemma Scan_body_backquote (kw : list string) (fuel : nat) (s : Scanner) :
  char s = ch "`" ->
  Scan_body kw fuel s =
  bind (scanRawString fuel (next s))
       (fun x => let '(literal, s) := x in Ok (Return STRING literal, s)).
Proof.
  intros H. unfold Scan_body.
  rewrite advance_while_false by (cbv beta; rewrite H; reflexivity).
  cbn [bind]. rewrite H. reflexivity.
Qed.

Lemma Scan_body_dquote (kw : list string) (fuel : nat) (s : Scanner) :
  char s = dquote ->
  Scan_body kw fuel s =
  bind (scanString fuel (next s))
       (fun x => let '(literal, s) := x in Ok (Return STRING literal, s)).
Proof.
  intros H. unfold Scan_body.
  rewrite advance_while_false by (cbv beta; rewrite H; reflexivity).
  cbn [bind]. rewrite H. reflexivity.
Qed.

Lemma Scan_body_slash (kw : list string) (fuel : nat) (s : Scanner) :
  char s = ch "/" -> commentStart s = false ->
  Scan_body kw fuel s = Ok (Return ILLEGAL EmptyString, next s).
Proof.
  intros H Hc. unfold Scan_body.
  rewrite advance_while_false by (cbv beta; rewrite H; reflexivity).
  cbn [bind]. unfold commentStart in Hc. rewrite H in *.
  change (ch "/" =? ch "/") with true in Hc. cbn [andb] in Hc.
  cbv beta zeta.
  change (isLetter (ch "/")) with false.
  change (isDecimal (ch "/")) with false.
  change (ch "/" =? ch ".") with false.
  change (ch "/" =? eof) with false.
  change (ch "/" =? dquote) with false.
  change (ch "/" =? ch "`") with false.
  change (ch "/" =? squote) with false.
  change (ch "/" =? ch "/") with true.
  cbn [orb andb]. cbv iota. now rewrite Hc.
Qed.

Lemma Scan_body_dot (kw : list string) (fuel : nat) (s : Scanner) :
  char s = ch "." -> isDecimal (peek s) = false ->
  Scan_body kw fuel s = Ok (Return ILLEGAL EmptyString, next s).
Proof.
  intros H Hc. unfold Scan_body.
  rewrite advance_while_false by (cbv beta; rewrite H; reflexivity).
  cbn [bind]. rewrite H, Hc. reflexivity.
Qed.

Lemma Scan_body_other (kw : list string) (fuel : nat) (s : Scanner) :
  isSpace (char s) = false -> isLetter (char s) = false ->
  isDecimal (char s) = false ->
  existsb (Z.eqb (char s))
    [eof; dquote; ch "`"; squote; ch "."; ch "/"; ch "@"] = false ->
  Scan_body kw fuel s =
  Ok (Return ILLEGAL EmptyString,
      next (error (Z.of_nat (offset (next s))) (Text "invalid token") (next s))).
Proof.
  intros Hs Hl Hd Hx. unfold Scan_body.
  rewrite advance_while_false by exact Hs.
  cbn [bind]. rewrite Hl, Hd. cbn [existsb] in Hx.
  repeat (apply orb_false_iff in Hx; destruct Hx as [? Hx]).
  cbv zeta.
  repeat match goal with H : (char s =? _) = false |- _ => rewrite H; clear H end.
  reflexivity.
Qed.

(** *** C1 *)

(** C1, refuted as stated: the source holds a NUL byte and the scanner was
    given an error handler; the diagnostic is printed and counted, but the
    handler has not been called. *)
Lemma C1_handler_not_called :
  let s := NewScanner [x00] true true [] in
  err s = true /\ ErrorCount s = 1 /\
  stdout s = [Text "illegal character NUL"] /\ handled s = [].
Proof. vm_compute. repeat split. Qed.

(** C1, as amended: every diagnostic is printed and increments the error
    count by exactly one, leaving the cursor where it is; the handler given
    to the scanner is never called; and a call of [Scan] returns a token
    whatever diagnostics it emits, its error count growing by the number of
    diagnostics printed. *)
Theorem diagnostics_are_printed_and_counted (kw : list string) (s : Scanner) :
  WF s ->
  (forall off msg,
      ErrorCount (error off msg s) = ErrorCount s + 1 /\
      stdout (error off msg s) = stdout s ++ [msg] /\
      handled (error off msg s) = handled s /\
      char (error off msg s) = char s /\
      offset (error off msg s) = offset s /\
      readOffset (error off msg s) = readOffset s) /\
  exists token literal s' new,
    Scan kw s = Ok (token, literal, s') /\
    stdout s' = stdout s ++ new /\
    ErrorCount s' = ErrorCount s + Z.of_nat (List.length new) /\
    handled s' = handled s.
Proof.
  intros Hwf. split.
  - intros off msg. rewrite error_eq. simpl. repeat split.
  - destruct (Scan_ok kw s Hwf)
      as (n0 & n1 & token & literal & s0 & s' & H & R0 & R1 & _).
    destruct (reach_trans _ _ _ _ _ R0 R1) as (E & _).
    exists token, literal, s', (n0 ++ n1). split; [exact H|].
    split; [exact (emits_stdout _ _ _ E)|].
    split; [exact (emits_count _ _ _ E)|exact (emits_handled _ _ _ E)].
Qed.

Lemma diagnostics_are_printed_and_counted_witness :
  WF (NewScanner (source "3.") true true []) /\
  exists token literal s' new,
    Scan [] (NewScanner (source "3.") true true []) = Ok (token, literal, s') /\
    stdout s' = stdout (NewScanner (source "3.") true true []) ++ new /\
    ErrorCount s' =
      ErrorCount (NewScanner (source "3.") true true [])
      + Z.of_nat (List.length new) /\
    handled s' = handled (NewScanner (source "3.") true true []).
Proof.
  split.
  - apply WFb_WF. vm_compute. reflexivity.
  - apply (diagnostics_are_printed_and_counted []
             (NewScanner (source "3.") true true [])).
    apply WFb_WF. vm_compute. reflexivity.
Defined.

(** *** C2 *)

(** C2, refuted as stated: the token of [@foo] spans the bytes 0 to 4 of the
    source, which are [@foo], and its literal is [foo]. *)
Lemma C2_meta_literal_is_not_the_span :
  let s := NewScanner (source "@foo") true true [] in
  exists s',
    Scan [] s = Ok (META, "foo"%string, s') /\
    offset s = 0%nat /\ offset s' = 4%nat /\
    span s (offset s) (offset s') = "@foo"%string.
Proof. vm_compute. eexists. repeat split. Qed.

(** C2, as amended: the token [Scan] returns from [s] starts in the state
    [token_start] gives, behind the white space (and the suppressed
    comments) before it; its first code point stands at the offset of that
    state and the token ends at the offset of the state [Scan] returns,
    which lies behind the start unless the input is exhausted.  When the
    token starts with a letter, a digit, a [.] before a digit, a quote or a
    comment, the bytes of its literal are the source between its start and
    its end; the literal of a meta name is that text without the [@]; any
    other token has the empty literal.  A string literal with a backslash
    and an [n] keeps both and gives no error. *)
Theorem Scan_literal_span (kw : list string) :
  (forall s token literal s',
      WF s -> Scan kw s = Ok (token, literal, s') ->
      exists s0,
        token_start (S (len s)) s = Ok s0 /\
        WF s0 /\ src s0 = src s /\
        (offset s <= offset s0 <= offset s')%nat /\
        (offset s' <= len s)%nat /\
        (char s0 <> eof -> (offset s0 < offset s')%nat) /\
        isSpace (char s0) = false /\
        Scan kw s0 = Ok (token, literal, s') /\
        match classify s0 with
        | Spanned =>
            list_byte_of_string literal =
            firstn (offset s' - offset s0) (skipn (offset s0) (src s))
        | MetaName =>
            list_byte_of_string literal =
            firstn (offset s' - (offset s0 + 1))
                   (skipn (offset s0 + 1) (src s))
        | Bare => literal = EmptyString
        end) /\
  (let text := [x22] ++ source "abc\n" ++ [x22] in
   exists s',
     Scan kw (NewScanner text true true []) =
       Ok (STRING, string_of_list_byte text, s') /\
     ErrorCount s' = 0 /\ offset s' = 7%nat).
Proof.
  split.
  - intros s token literal s' Hwf H.
    destruct (token_start_ok kw (S (len s)) s Hwf ltac:(lia))
      as (n0 & n1 & s0 & tk & lit & s1 & Hts & R0 & Hns & _ & Hbody & H1 & R1
          & Hadv & Hlit).
    unfold Scan in H. rewrite H1 in H. injection H as <- <- <-.
    pose proof (reach_len _ _ _ R0) as L0.
    pose proof (reach_len _ _ _ R1) as L1.
    exists s0. split; [exact Hts|].
    split; [eapply reach_WF; eauto|].
    split; [eapply reach_src; eauto|].
    split; [split; eapply reach_offset; eauto|].
    split; [rewrite <- L0, <- L1; apply WF_offset_le; eapply reach_WF; eauto|].
    split; [exact Hadv|]. split; [exact Hns|].
    split; [apply Scan_Return; rewrite L0; exact Hbody|].
    rewrite Hlit. unfold expected_literal.
    rewrite <- (reach_src _ _ _ R0).
    destruct (classify s0); [apply span_bytes|apply span_bytes|reflexivity].
  - vm_compute. eexists. repeat split.
Qed.

Lemma Scan_literal_span_witness :
  let s := NewScanner (source "  foo") true true [] in
  WF s /\
  Scan [] s = Ok (IDENT, "foo"%string, advance 5 s) /\
  exists s0,
    token_start (S (len s)) s = Ok s0 /\
    WF s0 /\ src s0 = src s /\
    (offset s <= offset s0 <= offset (advance 5 s))%nat /\
    (offset (advance 5 s) <= len s)%nat /\
    (char s0 <> eof -> (offset s0 < offset (advance 5 s))%nat) /\
    isSpace (char s0) = false /\
    Scan [] s0 = Ok (IDENT, "foo"%string, advance 5 s) /\
    match classify s0 with
    | Spanned =>
        list_byte_of_string "foo" =
        firstn (offset (advance 5 s) - offset s0) (skipn (offset s0) (src s))
    | MetaName =>
        list_byte_of_string "foo" =
        firstn (offset (advance 5 s) - (offset s0 + 1))
               (skipn (offset s0 + 1) (src s))
    | Bare => "foo"%string = EmptyString
    end.
Proof.
  cbv zeta. split; [apply WFb_WF; vm_compute; reflexivity|].
  split; [vm_compute; reflexivity|].
  apply (proj1 (Scan_literal_span [])
           (NewScanner (source "  foo") true true []) IDENT "foo"%string
           (advance 5 (NewScanner (source "  foo") true true []))).
  - apply WFb_WF. vm_compute. reflexivity.
  - vm_compute. reflexivity.
Defined.

(** *** C3 *)

(** C3: once the scanner, after any number of calls of [Scan] on any source,
    is at the end of the input, every further call returns the end-of-input
    token with the empty literal and leaves the whole state, and with it the
    error count, as it is. *)
Theorem Scan_idempotent_at_eof (kw : list string) (source : list byte)
    (handler scanComment : bool) (flagNames : list string)
    (n : nat) (toks : list (Token * string)) (s : Scanner) :
  Scans kw n (NewScanner source handler scanComment flagNames) = Ok (toks, s) ->
  char s = eof ->
  Scan kw s = Ok (EOF, EmptyString, s) /\
  forall m, Scans kw m s = Ok (repeat (EOF, EmptyString) m, s).
Proof.
  intros H He.
  destruct (Scans_WF kw n _ _ _ (NewScanner_WF _ _ _ _) H) as (Hwf & _).
  split; [now apply Scan_eof|now apply Scans_eof].
Qed.

Lemma Scan_idempotent_at_eof_witness :
  let s := advance 1 (NewScanner (source "a") true true []) in
  Scans [] 1 (NewScanner (source "a") true true []) =
    Ok ([(IDENT, "a"%string)], s) /\
  char s = eof /\
  Scan [] s = Ok (EOF, EmptyString, s) /\
  forall m, Scans [] m s = Ok (repeat (EOF, EmptyString) m, s).
Proof.
  cbv zeta. split; [vm_compute; reflexivity|]. split; [vm_compute; reflexivity|].
  apply (Scan_idempotent_at_eof [] (source "a") true true [] 1
           [(IDENT, "a"%string)]).
  - vm_compute. reflexivity.
  - vm_compute. reflexivity.
Defined.

(** *** C4 *)

(** C4, refuted as stated: the raw string [`a`] is returned with the kind
    [STRING], the kind of the ordinary string. *)
Lemma C4_raw_string_has_kind_STRING :
  (exists s', Scan [] (NewScanner (source "`a`") true true []) =
              Ok (STRING, "`a`"%string, s')) /\
  (exists s', Scan [] (NewScanner ([x22] ++ source "a" ++ [x22]) true true []) =
              Ok (STRING, string_of_list_byte ([x22] ++ source "a" ++ [x22]), s')).
Proof. split; vm_compute; eexists; reflexivity. Qed.

(** C4, as amended: scanning a backquote-delimited raw string yields a token
    of the kind [STRING], the same kind an ordinary string has. *)
Theorem raw_string_token_is_STRING (kw : list string) (s : Scanner) :
  WF s -> char s = ch "`" \/ char s = dquote ->
  exists literal s', Scan kw s = Ok (STRING, literal, s').
Proof.
  intros Hwf Hc.
  destruct (Scan_ok kw s Hwf) as (n0 & n1 & tk & lit & s0 & s1 & H1 & _).
  exists lit, s1. rewrite H1. revert H1. unfold Scan.
  rewrite Scan_rec_unfold.
  destruct Hc as [Hc|Hc];
    [rewrite (Scan_body_backquote kw _ s Hc)|rewrite (Scan_body_dquote kw _ s Hc)];
    intros H; apply bind_Ok in H; destruct H as ([o s2] & H & E);
    apply bind_Ok in H; destruct H as ([l s3] & _ & H);
    injection H as <- <-; injection E as <- _ _; reflexivity.
Qed.

Lemma raw_string_token_is_STRING_witness :
  WF (NewScanner (source "`a`") true true []) /\
  (char (NewScanner (source "`a`") true true []) = ch "`" \/
   char (NewScanner (source "`a`") true true []) = dquote) /\
  exists literal s',
    Scan [] (NewScanner (source "`a`") true true []) = Ok (STRING, literal, s').
Proof.
  split; [apply WFb_WF; vm_compute; reflexivity|].
  split; [left; vm_compute; reflexivity|].
  apply (raw_string_token_is_STRING [] (NewScanner (source "`a`") true true [])).
  - apply WFb_WF. vm_compute. reflexivity.
  - left. vm_compute. reflexivity.
Defined.

(** *** C5 *)

Lemma wrap32_small (x : Z) : 0 <= x < 2 ^ 32 -> wrap32 x = x.
Proof. intros H. unfold wrap32. now apply Z.mod_small. Qed.

Lemma octal_digitVal (c : rune) :
  (digitVal c <? 8) = true -> digitVal c = c - ch "0" /\ 0 <= c - ch "0" < 8.
Proof.
  intros H. pose proof H as H'. rewrite digitVal_octal in H'.
  apply Z.ltb_lt in H. revert H H'. unfold digitVal. ch_eval. intros H H'.
  bool_hyps.
  replace ((48 <=? c) && (c <=? 57)) with true in *
    by (symmetry; apply andb_true_iff; split; apply Z.leb_le; lia).
  lia.
Qed.

Lemma escapeKind_octal (quote c : rune) :
  (ch "0" <=? c) && (c <=? ch "7") = true -> quote <> c ->
  escapeKind quote c = Digits false 3 8 255.
Proof.
  intros H Hq. unfold escapeKind. rewrite H.
  replace (existsb _ _) with false; [reflexivity|].
  symmetry. revert H. ch_eval. intros H. bool_hyps. cbn [existsb].
  repeat (apply orb_false_iff; split); try reflexivity; apply Z.eqb_neq; lia.
Qed.

(** C5, refuted as stated: in the string ["\1x"] the octal escape has one
    digit and a non-octal character follows; [scanEscape] rejects it and the
    scan counts one diagnostic. *)
Lemma C5_short_octal_escape_is_rejected :
  let text := [x22] ++ source "\1x" ++ [x22] in
  let s := NewScanner text true true [] in
  char (advance 2 s) = ch "1" /\
  fst (scanEscape dquote (advance 2 s)) = false /\
  exists s',
    Scan [] s = Ok (STRING, string_of_list_byte text, s') /\
    ErrorCount s' = 1 /\ stdout s' = [IllegalCharInEscape (ch "x")].
Proof. vm_compute. split; [reflexivity|]. split; [reflexivity|]. eexists. repeat split. Qed.

(** C5, as amended: when the character after a backslash is an octal
    digit, the escape needs exactly three octal digits.  With three of them
    ahead, [scanEscape] consumes the three and accepts the escape exactly
    when their value is at most 255, reporting an invalid code point
    otherwise; with fewer, it stops at the first character that is no octal
    digit, reports that character (or the end of the input) and rejects the
    escape. *)
Theorem scanEscape_octal (quote : rune) (s : Scanner) :
  (ch "0" <=? char s) && (char s <=? ch "7") = true -> quote <> char s ->
  let x := 64 * (char s - ch "0") + 8 * (char (advance 1 s) - ch "0")
           + (char (advance 2 s) - ch "0") in
  (digitsAhead 3 8 s = true ->
   digitsValue 3 8 0 s = x /\
   scanEscape quote s =
     if 255 <? x
     then (false, error (Z.of_nat (offset s)) invalid_code_point (advance 3 s))
     else (true, advance 3 s)) /\
  (digitsAhead 3 8 s = false ->
   exists k,
     (1 <= k < 3)%nat /\ digitsAhead k 8 s = true /\
     (digitVal (char (advance k s)) <? 8) = false /\
     scanEscape quote s =
       (false, error (Z.of_nat (offset (advance k s)))
                     (escape_digit_msg (char (advance k s))) (advance k s))).
Proof.
  intros Hc Hq x. unfold scanEscape.
  rewrite (escapeKind_octal quote (char s) Hc Hq). split.
  - intros Hd. rewrite (escapeDigits_good 3 8 0 s Hd).
    assert (Hx : digitsValue 3 8 0 s = x).
    { cbn [digitsAhead] in Hd. repeat (apply andb_true_iff in Hd; destruct Hd as [? Hd]).
      destruct (octal_digitVal (char s)) as (E0 & B0); [assumption|].
      destruct (octal_digitVal (char (next s))) as (E1 & B1); [assumption|].
      destruct (octal_digitVal (char (next (next s)))) as (E2 & B2); [assumption|].
      unfold x. cbn [digitsValue advance]. rewrite ?E0, ?E1, ?E2.
      generalize dependent (char s - ch "0"). intros a _ _ Ba.
      generalize dependent (char (next s) - ch "0"). intros b _ Bb.
      generalize dependent (char (next (next s)) - ch "0"). intros c _ Bc.
      rewrite (wrap32_small (0 * 8 + a))
        by (change (2 ^ 32) with 4294967296; lia).
      rewrite (wrap32_small ((0 * 8 + a) * 8 + b))
        by (change (2 ^ 32) with 4294967296; lia).
      rewrite wrap32_small by (change (2 ^ 32) with 4294967296; lia).
      lia. }
    split; [exact Hx|]. rewrite Hx.
    destruct (255 <? x) eqn:E; [reflexivity|].
    apply Z.ltb_ge in E.
    replace ((55296 <=? x) && (x <? 57344)) with false; [reflexivity|].
    symmetry. apply andb_false_iff. left. apply Z.leb_gt. lia.
  - intros Hd.
    destruct (escapeDigits_bad 3 8 0 s Hd) as (k & Hk & Ha & Hb & He).
    exists k. rewrite He. split; [|split; [exact Ha|split; [|reflexivity]]].
    + split; [|exact Hk]. destruct k; [|lia]. simpl in Hb.
      rewrite <- digitVal_octal in Hc. apply Z.ltb_lt in Hc. lia.
    + apply Z.ltb_ge. exact Hb.
Qed.

Lemma scanEscape_octal_witness :
  let s := advance 2 (NewScanner ([x22] ++ source "\101" ++ [x22]) true true []) in
  (ch "0" <=? char s) && (char s <=? ch "7") = true /\ dquote <> char s /\
  (digitsAhead 3 8 s = true ->
   digitsValue 3 8 0 s =
     64 * (char s - ch "0") + 8 * (char (advance 1 s) - ch "0")
     + (char (advance 2 s) - ch "0") /\
   scanEscape dquote s =
     if 255 <? 64 * (char s - ch "0") + 8 * (char (advance 1 s) - ch "0")
               + (char (advance 2 s) - ch "0")
     then (false, error (Z.of_nat (offset s)) invalid_code_point (advance 3 s))
     else (true, advance 3 s)).
Proof.
  cbv zeta. split; [vm_compute; reflexivity|].
  split; [vm_compute; discriminate|].
  apply (scanEscape_octal dquote
           (advance 2 (NewScanner ([x22] ++ source "\101" ++ [x22]) true true []))).
  - vm_compute. reflexivity.
  - vm_compute. discriminate.
Defined.

(** *** C6 *)

Lemma invalid_code_point_not_cursor (x : Msg) :
  cursor_msg x -> Msg_eqb invalid_code_point x = false.
Proof. intros [ -> | [ -> | -> ] ]; reflexivity. Qed.

Lemma advance_count_invalid (n : nat) (s : Scanner) :
  count_msg invalid_code_point (stdout (advance n s)) =
  count_msg invalid_code_point (stdout s).
Proof.
  destruct (advance_emits n s) as (new & E & F).
  rewrite (emits_stdout _ _ _ E), count_msg_app.
  rewrite (count_msg_cursor _ new invalid_code_point_not_cursor F). lia.
Qed.

Lemma error_stdout (off : Z) (msg : Msg) (s : Scanner) :
  stdout (error off msg s) = stdout s ++ [msg] /\
  ErrorCount (error off msg s) = ErrorCount s + 1.
Proof. rewrite error_eq. simpl. auto. Qed.

Lemma escapeKind_unicode (quote c : rune) (n : nat) :
  (c = ch "u" /\ n = 4%nat) \/ (c = ch "U" /\ n = 8%nat) -> quote <> c ->
  escapeKind quote c = Digits true n 16 MaxRune.
Proof.
  intros H Hq. unfold escapeKind.
  replace (existsb _ _) with false.
  - destruct H as [ [ -> -> ] | [ -> -> ] ]; reflexivity.
  - symmetry. cbn [existsb].
    repeat (apply orb_false_iff; split); try reflexivity; apply Z.eqb_neq;
      try (destruct H as [ [ -> _ ] | [ -> _ ] ]; vm_compute; discriminate).
    congruence.
Qed.

Lemma escape_digit_msg_not_invalid (c : rune) :
  Msg_eqb invalid_code_point (escape_digit_msg c) = false.
Proof. unfold escape_digit_msg. destruct (c <? 0); reflexivity. Qed.

Lemma digitsValue_number (n : nat) :
  forall a s,
    0 <= a -> (a + 1) * 16 ^ Z.of_nat n <= 2 ^ 32 ->
    digitsAhead n 16 s = true ->
    digitsValue n 16 a s =
    fold_left (fun a d => a * 16 + d) (digitsList n s) a.
Proof.
  induction n as [|k IH]; intros a s Ha Hb Hd; [reflexivity|].
  cbn [digitsAhead] in Hd. apply andb_true_iff in Hd. destruct Hd as [Hd Hk].
  apply Z.ltb_lt in Hd. pose proof (digitVal_range (char s)) as Hr.
  cbn [digitsValue digitsList fold_left].
  rewrite Nat2Z.inj_succ, Z.pow_succ_r in Hb by lia.
  assert (Hp : 0 < 16 ^ Z.of_nat k) by (apply Z.pow_pos_nonneg; lia).
  rewrite wrap32_small by nia.
  apply IH; [lia|nia|exact Hk].
Qed.

(** C6: a [\u] escape takes exactly 4 hex digits and a [\U] escape exactly
    8.  With the digits ahead, [scanEscape] consumes the letter and the
    digits; when their value is above the largest code point or a
    surrogate, it rejects the escape with exactly one "escape sequence is
    invalid Unicode code point" diagnostic, and otherwise accepts it with
    none; the value is the number the digits write in base 16.  With
    fewer digits ahead, it stops at the first character that is
    no hex digit, reports that character (or the end of the input) and
    rejects the escape, without an invalid-code-point diagnostic.  Scanning
    [\uD800] inside a string gives exactly that one diagnostic. *)
Theorem scanEscape_unicode (quote : rune) (s : Scanner) (n : nat) :
  (char s = ch "u" /\ n = 4%nat) \/ (char s = ch "U" /\ n = 8%nat) ->
  quote <> char s ->
  let x := digitsValue n 16 0 (next s) in
  let r := scanEscape quote s in
  (digitsAhead n 16 (next s) = true ->
   x = digits_number 16 (digitsList n (next s)) /\
   if (MaxRune <? x) || ((0xD800 <=? x) && (x <? 0xE000))
   then r = (false, error (Z.of_nat (offset s)) invalid_code_point
                          (advance n (next s))) /\
        stdout (snd r) = stdout (advance n (next s)) ++ [invalid_code_point] /\
        ErrorCount (snd r) = ErrorCount (advance n (next s)) + 1 /\
        count_msg invalid_code_point (stdout (snd r)) =
          S (count_msg invalid_code_point (stdout s))
   else r = (true, advance n (next s)) /\
        count_msg invalid_code_point (stdout (snd r)) =
          count_msg invalid_code_point (stdout s)) /\
  (digitsAhead n 16 (next s) = false ->
   exists k,
     (k < n)%nat /\ digitsAhead k 16 (next s) = true /\
     (digitVal (char (advance k (next s))) <? 16) = false /\
     r = (false, error (Z.of_nat (offset (advance k (next s))))
                       (escape_digit_msg (char (advance k (next s))))
                       (advance k (next s))) /\
     stdout (snd r) =
       stdout (advance k (next s))
       ++ [escape_digit_msg (char (advance k (next s)))] /\
     ErrorCount (snd r) = ErrorCount (advance k (next s)) + 1 /\
     count_msg invalid_code_point (stdout (snd r)) =
       count_msg invalid_code_point (stdout s)) /\
  (let text := [x22] ++ source "\uD800" ++ [x22] in
   exists s',
     Scan [] (NewScanner text true true []) =
       Ok (STRING, string_of_list_byte text, s') /\
     stdout s' = [invalid_code_point] /\ ErrorCount s' = 1).
Proof.
  intros Hc Hq x r. split; [|split].
  - intros Hd. split.
    { unfold x, digits_number. apply digitsValue_number; [lia| |exact Hd].
      destruct Hc as [ [_ ->] | [_ ->] ]; vm_compute; discriminate. }
    assert (Hr : r = match (if (MaxRune <? x) || ((0xD800 <=? x) && (x <? 0xE000))
                            then false else true) with
                     | false => (false, error (Z.of_nat (offset s))
                                   invalid_code_point (advance n (next s)))
                     | true => (true, advance n (next s))
                     end).
    { unfold r, scanEscape. rewrite (escapeKind_unicode quote (char s) n Hc Hq).
      rewrite (escapeDigits_good n 16 0 (next s) Hd). fold x.
      destruct ((MaxRune <? x) || ((0xD800 <=? x) && (x <? 0xE000))); reflexivity. }
    destruct ((MaxRune <? x) || ((0xD800 <=? x) && (x <? 0xE000))).
    + rewrite Hr. cbn [snd].
      destruct (error_stdout (Z.of_nat (offset s)) invalid_code_point
                  (advance n (next s))) as (E1 & E2).
      split; [reflexivity|]. split; [exact E1|]. split; [exact E2|].
      rewrite E1, count_msg_app.
      change (advance n (next s)) with (advance (S n) s).
      rewrite advance_count_invalid. cbn. lia.
    + rewrite Hr. cbn [snd]. split; [reflexivity|].
      change (advance n (next s)) with (advance (S n) s).
      apply advance_count_invalid.
  - intros Hd.
    destruct (escapeDigits_bad n 16 0 (next s) Hd) as (k & Hk & Ha & Hb & He).
    exists k. split; [exact Hk|]. split; [exact Ha|].
    split; [now apply Z.ltb_ge|].
    assert (Hr : r = (false, error (Z.of_nat (offset (advance k (next s))))
                               (escape_digit_msg (char (advance k (next s))))
                               (advance k (next s)))).
    { unfold r, scanEscape. rewrite (escapeKind_unicode quote (char s) n Hc Hq).
      rewrite He. reflexivity. }
    rewrite Hr. cbn [snd].
    destruct (error_stdout (Z.of_nat (offset (advance k (next s))))
                (escape_digit_msg (char (advance k (next s))))
                (advance k (next s))) as (E1 & E2).
    split; [reflexivity|]. split; [exact E1|]. split; [exact E2|].
    rewrite E1, count_msg_app.
    change (advance k (next s)) with (advance (S k) s).
    rewrite advance_count_invalid. unfold count_msg at 2. cbn [filter].
    rewrite escape_digit_msg_not_invalid. cbn. lia.
  - vm_compute. eexists. repeat split.
Qed.

Lemma scanEscape_unicode_witness :
  ((char at_unicode_escape = ch "u" /\ 4%nat = 4%nat) \/
   (char at_unicode_escape = ch "U" /\ 4%nat = 8%nat)) /\
  dquote <> char at_unicode_escape /\
  digitsAhead 4 16 (next at_unicode_escape) = true /\
  fst (scanEscape dquote at_unicode_escape) = false.
Proof.
  assert (H1 : (char at_unicode_escape = ch "u" /\ 4%nat = 4%nat) \/
               (char at_unicode_escape = ch "U" /\ 4%nat = 8%nat))
    by (left; split; [vm_compute; reflexivity|reflexivity]).
  assert (H2 : dquote <> char at_unicode_escape)
    by (vm_compute; discriminate).
  assert (H3 : digitsAhead 4 16 (next at_unicode_escape) = true)
    by (vm_compute; reflexivity).
  split; [exact H1|]. split; [exact H2|]. split; [exact H3|].
  destruct (scanEscape_unicode dquote at_unicode_escape 4 H1 H2) as [H _].
  destruct (H H3) as [_ H']. clear H. rename H' into H.
  replace ((MaxRune <? digitsValue 4 16 0 (next at_unicode_escape))
           || ((55296 <=? digitsValue 4 16 0 (next at_unicode_escape))
               && (digitsValue 4 16 0 (next at_unicode_escape) <? 57344)))
    with true in H by (vm_compute; reflexivity).
  destruct H as (H & _). now rewrite H.
Defined.

(** *** C7 *)

Lemma run_ext (c1 c2 : Scanner -> bool) (s s' : Scanner) :
  (forall s, c1 s = c2 s) -> run c1 s s' -> run c2 s s'.
Proof.
  intros H. induction 1 as [s Hs|s s' Hs _ IH].
  - apply run_stop. now rewrite <- H.
  - apply run_step; [now rewrite <- H|exact IH].
Qed.

Lemma float_msg_not_cursor (x : Msg) :
  cursor_msg x -> Msg_eqb float_msg x = false.
Proof. intros [ -> | [ -> | -> ] ]; reflexivity. Qed.

(** C7: when the integer part of a number ends before a [.], the [.] and
    the decimal digits behind it are consumed.  With at least one digit the
    token is a float; with none, exactly one "float has no digits after ."
    diagnostic is emitted and the token is illegal.  The literal is the text
    of the whole number either way.  [3.14] is a float without errors and
    [3.] an illegal token with that diagnostic. *)
Theorem scanNumber_float (fuel : nat) (s : Scanner) (token1 : Token)
    (s1 : Scanner) :
  WF s -> (len s - offset s <= fuel)%nat ->
  scanNumber_integer fuel (Z.of_nat (offset s)) s = Ok (token1, s1) ->
  char s1 = ch "." ->
  (exists d,
      run (fun s => isDecimal (char s)) (next s1) d /\
      offset (next s1) = (offset s1 + 1)%nat /\
      (isDecimal (char (next s1)) = true ->
       scanNumber fuel s = Ok (FLOAT, span s (offset s) (offset d), d) /\
       (offset s1 + 1 < offset d)%nat /\
       count_msg float_msg (stdout d) = count_msg float_msg (stdout s1)) /\
      (isDecimal (char (next s1)) = false ->
       d = next s1 /\
       scanNumber fuel s =
         Ok (ILLEGAL, span s (offset s) (offset s1 + 1),
             error (Z.of_nat (offset s)) float_msg (next s1)) /\
       count_msg float_msg
         (stdout (error (Z.of_nat (offset s)) float_msg (next s1))) =
         S (count_msg float_msg (stdout s1)))) /\
  (exists s', Scan [] (NewScanner (source "3.14") true true []) =
              Ok (FLOAT, "3.14"%string, s') /\ ErrorCount s' = 0) /\
  (exists s', Scan [] (NewScanner (source "3.") true true []) =
              Ok (ILLEGAL, "3."%string, s') /\
              ErrorCount s' = 1 /\ stdout s' = [float_msg]).
Proof.
  intros Hwf Hfuel H1 Hdot. split; [|split; vm_compute; eexists; repeat split].
  destruct (scanNumber_integer_ok fuel s Hwf Hfuel)
    as (n1 & t1 & s1' & H1' & R1 & _).
  rewrite H1 in H1'. injection H1' as <- <-.
  pose proof (reach_WF _ _ _ R1) as W1.
  destruct (scanNumber_fraction_ok fuel (Z.of_nat (offset s)) token1 s1 W1)
    as (n2 & t2 & s2 & H2 & R2 & _ & Hd).
  { rewrite (reach_len _ _ _ R1). pose proof (reach_offset _ _ _ R1). lia. }
  destruct (Hd Hdot) as (Hlt & n0 & d & Hrun & F0 & Hyes & Hno).
  assert (Hnext : offset (next s1) = (offset s1 + 1)%nat).
  { apply next_ascii; [exact W1|]. rewrite Hdot. ch_eval. lia. }
  pose proof (reach_trans _ _ _ _ _ R1 R2) as R.
  assert (Hnum : scanNumber fuel s = Ok (t2, span s (offset s) (offset s2), s2)).
  { unfold scanNumber. rewrite H1. cbn [bind]. rewrite H2. cbn [bind].
    rewrite text_span.
    - cbn [bind]. now rewrite (span_src s s2) by (eapply reach_src; eauto).
    - pose proof (reach_offset _ _ _ R).
      pose proof (WF_offset_le _ (reach_WF _ _ _ R)). lia. }
  destruct R2 as (E2 & _ & _).
  exists d. split; [eapply run_ext; [|exact Hrun]; intros; apply digitVal_decimal|].
  split; [exact Hnext|]. split.
  - intros Hy. destruct (Hyes Hy) as (-> & -> & ->).
    split; [exact Hnum|].
    assert (Hgt : (offset (next s1) < offset d)%nat).
    { inversion Hrun as [? Hc|? ? Hc Hr]; subst.
      - cbv beta in Hc. rewrite digitVal_decimal in Hc. congruence.
      - clear Hrun.
        assert (Hm : forall a b, run (fun s => digitVal (char s) <? 10) a b ->
                                 WF a -> (offset a <= offset b)%nat).
        { induction 1 as [|a b Hc' _ IH]; intros Wa; [lia|].
          assert (0 <= char a)
            by (apply Z.ltb_lt in Hc'; pose proof (digitVal_digit (char a)); lia).
          pose proof (next_advances a Wa H). specialize (IH (WF_next a Wa)). lia. }
        pose proof (WF_next s1 W1) as Wn.
        pose proof (isDecimal_nonneg _ Hy) as Hnn.
        pose proof (next_advances (next s1) Wn ltac:(lia)).
        specialize (Hm _ _ Hr (WF_next _ Wn)). lia. }
    split; [lia|].
    rewrite (emits_stdout _ _ _ E2), count_msg_app.
    rewrite (count_msg_cursor _ n0 float_msg_not_cursor F0). lia.
  - intros Hn. destruct (Hno Hn) as (-> & -> & -> & ->).
    split; [reflexivity|].
    assert (Ho : offset (error (Z.of_nat (offset s)) float_msg (next s1))
                 = (offset s1 + 1)%nat)
      by (rewrite <- Hnext; apply error_cursor).
    rewrite Ho in Hnum. split; [exact Hnum|].
    rewrite (emits_stdout _ _ _ E2), !count_msg_app.
    rewrite (count_msg_cursor _ n0 float_msg_not_cursor F0). cbn. lia.
Qed.

Lemma scanNumber_float_witness :
  let s := NewScanner (source "3.") true true [] in
  WF s /\ (len s - offset s <= 3)%nat /\
  scanNumber_integer 3 (Z.of_nat (offset s)) s = Ok (INT, next s) /\
  char (next s) = ch "." /\
  scanNumber 3 s =
    Ok (ILLEGAL, span s (offset s) (offset (next s) + 1),
        error (Z.of_nat (offset s)) float_msg (next (next s))).
Proof.
  cbv zeta.
  assert (H0 : WF (NewScanner (source "3.") true true []))
    by (apply WFb_WF; vm_compute; reflexivity).
  assert (H1 : (len (NewScanner (source "3.") true true [])
                - offset (NewScanner (source "3.") true true []) <= 3)%nat)
    by (vm_compute; lia).
  assert (H2 : scanNumber_integer 3
                 (Z.of_nat (offset (NewScanner (source "3.") true true [])))
                 (NewScanner (source "3.") true true []) =
               Ok (INT, next (NewScanner (source "3.") true true [])))
    by (vm_compute; reflexivity).
  assert (H3 : char (next (NewScanner (source "3.") true true [])) = ch ".")
    by (vm_compute; reflexivity).
  split; [exact H0|]. split; [exact H1|]. split; [exact H2|]. split; [exact H3|].
  destruct (scanNumber_float 3 _ INT _ H0 H1 H2 H3) as [(d & _ & _ & _ & Hno) _].
  apply Hno. vm_compute. reflexivity.
Defined.

(** *** C8 *)

(** C8: with comments suppressed, a call of [Scan] that finds a comment
    behind the white space discards it and returns what [Scan] returns
    behind the comment, which is no comment token: the comment ends where
    [comment_end] says, at least two bytes further, and nothing but the
    diagnostics of the comment is emitted on the way.  With comments
    enabled the same call returns the comment token, whose literal is the
    text of the comment.  Suppressed, no call of [Scan] returns a comment
    token.  On the source [// x], newline, [foo] the scanner returns the
    identifier [foo] and then the end of the input, with no error, when
    comments are suppressed, and the comment [// x] first when they are
    enabled ([foo] is taken not to be a keyword). *)
Theorem suppressed_comments_are_skipped (kw : list string) :
  (forall s s0,
      WF s -> run (fun s => isSpace (char s)) s s0 ->
      commentStart s0 = true ->
      exists new s2,
        comment_end s0 s2 /\ emits s0 new s2 /\ Forall comment_msg new /\
        WF s2 /\ (offset s0 + 2 <= offset s2)%nat /\
        (scanComments s = false ->
         exists token literal s',
           Scan kw s2 = Ok (token, literal, s') /\
           Scan kw s = Ok (token, literal, s') /\
           token <> COMMENT) /\
        (scanComments s = true ->
         Scan kw s = Ok (COMMENT, span s0 (offset s0) (offset s2), s2))) /\
  (forall s token literal s',
      WF s -> scanComments s = false ->
      Scan kw s = Ok (token, literal, s') -> token <> COMMENT) /\
  (existsb (String.eqb "foo") kw = false ->
   let text := source "// x" ++ [x0a] ++ source "foo" in
   (exists s',
       Scans kw 2 (NewScanner text true false []) =
         Ok ([(IDENT, "foo"%string); (EOF, EmptyString)], s') /\
       ErrorCount s' = 0) /\
   (exists s',
       Scans kw 3 (NewScanner text true true []) =
         Ok ([(COMMENT, "// x"%string); (IDENT, "foo"%string);
              (EOF, EmptyString)], s') /\
       ErrorCount s' = 0)).
Proof.
  split; [|split].
  - intros s s0 Hwf Hrun Hcs.
    destruct (Scan_skip_run kw s s0 Hwf Hrun) as (n0 & R0 & _ & Hskip).
    pose proof (reach_WF _ _ _ R0) as W0.
    pose proof (reach_len _ _ _ R0) as L0.
    assert (Hsc0 : scanComments s0 = scanComments s)
      by (destruct R0 as (E0 & _); exact (emits_scanComments _ _ _ E0)).
    destruct (scanComment_end (len s) s0 W0 ltac:(lia) Hcs)
      as (new & s2 & Hcom & R2 & F2 & O2 & He).
    pose proof (reach_WF _ _ _ R2) as W2.
    pose proof (reach_len _ _ _ R2) as L2.
    assert (Hsc2 : scanComments s2 = scanComments s).
    { destruct R2 as (E2 & _). now rewrite (emits_scanComments _ _ _ E2). }
    assert (Hbody : Scan_rec kw (S (len s)) s0 =
                    if negb (scanComments s)
                    then Scan_rec kw (len s) s2
                    else Ok (COMMENT, span s0 (offset s0) (offset s2), s2)).
    { rewrite Scan_rec_unfold, (Scan_body_comment kw _ s0 Hcs), Hcom.
      cbn [bind]. rewrite Hsc2. destruct (scanComments s); reflexivity. }
    exists new, s2. split; [exact He|]. split; [exact (proj1 R2)|].
    split; [exact F2|]. split; [exact W2|]. split; [exact O2|]. split.
    + intros Hsc. rewrite Hsc in Hbody. cbn [negb] in Hbody.
      destruct (Scan_rec_ok kw (len s) s2 W2 ltac:(lia))
        as (m0 & m1 & token & literal & t0 & s' & Hscan & _ & _ & _ & _ & _
            & Hcomm & _).
      exists token, literal, s'.
      split; [unfold Scan; rewrite L2, L0; now apply Scan_rec_mono|].
      split; [unfold Scan; rewrite Hskip, Hbody; exact Hscan|].
      intros E. specialize (Hcomm E). congruence.
    + intros Hsc. rewrite Hsc in Hbody. cbn [negb] in Hbody.
      unfold Scan. now rewrite Hskip, Hbody.
  - intros s token literal s' Hwf Hsc H.
    destruct (Scan_ok kw s Hwf)
      as (n0 & n1 & tk & lit & s0 & s1 & H1 & _ & _ & _ & _ & _ & Hcom & _).
    rewrite H1 in H. injection H as <- _ _. intros E.
    specialize (Hcom E). congruence.
  - intros Hkw text. split.
    + unfold text. revert Hkw. vm_compute. intros ->. eexists. split; reflexivity.
    + unfold text. revert Hkw. vm_compute. intros ->. eexists. split; reflexivity.
Qed.

Lemma suppressed_comments_are_skipped_witness :
  let s := NewScanner (source " /* a */ b") true false [] in
  (WF s /\ run (fun s => isSpace (char s)) s (next s) /\
   commentStart (next s) = true /\ scanComments s = false) /\
  (exists new s2,
      comment_end (next s) s2 /\ emits (next s) new s2 /\
      Forall comment_msg new /\ WF s2 /\
      (offset (next s) + 2 <= offset s2)%nat /\
      (scanComments s = false ->
       exists token literal s',
         Scan ["if"%string; "else"%string] s2 = Ok (token, literal, s') /\
         Scan ["if"%string; "else"%string] s = Ok (token, literal, s') /\
         token <> COMMENT) /\
      (scanComments s = true ->
       Scan ["if"%string; "else"%string] s =
         Ok (COMMENT, span (next s) (offset (next s)) (offset s2), s2))) /\
  existsb (String.eqb "foo") ["if"%string; "else"%string] = false /\
  exists s',
    Scans ["if"%string; "else"%string] 2
      (NewScanner (source "// x" ++ [x0a] ++ source "foo") true false []) =
      Ok ([(IDENT, "foo"%string); (EOF, EmptyString)], s') /\
    ErrorCount s' = 0.
Proof.
  cbv zeta.
  destruct (suppressed_comments_are_skipped ["if"%string; "else"%string])
    as (Hgen & _ & Hex).
  assert (Hwf : WF (NewScanner (source " /* a */ b") true false []))
    by (apply WFb_WF; vm_compute; reflexivity).
  assert (Hrun : run (fun s => isSpace (char s))
                   (NewScanner (source " /* a */ b") true false [])
                   (next (NewScanner (source " /* a */ b") true false []))).
  { apply run_step; [vm_compute; reflexivity|].
    apply run_stop. vm_compute. reflexivity. }
  assert (Hcs : commentStart
                  (next (NewScanner (source " /* a */ b") true false []))
                = true) by (vm_compute; reflexivity).
  split; [split; [exact Hwf|split; [exact Hrun|split; [exact Hcs|reflexivity]]]|].
  split; [exact (Hgen _ _ Hwf Hrun Hcs)|].
  split; [reflexivity|].
  exact (proj1 (Hex eq_refl)).
Defined.

(** *** C9 *)

(** C9, refuted as stated: on the source [a] the scanner starts with the
    read offset at 1, the length of the source; [Scan] returns the
    identifier and the read offset is still 1. *)
Lemma C9_read_offset_does_not_grow :
  let s := NewScanner (source "a") true true [] in
  char s <> eof /\ readOffset s = 1%nat /\
  exists s', Scan [] s = Ok (IDENT, "a"%string, s') /\ readOffset s' = 1%nat.
Proof.
  vm_compute. split; [discriminate|]. split; [reflexivity|].
  eexists. split; reflexivity.
Qed.

(** C9, as amended: every call of [Scan] returns a token; when the current
    code point is not the end-of-input sentinel, the call moves the current
    offset forward by at least one byte, on the error paths too (the read
    offset cannot grow once it has reached the end of the source); and from
    any state, calling [Scan] once more than there are bytes left reaches
    the end-of-input token. *)
Theorem Scan_advances_and_terminates (kw : list string) (s : Scanner) :
  WF s ->
  (exists token literal s',
      Scan kw s = Ok (token, literal, s') /\ WF s' /\
      (offset s' <= len s)%nat /\
      (char s <> eof -> (offset s < offset s')%nat)) /\
  (exists toks s',
      Scans kw (S (len s - offset s)) s = Ok (toks, s') /\
      last toks (ILLEGAL, EmptyString) = (EOF, EmptyString) /\
      char s' = eof).
Proof.
  intros Hwf. split.
  - destruct (Scan_ok kw s Hwf)
      as (n0 & n1 & tk & lit & s0 & s1 & H1 & R0 & R1 & _ & _ & _ & _ & _ & Hp & _).
    pose proof (reach_trans _ _ _ _ _ R0 R1) as R.
    exists tk, lit, s1. split; [exact H1|]. split; [eapply reach_WF; eauto|].
    split; [|exact Hp].
    rewrite <- (reach_len _ _ _ R). apply WF_offset_le. eapply reach_WF; eauto.
  - destruct (Scans_reach_eof kw (len s - offset s) s Hwf (Nat.le_refl _))
      as (toks & s' & H & He & Hl).
    exists toks, s'. auto.
Qed.

Lemma Scan_advances_and_terminates_witness :
  WF (NewScanner (source "a $") true true []) /\
  exists toks s',
    Scans [] (S (len (NewScanner (source "a $") true true [])
                 - offset (NewScanner (source "a $") true true [])))
      (NewScanner (source "a $") true true []) = Ok (toks, s') /\
    last toks (ILLEGAL, EmptyString) = (EOF, EmptyString) /\
    char s' = eof.
Proof.
  assert (H : WF (NewScanner (source "a $") true true []))
    by (apply WFb_WF; vm_compute; reflexivity).
  split; [exact H|].
  destruct (Scan_advances_and_terminates [] _ H) as [_ H'].
  exact H'.
Defined.

(** *** C10 *)

Lemma invalid_token_not_cursor (x : Msg) :
  cursor_msg x -> Msg_eqb (Text "invalid token") x = false.
Proof. intros [ -> | [ -> | -> ] ]; reflexivity. Qed.

Lemma next_quiet (s : Scanner) :
  (len s <= readOffset s)%nat \/
  0 < byteAt (src s) (readOffset s) < 0x80 ->
  stdout (next s) = stdout s /\ ErrorCount (next s) = ErrorCount s.
Proof.
  intros H. unfold next. destruct (readOffset s <? len s)%nat eqn:E.
  - apply Nat.ltb_lt in E. destruct H as [H|H]; [lia|].
    cbv zeta. change (src (set_offset (readOffset s) s)) with (src s).
    change (readOffset (set_offset (readOffset s) s)) with (readOffset s).
    replace (byteAt (src s) (readOffset s) =? 0) with false
      by (symmetry; apply Z.eqb_neq; lia).
    replace (RuneSelf <=? byteAt (src s) (readOffset s)) with false
      by (symmetry; apply Z.leb_gt; unfold RuneSelf; lia).
    split; reflexivity.
  - split; reflexivity.
Qed.

(** C10, refuted as stated: in the source of a [/] and a NUL byte, the
    call of [Scan] that returns the illegal token for the [/] reads the NUL
    and counts its diagnostic. *)
Lemma C10_slash_before_NUL_counts_an_error :
  let s := NewScanner [x2f; x00] true true [] in
  char s = ch "/" /\ ErrorCount s = 0 /\
  exists s',
    Scan [] s = Ok (ILLEGAL, EmptyString, s') /\
    ErrorCount s' = 1 /\ stdout s' = [Text "illegal character NUL"].
Proof.
  vm_compute. split; [reflexivity|]. split; [reflexivity|].
  eexists. repeat split.
Qed.

(** C10, as amended: a [/] that opens no comment, and a [.] that no digit
    follows, are consumed alone (the cursor moves one byte) and returned as
    an illegal token with the empty literal.  [Scan] emits no diagnostic of
    its own for them, no "invalid token" and no call of the handler: the
    only diagnostic there can be is the one of the cursor for the code
    point that follows, when that is a NUL, malformed UTF-8 or a byte order
    mark; the error count is unchanged when an ASCII character other than
    NUL or nothing follows.  Any other character [Scan] does not recognise
    gets exactly one "invalid token" diagnostic. *)
Theorem bare_slash_and_dot (kw : list string) (s : Scanner) :
  WF s ->
  ((char s = ch "/" /\ commentStart s = false) \/
   (char s = ch "." /\ isDecimal (peek s) = false) ->
   Scan kw s = Ok (ILLEGAL, EmptyString, next s) /\
   offset (next s) = (offset s + 1)%nat /\
   handled (next s) = handled s /\
   count_msg (Text "invalid token") (stdout (next s)) =
     count_msg (Text "invalid token") (stdout s) /\
   (exists new,
       stdout (next s) = stdout s ++ new /\
       ErrorCount (next s) = ErrorCount s + Z.of_nat (List.length new) /\
       Forall cursor_msg new /\ (List.length new <= 1)%nat) /\
   ((len s <= readOffset s)%nat \/
    0 < byteAt (src s) (readOffset s) < 0x80 ->
    stdout (next s) = stdout s /\ ErrorCount (next s) = ErrorCount s)) /\
  (isSpace (char s) = false -> isLetter (char s) = false ->
   isDecimal (char s) = false ->
   existsb (Z.eqb (char s))
     [eof; dquote; ch "`"; squote; ch "."; ch "/"; ch "@"] = false ->
   exists s',
     Scan kw s = Ok (ILLEGAL, EmptyString, s') /\
     count_msg (Text "invalid token") (stdout s') =
       S (count_msg (Text "invalid token") (stdout s))).
Proof.
  intros Hwf. split.
  - intros Hc.
    assert (Hb : Scan_body kw (S (len s)) s = Ok (Return ILLEGAL EmptyString, next s)).
    { destruct Hc as [[H1 H2]|[H1 H2]];
        [now apply Scan_body_slash|now apply Scan_body_dot]. }
    split; [now apply Scan_Return|].
    assert (Ha : 0 <= char s < 0x80)
      by (destruct Hc as [[-> _]|[-> _]]; ch_eval; lia).
    split; [now apply next_ascii|].
    destruct (next_emits s) as (new & E & F & L).
    split; [exact (emits_handled _ _ _ E)|]. split.
    { rewrite (emits_stdout _ _ _ E), count_msg_app.
      rewrite (count_msg_cursor _ new invalid_token_not_cursor F). lia. }
    split; [|apply next_quiet].
    exists new. split; [exact (emits_stdout _ _ _ E)|].
    split; [exact (emits_count _ _ _ E)|]. now split.
  - intros Hs Hl Hd Hx.
    pose proof (Scan_body_other kw (S (len s)) s Hs Hl Hd Hx) as Hb.
    eexists. split; [apply Scan_Return; exact Hb|].
    destruct (next_emits s) as (n1 & E1 & F1 & _).
    set (e := error _ _ (next s)).
    destruct (next_emits e) as (n3 & E3 & F3 & _).
    destruct (error_stdout (Z.of_nat (offset (next s))) (Text "invalid token")
                (next s)) as (E & _). fold e in E.
    rewrite (emits_stdout _ _ _ E3), E, (emits_stdout _ _ _ E1), !count_msg_app.
    rewrite (count_msg_cursor _ n1 invalid_token_not_cursor F1).
    rewrite (count_msg_cursor _ n3 invalid_token_not_cursor F3).
    cbn. lia.
Qed.

Lemma bare_slash_and_dot_witness :
  let s := NewScanner (source "/ a") true true [] in
  WF s /\
  ((char s = ch "/" /\ commentStart s = false) \/
   (char s = ch "." /\ isDecimal (peek s) = false)) /\
  Scan [] s = Ok (ILLEGAL, EmptyString, next s).
Proof.
  cbv zeta.
  assert (H : WF (NewScanner (source "/ a") true true []))
    by (apply WFb_WF; vm_compute; reflexivity).
  assert (Hc : (char (NewScanner (source "/ a") true true []) = ch "/" /\
                commentStart (NewScanner (source "/ a") true true []) = false) \/
               (char (NewScanner (source "/ a") true true []) = ch "." /\
                isDecimal (peek (NewScanner (source "/ a") true true [])) = false))
    by (left; split; vm_compute; reflexivity).
  split; [exact H|]. split; [exact Hc|].
  destruct (bare_slash_and_dot [] _ H) as [H' _].
  destruct (H' Hc) as [H'' _]. exact H''.
Defined.

(** ** Further properties of the scanner *)

(** *** The cursor *)

Lemma Scans_emits (kw : list string) (n : nat) :
  forall s toks s',
    WF s -> Scans kw n s = Ok (toks, s') -> exists new, emits s new s'.
Proof.
  induction n as [|k IH]; intros s toks s' Hwf H; simpl in H.
  - injection H as _ <-. exists []. apply emits_refl.
  - apply bind_Ok in H. destruct H as ([[tk lit] s1] & E1 & H).
    apply bind_Ok in H. destruct H as ([rest s2] & E2 & H).
    injection H as _ <-.
    destruct (Scan_ok kw s Hwf)
      as (n0 & n1 & tk' & lit' & s0 & s1' & H1 & R0 & R1 & _).
    rewrite E1 in H1. injection H1 as _ _ <-.
    destruct (reach_trans _ _ _ _ _ R0 R1) as (Ea & Wa & _).
    destruct (IH s1 rest s2 Wa E2) as (m & Eb).
    exists ((n0 ++ n1) ++ m). eapply emits_trans; eauto.
Qed.

Lemma NewScanner_emits (source : list byte) (handler scanComment : bool)
    (flagNames : list string) :
  let s := NewScanner source handler scanComment flagNames in
  src s = source /\ err s = handler /\ scanComments s = scanComment /\
  handled s = [] /\ ErrorCount s = Z.of_nat (List.length (stdout s)).
Proof.
  unfold NewScanner. cbv zeta.
  set (s0 := mkScanner source handler 0 scanComment [] false (ch " ") 0 0 0 [] []).
  assert (H : exists new,
             emits s0 new (if char (next s0) =? bom then next (next s0)
                           else next s0)).
  { destruct (next_emits s0) as (n1 & E1 & _).
    destruct (char (next s0) =? bom).
    - destruct (next_emits (next s0)) as (n2 & E2 & _).
      exists (n1 ++ n2). eapply emits_trans; eauto.
    - now exists n1. }
  destruct H as (new & E). cbn [src err scanComments handled ErrorCount stdout].
  rewrite (emits_src _ _ _ E), (emits_err _ _ _ E),
    (emits_scanComments _ _ _ E), (emits_handled _ _ _ E),
    (emits_stdout _ _ _ E), (emits_count _ _ _ E).
  repeat split.
Qed.

(** X1: in every state the scanner reaches, from any source and after any
    number of calls of [Scan], the offsets are ordered
    [offset <= readOffset <= len(src)]; the current code point is the
    end-of-input sentinel with the offset at the end of the source, or it is
    the code point decoded at [offset], which [readOffset] follows
    directly; the source is untouched, the error count is the number of
    diagnostics printed and the handler has never been called. *)
Theorem reachable_states_keep_the_cursor_invariant (kw : list string)
    (source : list byte) (handler scanComment : bool)
    (flagNames : list string) (n : nat) (toks : list (Token * string))
    (s : Scanner) :
  Scans kw n (NewScanner source handler scanComment flagNames) = Ok (toks, s) ->
  src s = source /\
  (offset s <= readOffset s <= len s)%nat /\
  ((char s = eof /\ offset s = len s) \/
   ((offset s < len s)%nat /\
    decodeAt source (offset s) = (char s, (readOffset s - offset s)%nat) /\
    0 <= char s)) /\
  ErrorCount s = Z.of_nat (List.length (stdout s)) /\
  handled s = [].
Proof.
  intros H.
  pose proof (NewScanner_WF source handler scanComment flagNames) as W0.
  destruct (NewScanner_emits source handler scanComment flagNames)
    as (S0 & _ & _ & H0 & C0).
  destruct (Scans_WF kw n _ _ _ W0 H) as (Hwf & Hsrc & _).
  destruct (Scans_emits kw n _ _ _ W0 H) as (new & E).
  rewrite S0 in Hsrc. split; [exact Hsrc|].
  pose proof (WF_char s Hwf) as Hc.
  destruct Hwf as (Hle & [(He & Ho & Hr)|(Ho & Hch & Hr)]).
  - split; [lia|]. split; [left; auto|].
    split; [|rewrite (emits_handled _ _ _ E); exact H0].
    rewrite (emits_count _ _ _ E), (emits_stdout _ _ _ E), length_app, C0. lia.
  - pose proof (decodeAt_spec (src s) (offset s) Ho) as (Hw & Hnn & _).
    split; [lia|]. split.
    + right. split; [exact Ho|]. rewrite <- Hsrc. split.
      * rewrite (surjective_pairing (decodeAt (src s) (offset s))).
        f_equal; [now symmetry|lia].
      * rewrite Hch. exact Hnn.
    + split; [|rewrite (emits_handled _ _ _ E); exact H0].
      rewrite (emits_count _ _ _ E), (emits_stdout _ _ _ E), length_app, C0. lia.
Qed.

Lemma reachable_states_keep_the_cursor_invariant_witness :
  Scans [] 2 (NewScanner (source "a 0") true true []) =
    Ok ([(IDENT, "a"%string); (ILLEGAL, "0"%string)],
        error 2 (Text "invalid integer")
              (advance 3 (NewScanner (source "a 0") true true []))) /\
  ErrorCount (error 2 (Text "invalid integer")
                    (advance 3 (NewScanner (source "a 0") true true []))) =
  Z.of_nat (List.length
              (stdout (error 2 (Text "invalid integer")
                             (advance 3 (NewScanner (source "a 0") true true []))))).
Proof.
  assert (H : Scans [] 2 (NewScanner (source "a 0") true true []) =
              Ok ([(IDENT, "a"%string); (ILLEGAL, "0"%string)],
                  error 2 (Text "invalid integer")
                        (advance 3 (NewScanner (source "a 0") true true []))))
    by (vm_compute; reflexivity).
  split; [exact H|].
  destruct (reachable_states_keep_the_cursor_invariant
              [] (source "a 0") true true [] 2 _ _ H) as (_ & _ & _ & Hc & _).
  exact Hc.
Defined.

(** X2: a byte order mark is silent only as the very first code point:
    when [next] decodes one at offset 0 it emits nothing, and anywhere else
    it emits exactly "illegal byte order mark"; the mark becomes the current
    code point either way. *)
Theorem next_byte_order_mark (s : Scanner) :
  (readOffset s < len s)%nat ->
  fst (decodeAt (src s) (readOffset s)) = bom ->
  char (next s) = bom /\
  offset (next s) = readOffset s /\
  (readOffset s = 0%nat ->
   stdout (next s) = stdout s /\ ErrorCount (next s) = ErrorCount s) /\
  ((0 < readOffset s)%nat ->
   stdout (next s) = stdout s ++ [Text "illegal byte order mark"] /\
   ErrorCount (next s) = ErrorCount s + 1).
Proof.
  intros Hlt Hb.
  destruct (next_cursor s Hlt) as (_ & Ho & Hc & _).
  split; [now rewrite Hc|]. split; [exact Ho|].
  revert Hb. unfold next, decodeAt. cbv zeta.
  apply Nat.ltb_lt in Hlt. rewrite Hlt.
  change (src (set_offset (readOffset s) s)) with (src s).
  change (readOffset (set_offset (readOffset s) s)) with (readOffset s).
  destruct (RuneSelf <=? byteAt (src s) (readOffset s)) eqn:E.
  - replace (byteAt (src s) (readOffset s) =? 0) with false
      by (symmetry; apply Z.eqb_neq; apply Z.leb_le in E; unfold RuneSelf in E; lia).
    destruct (utf8.DecodeRune _) as [r w]. cbn [fst]. intros ->.
    change (bom =? RuneError) with false. cbn [andb].
    change (bom =? bom) with true. cbn [andb].
    change (offset (set_offset (readOffset s) s)) with (readOffset s).
    split; intros H.
    + rewrite H. cbn. auto.
    + replace (0 <? readOffset s)%nat with true
        by (symmetry; now apply Nat.ltb_lt).
      rewrite error_eq. cbn. auto.
  - cbn [fst]. intros Hb. apply Z.leb_gt in E. unfold RuneSelf, bom in *. lia.
Qed.

Lemma next_byte_order_mark_witness :
  let s := NewScanner ([x61; xef; xbb; xbf]) true true [] in
  (readOffset s < len s)%nat /\
  fst (decodeAt (src s) (readOffset s)) = bom /\
  ((0 < readOffset s)%nat ->
   stdout (next s) = stdout s ++ [Text "illegal byte order mark"] /\
   ErrorCount (next s) = ErrorCount s + 1).
Proof.
  cbv zeta.
  assert (H1 : (readOffset (NewScanner ([x61; xef; xbb; xbf]) true true [])
                < len (NewScanner ([x61; xef; xbb; xbf]) true true []))%nat)
    by (vm_compute; lia).
  assert (H2 : fst (decodeAt (src (NewScanner ([x61; xef; xbb; xbf]) true true []))
                      (readOffset (NewScanner ([x61; xef; xbb; xbf]) true true [])))
               = bom)
    by (vm_compute; reflexivity).
  split; [exact H1|]. split; [exact H2|].
  destruct (next_byte_order_mark _ H1 H2) as (_ & _ & _ & H). exact H.
Defined.

(** X3: an illegal byte never stops the cursor.  On a NUL byte [next]
    emits "illegal character NUL", on a byte that cannot start a UTF-8
    sequence (0x80 to 0xC1, 0xF5 to 0xFF) it emits "illegal UTF-8 encoding"
    and the current code point becomes the replacement character; in both
    cases exactly one diagnostic is emitted and the read offset moves one
    byte. *)
Theorem next_illegal_byte_advances_one_byte (s : Scanner) :
  (readOffset s < len s)%nat ->
  let b := byteAt (src s) (readOffset s) in
  (b = 0 ->
   char (next s) = 0 /\ readOffset (next s) = (readOffset s + 1)%nat /\
   offset (next s) = readOffset s /\
   stdout (next s) = stdout s ++ [Text "illegal character NUL"] /\
   ErrorCount (next s) = ErrorCount s + 1) /\
  (0x80 <= b < 0xC2 \/ 0xF5 <= b ->
   char (next s) = RuneError /\ readOffset (next s) = (readOffset s + 1)%nat /\
   offset (next s) = readOffset s /\
   stdout (next s) = stdout s ++ [Text "illegal UTF-8 encoding"] /\
   ErrorCount (next s) = ErrorCount s + 1).
Proof.
  intros Hlt b. unfold next. cbv zeta.
  pose proof Hlt as Hlt'. apply Nat.ltb_lt in Hlt'. rewrite Hlt'.
  change (src (set_offset (readOffset s) s)) with (src s).
  change (readOffset (set_offset (readOffset s) s)) with (readOffset s).
  fold b. split.
  - intros ->. change (0 =? 0) with true. cbv iota. rewrite error_eq.
    cbn. repeat split.
  - intros Hb.
    replace (b =? 0) with false by (symmetry; apply Z.eqb_neq; lia).
    replace (RuneSelf <=? b) with true
      by (symmetry; apply Z.leb_le; unfold RuneSelf; lia).
    assert (Hd : utf8.DecodeRune (skipn (readOffset s) (src s)) = (RuneError, 1%nat)).
    { unfold utf8.DecodeRune.
      destruct (skipn (readOffset s) (src s)) as [|c0 t] eqn:Es.
      - exfalso. apply (f_equal (@List.length _)) in Es.
        rewrite length_skipn in Es. simpl in Es. unfold len in Hlt. lia.
      - rewrite <- Es. cbv zeta.
        assert (Hb0 : byteAt (skipn (readOffset s) (src s)) 0 = b).
        { unfold byteAt. rewrite nth_skipn, Nat.add_0_r. reflexivity. }
        rewrite Hb0.
        assert (Hf : utf8.first b = 0xF1).
        { pose proof (byteAt_range (src s) (readOffset s)) as Hr. fold b in Hr.
          unfold utf8.first.
          repeat match goal with
                 | |- context [if ?c then _ else _] => destruct c eqn:?
                 end; bool_hyps; try reflexivity; lia. }
        rewrite Hf. reflexivity. }
    rewrite Hd. change ((RuneError =? RuneError) && (1 =? 1)%nat) with true.
    cbv iota. rewrite error_eq. cbn. repeat split.
Qed.

Lemma next_illegal_byte_advances_one_byte_witness :
  let s := NewScanner ([x61; xff; x62]) true true [] in
  (readOffset s < len s)%nat /\
  (0x80 <= byteAt (src s) (readOffset s) < 0xC2 \/
   0xF5 <= byteAt (src s) (readOffset s)) /\
  char (next s) = RuneError /\ readOffset (next s) = (readOffset s + 1)%nat.
Proof.
  cbv zeta.
  assert (H1 : (readOffset (NewScanner ([x61; xff; x62]) true true [])
                < len (NewScanner ([x61; xff; x62]) true true []))%nat)
    by (vm_compute; lia).
  assert (H2 : 0x80 <= byteAt (src (NewScanner ([x61; xff; x62]) true true []))
                         (readOffset (NewScanner ([x61; xff; x62]) true true []))
               < 0xC2 \/
               0xF5 <= byteAt (src (NewScanner ([x61; xff; x62]) true true []))
                         (readOffset (NewScanner ([x61; xff; x62]) true true [])))
    by (right; vm_compute; discriminate).
  split; [exact H1|]. split; [exact H2|].
  destruct (next_illegal_byte_advances_one_byte _ H1) as [_ H].
  destruct (H H2) as (Ha & Hb & _). split; [exact Ha|exact Hb].
Defined.

(** *** Meta names and unrecognised characters *)

Lemma Scan_body_at_sign (kw : list string) (fuel : nat) (s : Scanner) :
  char s = ch "@" ->
  Scan_body kw fuel s =
  if isLetter (char (next s)) then
    bind (scanIdentifier fuel (next s))
         (fun x => let '(literal, s) := x in Ok (Return META literal, s))
  else
    Ok (Return ILLEGAL EmptyString,
        error (Z.of_nat (offset (next s))) (Text "invalid meta name") (next s)).
Proof.
  intros H. unfold Scan_body.
  rewrite advance_while_false by (cbv beta; rewrite H; reflexivity).
  cbn [bind]. rewrite H. reflexivity.
Qed.

(** X4: an [@] before a letter gives a [META] token whose literal is the
    identifier behind the [@], without the [@]; an [@] before anything else
    gives an illegal token with the empty literal and exactly the
    diagnostic "invalid meta name", and only the [@] is consumed. *)
Theorem meta_name (kw : list string) (s : Scanner) :
  WF s -> char s = ch "@" ->
  (isLetter (char (next s)) = true ->
   exists s',
     Scan kw s = Ok (META, span s (offset s + 1) (offset s'), s') /\
     run (fun s => isLetter (char s) || isDecimal (char s)) (next s) s' /\
     (offset s + 1 < offset s')%nat) /\
  (isLetter (char (next s)) = false ->
   Scan kw s =
     Ok (ILLEGAL, EmptyString,
         error (Z.of_nat (offset s + 1)) (Text "invalid meta name") (next s)) /\
   offset (next s) = (offset s + 1)%nat).
Proof.
  intros Hwf Hc.
  destruct (next_ascii s Hwf) as (Ho & Hs & Hw & Hl); [rewrite Hc; ch_eval; lia|].
  split; intros HL.
  - destruct (scanIdentifier_ok (S (len s)) (next s) Hw)
      as (new & s' & H & R & _ & Hrun & Hadv); [rewrite Hl; lia|].
    exists s'. split; [|split; [exact Hrun|rewrite <- Ho; auto]].
    apply Scan_Return. rewrite (Scan_body_at_sign kw _ s Hc), HL, H.
    cbn [bind]. now rewrite Ho, (span_src s (next s)) by exact Hs.
  - split; [|exact Ho]. apply Scan_Return.
    rewrite (Scan_body_at_sign kw _ s Hc), HL, Ho. reflexivity.
Qed.

Lemma meta_name_witness :
  let s := NewScanner (source "@ x") true true [] in
  WF s /\ char s = ch "@" /\ isLetter (char (next s)) = false /\
  Scan [] s =
    Ok (ILLEGAL, EmptyString,
        error (Z.of_nat (offset s + 1)) (Text "invalid meta name") (next s)).
Proof.
  cbv zeta.
  assert (H1 : WF (NewScanner (source "@ x") true true []))
    by (apply WFb_WF; vm_compute; reflexivity).
  assert (H2 : char (NewScanner (source "@ x") true true []) = ch "@")
    by (vm_compute; reflexivity).
  assert (H3 : isLetter (char (next (NewScanner (source "@ x") true true [])))
               = false) by (vm_compute; reflexivity).
  split; [exact H1|]. split; [exact H2|]. split; [exact H3|].
  destruct (meta_name [] _ H1 H2) as [_ H]. destruct (H H3) as [H' _]. exact H'.
Defined.

Lemma next_after_error (off : Z) (msg : Msg) (s : Scanner) :
  char (next (error off msg s)) = char (next s) /\
  offset (next (error off msg s)) = offset (next s) /\
  readOffset (next (error off msg s)) = readOffset (next s).
Proof.
  rewrite error_eq. unfold next. cbv zeta.
  change (readOffset (count_error (Println msg s))) with (readOffset s).
  change (len (count_error (Println msg s))) with (len s).
  destruct (readOffset s <? len s)%nat; [|repeat split].
  change (src (set_offset (readOffset s) (count_error (Println msg s))))
    with (src s).
  change (src (set_offset (readOffset s) s)) with (src s).
  change (readOffset (set_offset (readOffset s) (count_error (Println msg s))))
    with (readOffset s).
  change (readOffset (set_offset (readOffset s) s)) with (readOffset s).
  change (offset (set_offset (readOffset s) (count_error (Println msg s))))
    with (readOffset s).
  change (offset (set_offset (readOffset s) s)) with (readOffset s).
  destruct (byteAt (src s) (readOffset s) =? 0);
    [rewrite !error_eq; repeat split|].
  destruct (RuneSelf <=? byteAt (src s) (readOffset s)); [|repeat split].
  destruct (utf8.DecodeRune _) as [r w].
  destruct ((r =? RuneError) && (w =? 1)%nat);
    [rewrite !error_eq; repeat split|].
  destruct ((r =? bom) && (0 <? readOffset s)%nat);
    [rewrite !error_eq; repeat split|repeat split].
Qed.

(** X5: a character that starts no token is reported as "invalid token" and
    consumed together with the code point behind it: the cursor ends two
    code points further, so the code point that follows an unrecognised
    character is never scanned as part of a token.  The token is illegal
    with the empty literal, and "invalid token" is the only diagnostic
    besides those of the cursor. *)
Theorem unrecognised_character_consumes_two (kw : list string) (s : Scanner) :
  isSpace (char s) = false -> isLetter (char s) = false ->
  isDecimal (char s) = false ->
  existsb (Z.eqb (char s))
    [eof; dquote; ch "`"; squote; ch "."; ch "/"; ch "@"] = false ->
  exists s' n1 n2,
    Scan kw s = Ok (ILLEGAL, EmptyString, s') /\
    char s' = char (advance 2 s) /\
    offset s' = offset (advance 2 s) /\
    readOffset s' = readOffset (advance 2 s) /\
    emits s (n1 ++ [Text "invalid token"] ++ n2) s' /\
    Forall cursor_msg n1 /\ Forall cursor_msg n2.
Proof.
  intros Hs Hl Hd Hx.
  destruct (next_emits s) as (n1 & E1 & F1 & _).
  destruct (next_emits (error (Z.of_nat (offset (next s)))
                          (Text "invalid token") (next s)))
    as (n2 & E2 & F2 & _).
  eexists _, n1, n2. split.
  - apply Scan_Return. now apply Scan_body_other.
  - destruct (next_after_error (Z.of_nat (offset (next s)))
                (Text "invalid token") (next s)) as (Hc & Ho & Hr).
    split; [exact Hc|]. split; [exact Ho|]. split; [exact Hr|].
    split; [|now split].
    eapply emits_trans; [exact E1|].
    eapply emits_trans; [apply emits_error|exact E2].
Qed.

Lemma unrecognised_character_consumes_two_witness :
  let s := NewScanner (source "$a") true true [] in
  isSpace (char s) = false /\ isLetter (char s) = false /\
  isDecimal (char s) = false /\
  existsb (Z.eqb (char s))
    [eof; dquote; ch "`"; squote; ch "."; ch "/"; ch "@"] = false /\
  exists s' n1 n2,
    Scan [] s = Ok (ILLEGAL, EmptyString, s') /\
    char s' = char (advance 2 s) /\
    offset s' = offset (advance 2 s) /\
    readOffset s' = readOffset (advance 2 s) /\
    emits s (n1 ++ [Text "invalid token"] ++ n2) s' /\
    Forall cursor_msg n1 /\ Forall cursor_msg n2.
Proof.
  cbv zeta. split; [vm_compute; reflexivity|]. split; [vm_compute; reflexivity|].
  split; [vm_compute; reflexivity|]. split; [vm_compute; reflexivity|].
  apply (unrecognised_character_consumes_two []
           (NewScanner (source "$a") true true []));
    vm_compute; reflexivity.
Defined.

(** *** Digits *)

(** X6: [digitVal] is the value of a hexadecimal digit, in either case, and
    16 for every other rune, negative and non-ASCII ones included: the
    lower-casing by [or] with 0x20 lets no other character pass for a
    digit. *)
Theorem digitVal_hex (c : rune) :
  digitVal c =
  if isDecimal c then c - ch "0"
  else if (ch "a" <=? c) && (c <=? ch "f") then c - ch "a" + 10
  else if (ch "A" <=? c) && (c <=? ch "F") then c - ch "A" + 10
  else 16.
Proof.
  destruct (Z.neg_nonneg_cases c) as [Hn|Hp].
  - unfold digitVal, isDecimal, lower. ch_eval. change (97 - 65) with 32.
    assert (Z.lor 32 c < 0) by (apply Z.lor_neg; lia).
    repeat match goal with
           | |- context [if ?b then _ else _] => destruct b eqn:?
           end; bool_hyps; try reflexivity; lia.
  - destruct (Z.lt_ge_cases c 128) as [Hlt|Hge].
    + apply Z.eqb_eq.
      apply (range_check
               (fun c => digitVal c =?
                         (if isDecimal c then c - ch "0"
                          else if (ch "a" <=? c) && (c <=? ch "f")
                               then c - ch "a" + 10
                               else if (ch "A" <=? c) && (c <=? ch "F")
                                    then c - ch "A" + 10
                                    else 16)) 128);
        [vm_compute; reflexivity|lia].
    + unfold digitVal, isDecimal, lower. ch_eval. change (97 - 65) with 32.
      pose proof (lor_ge_r 32 c ltac:(lia) Hp).
      repeat match goal with
             | |- context [if ?b then _ else _] => destruct b eqn:?
             end; bool_hyps; try reflexivity; lia.
Qed.

(** *** Numbers *)

(** X7: a number that starts with [0] must go on with [x], [b], [o] (in
    either case) or [.]: before anything else, a further digit or the end
    of the input included, [scanNumber] consumes the [0] alone, reports
    "invalid integer" and returns an illegal token with the literal [0]. *)
Theorem leading_zero_needs_a_base (fuel : nat) (s : Scanner) :
  WF s -> char s = ch "0" -> char (next s) <> ch "." ->
  lower (char (next s)) <> ch "x" -> lower (char (next s)) <> ch "b" ->
  lower (char (next s)) <> ch "o" ->
  scanNumber fuel s =
    Ok (ILLEGAL, span s (offset s) (offset s + 1),
        error (Z.of_nat (offset s)) (Text "invalid integer") (next s)) /\
  list_byte_of_string (span s (offset s) (offset s + 1)) = [x30].
Proof.
  intros Hwf H0 Hdot Hx Hb Ho.
  assert (Ha : 0 <= char s < 0x80) by (rewrite H0; ch_eval; lia).
  destruct (next_ascii s Hwf Ha) as (Hoff & Hs & Hw & Hl).
  destruct (WF_ascii s Hwf Ha) as (_ & Hbyte & Hlt).
  split.
  - unfold scanNumber, scanNumber_integer. rewrite H0.
    change (negb (ch "0" =? ch ".")) with true.
    change (ch "0" =? ch "0") with true. cbv iota zeta.
    apply Z.eqb_neq in Hdot, Hx, Hb, Ho. rewrite Hdot, Hx, Hb, Ho.
    cbn [negb orb bind]. unfold scanNumber_fraction.
    destruct (error_cursor (Z.of_nat (offset s)) (Text "invalid integer") (next s))
      as (Ec & Eo & _ & Es).
    rewrite Ec, Hdot. cbn [bind]. rewrite Eo, Hoff.
    rewrite text_span.
    + cbn [bind]. now rewrite (span_src s _) by (rewrite Es; exact Hs).
    + unfold len. rewrite Es, Hs. fold (len s). lia.
  - rewrite span_bytes.
    replace (offset s + 1 - offset s)%nat with 1%nat by lia.
    assert (Hn : nth (offset s) (src s) x00 = x30).
    { unfold byteAt, rune_of_byte in Hbyte. rewrite H0 in Hbyte.
      apply (f_equal Z.to_N) in Hbyte. rewrite N2Z.id in Hbyte.
      apply (f_equal Byte.of_N) in Hbyte. rewrite Byte.of_to_N in Hbyte.
      injection Hbyte as ->. reflexivity. }
    rewrite <- Hn. clear - Hlt. unfold len in Hlt.
    revert Hlt. generalize (offset s). generalize (src s).
    induction l as [|a l IH]; intros [|n] H; simpl in *; try lia.
    + reflexivity.
    + apply IH. lia.
Qed.

Lemma leading_zero_needs_a_base_witness :
  let s := NewScanner (source "07") true true [] in
  WF s /\ char s = ch "0" /\ char (next s) <> ch "." /\
  lower (char (next s)) <> ch "x" /\ lower (char (next s)) <> ch "b" /\
  lower (char (next s)) <> ch "o" /\
  scanNumber 3 s =
    Ok (ILLEGAL, span s (offset s) (offset s + 1),
        error (Z.of_nat (offset s)) (Text "invalid integer") (next s)).
Proof.
  cbv zeta.
  assert (H1 : WF (NewScanner (source "07") true true []))
    by (apply WFb_WF; vm_compute; reflexivity).
  assert (H2 : char (NewScanner (source "07") true true []) = ch "0")
    by (vm_compute; reflexivity).
  assert (H3 : char (next (NewScanner (source "07") true true [])) <> ch ".")
    by (vm_compute; discriminate).
  assert (H4 : lower (char (next (NewScanner (source "07") true true [])))
               <> ch "x") by (vm_compute; discriminate).
  assert (H5 : lower (char (next (NewScanner (source "07") true true [])))
               <> ch "b") by (vm_compute; discriminate).
  assert (H6 : lower (char (next (NewScanner (source "07") true true [])))
               <> ch "o") by (vm_compute; discriminate).
  split; [exact H1|]. split; [exact H2|]. split; [exact H3|].
  split; [exact H4|]. split; [exact H5|]. split; [exact H6|].
  destruct (leading_zero_needs_a_base 3 _ H1 H2 H3 H4 H5 H6) as [H _]. exact H.
Defined.

(** X8: a base prefix needs a digit of its base.  When [0x], [0b] or [0o]
    (in either case) is followed by a code point that is neither such a
    digit nor a [.], [scanNumber] consumes the two characters of the prefix
    only, reports "illegal number" and returns an illegal token. *)
Theorem base_prefix_needs_a_digit (fuel : nat) (s : Scanner) (base : Z) :
  WF s -> char s = ch "0" ->
  (lower (char (next s)) = ch "x" /\ base = 16) \/
  (lower (char (next s)) = ch "b" /\ base = 2) \/
  (lower (char (next s)) = ch "o" /\ base = 8) ->
  base <= digitVal (char (advance 2 s)) ->
  char (advance 2 s) <> ch "." ->
  scanNumber fuel s =
    Ok (ILLEGAL, span s (offset s) (offset s + 2),
        error (Z.of_nat (offset s)) (Text "illegal number") (advance 2 s)).
Proof.
  intros Hwf H0 Hp Hd Hdot. cbn [advance] in *.
  assert (Ha : 0 <= char s < 0x80) by (rewrite H0; ch_eval; lia).
  destruct (next_ascii s Hwf Ha) as (Hoff & Hs & Hw & Hl).
  assert (Ha1 : 0 <= char (next s) < 0x80).
  { apply lower_range. revert Hp. ch_eval. intros [[-> _]|[[-> _]|[-> _]]]; lia. }
  destruct (next_ascii (next s) Hw Ha1) as (Hoff2 & Hs2 & Hw2 & Hl2).
  assert (Hnd : char (next s) <> ch ".").
  { intros E. rewrite E in Hp. revert Hp. vm_compute.
    intros [[? _]|[[? _]|[? _]]]; discriminate. }
  unfold scanNumber, scanNumber_integer. rewrite H0.
  change (negb (ch "0" =? ch ".")) with true.
  change (ch "0" =? ch "0") with true. cbv iota zeta.
  apply Z.eqb_neq in Hnd. rewrite Hnd. cbn [negb].
  assert (Hbase : (if lower (char (next s)) =? ch "x" then 16
                   else if lower (char (next s)) =? ch "b" then 2 else 8) = base
                  /\ (lower (char (next s)) =? ch "x")
                     || (lower (char (next s)) =? ch "b")
                     || (lower (char (next s)) =? ch "o") = true).
  { destruct Hp as [[-> ->]|[[-> ->]|[-> ->]]]; split; reflexivity. }
  destruct Hbase as (-> & ->).
  unfold scanDigits.
  rewrite advance_while_false by (cbv beta; apply Z.ltb_ge; exact Hd).
  cbn [bind]. rewrite Hoff2, Hoff.
  replace (Z.of_nat (offset s + 1 + 1) - Z.of_nat (offset s) <=? 2) with true
    by (symmetry; apply Z.leb_le; lia).
  destruct (error_cursor (Z.of_nat (offset s)) (Text "illegal number")
              (next (next s))) as (Ec & Eo & _ & Es).
  apply Z.eqb_neq in Hdot. rewrite Ec, Hdot. cbn [bind].
  unfold scanNumber_fraction. rewrite Ec, Hdot. cbn [bind].
  rewrite Eo, Hoff2, Hoff.
  replace (offset s + 1 + 1)%nat with (offset s + 2)%nat by lia.
  rewrite text_span.
  - cbn [bind]. now rewrite (span_src s _) by (rewrite Es, Hs2; exact Hs).
  - unfold len. rewrite Es, Hs2, Hs. fold (len s).
    pose proof (WF_offset_le _ Hw2). rewrite Hoff2, Hoff, Hl2, Hl in H. lia.
Qed.

Lemma base_prefix_needs_a_digit_witness :
  let s := NewScanner (source "0x") true true [] in
  WF s /\ char s = ch "0" /\
  ((lower (char (next s)) = ch "x" /\ 16 = 16) \/
   (lower (char (next s)) = ch "b" /\ 16 = 2) \/
   (lower (char (next s)) = ch "o" /\ 16 = 8)) /\
  16 <= digitVal (char (advance 2 s)) /\
  char (advance 2 s) <> ch "." /\
  scanNumber 3 s =
    Ok (ILLEGAL, span s (offset s) (offset s + 2),
        error (Z.of_nat (offset s)) (Text "illegal number") (advance 2 s)).
Proof.
  cbv zeta.
  assert (H1 : WF (NewScanner (source "0x") true true []))
    by (apply WFb_WF; vm_compute; reflexivity).
  assert (H2 : char (NewScanner (source "0x") true true []) = ch "0")
    by (vm_compute; reflexivity).
  assert (H3 : (lower (char (next (NewScanner (source "0x") true true [])))
                = ch "x" /\ 16 = 16) \/
               (lower (char (next (NewScanner (source "0x") true true [])))
                = ch "b" /\ 16 = 2) \/
               (lower (char (next (NewScanner (source "0x") true true [])))
                = ch "o" /\ 16 = 8))
    by (left; split; vm_compute; reflexivity).
  assert (H4 : 16 <= digitVal (char (advance 2 (NewScanner (source "0x") true true []))))
    by (vm_compute; discriminate).
  assert (H5 : char (advance 2 (NewScanner (source "0x") true true [])) <> ch ".")
    by (vm_compute; discriminate).
  split; [exact H1|]. split; [exact H2|]. split; [exact H3|].
  split; [exact H4|]. split; [exact H5|].
  exact (base_prefix_needs_a_digit 3 _ 16 H1 H2 H3 H4 H5).
Defined.

(** *** Comments *)

(** X9: a line comment ends before the newline: [scanComment], called
    behind the first [/] with the second one current, stops at a newline or
    at the end of the input, emits no diagnostic of its own and returns the
    text from the first [/] to that point. *)
Theorem line_comment_stops_before_newline (fuel : nat) (s : Scanner) :
  WF s -> (len s - offset s <= fuel)%nat -> (1 <= offset s)%nat ->
  char s = ch "/" ->
  exists new s',
    scanComment fuel s = Ok (span s (offset s - 1) (offset s'), s') /\
    (char s' = 10 \/ char s' = eof) /\
    (offset s < offset s')%nat /\
    emits s new s' /\ Forall cursor_msg new.
Proof.
  intros Hwf Hfuel Ho Hc. unfold scanComment. rewrite Hc.
  change (ch "/" =? ch "/") with true. cbv iota.
  assert (Ha : 0 <= char s) by (rewrite Hc; ch_eval; lia).
  pose proof (next_advances s Hwf Ha) as Hadv.
  destruct (next_reach s Hwf) as (n1 & R1 & F1 & _).
  destruct (advance_while_ok
              (fun s => negb (char s =? 10) && (0 <=? char s))) with
    (fuel := fuel) (s := next s) as (n2 & s' & Hrun & R2 & F2 & Hr & _).
  { intros s0 H. bool_hyps. lia. }
  { eapply reach_WF; eauto. }
  { rewrite (reach_len _ _ _ R1). lia. }
  pose proof (reach_trans _ _ _ _ _ R1 R2) as R.
  pose proof (reach_offset _ _ _ R2) as O2.
  exists (n1 ++ n2), s'. rewrite Hrun. cbn [bind].
  rewrite text_span_pred;
    [|lia|apply WF_offset_le; eapply reach_WF; eauto].
  cbn [bind]. rewrite (span_src s s') by (eapply reach_src; eauto).
  split; [reflexivity|]. split.
  - pose proof (run_end _ _ _ Hr) as He. cbv beta in He.
    apply andb_false_iff in He. destruct He as [He|He].
    + left. bool_hyps. exact He.
    + right. bool_hyps.
      destruct (WF_char s' (reach_WF _ _ _ R)) as [E|E]; [exact E|lia].
  - split; [lia|]. split; [exact (proj1 R)|now apply Forall_app].
Qed.

Lemma line_comment_stops_before_newline_witness :
  let s := next (NewScanner (source "// x" ++ [x0a] ++ source "y") true true []) in
  WF s /\ (len s - offset s <= 7)%nat /\ (1 <= offset s)%nat /\
  char s = ch "/" /\
  exists new s',
    scanComment 7 s = Ok (span s (offset s - 1) (offset s'), s') /\
    (char s' = 10 \/ char s' = eof) /\
    (offset s < offset s')%nat /\
    emits s new s' /\ Forall cursor_msg new.
Proof.
  cbv zeta.
  split; [apply WFb_WF; vm_compute; reflexivity|].
  split; [vm_compute; lia|]. split; [vm_compute; lia|].
  split; [vm_compute; reflexivity|].
  apply line_comment_stops_before_newline.
  - apply WFb_WF. vm_compute. reflexivity.
  - vm_compute. lia.
  - vm_compute. lia.
  - vm_compute. reflexivity.
Defined.

Lemma blockComment_spec (fuel : nat) :
  forall s : Scanner,
    WF s -> (len s - offset s <= fuel)%nat ->
    exists new t s',
      blockComment fuel s = Ok (t, s') /\ reach s new s' /\
      Forall cursor_msg new /\
      (t = false -> char s' = eof) /\
      (t = true ->
       (offset s + 2 <= offset s')%nat /\
       byteAt (src s) (offset s' - 2) = ch "*" /\
       byteAt (src s) (offset s' - 1) = ch "/").
Proof.
  induction fuel as [|f IH]; intros s Hwf Hfuel; simpl.
  - destruct (0 <=? char s) eqn:E.
    + apply Z.leb_le in E. pose proof (WF_nonneg_lt s Hwf E). lia.
    + exists [], false, s. split; [reflexivity|]. split; [now apply reach_refl|].
      split; [constructor|]. split; [|discriminate]. intros _. apply Z.leb_gt in E.
      destruct (WF_char s Hwf); [assumption|lia].
  - destruct (0 <=? char s) eqn:E.
    + apply Z.leb_le in E.
      pose proof (next_advances s Hwf E) as Hadv.
      destruct (next_reach s Hwf) as (n1 & R1 & F1 & _).
      pose proof (reach_WF _ _ _ R1) as W1.
      destruct ((char s =? ch "*") && (char (next s) =? ch "/")) eqn:Et.
      * apply andb_true_iff in Et. destruct Et as [E1 E2].
        apply Z.eqb_eq in E1, E2.
        assert (Ha : 0 <= char s < 0x80) by (rewrite E1; ch_eval; lia).
        assert (Hb : 0 <= char (next s) < 0x80) by (rewrite E2; ch_eval; lia).
        destruct (WF_ascii s Hwf Ha) as (_ & B1 & _).
        destruct (WF_ascii (next s) W1 Hb) as (_ & B2 & _).
        destruct (next_ascii s Hwf Ha) as (O1 & S1 & _).
        destruct (next_ascii (next s) W1 Hb) as (O2 & _).
        destruct (next_reach (next s) W1) as (n2 & R2 & F2 & _).
        exists (n1 ++ n2), true, (next (next s)). split; [reflexivity|].
        split; [eapply reach_trans; eauto|]. split; [now apply Forall_app|].
        split; [discriminate|]. intros _. rewrite O2, O1.
        split; [lia|].
        replace (offset s + 1 + 1 - 2)%nat with (offset s) by lia.
        replace (offset s + 1 + 1 - 1)%nat with (offset s + 1)%nat by lia.
        split; [now rewrite B1|]. rewrite <- S1, <- O1. now rewrite B2.
      * destruct (IH (next s) W1) as (n2 & t & s' & Hrun & R2 & F2 & Hf & Ht).
        { rewrite (reach_len _ _ _ R1). lia. }
        exists (n1 ++ n2), t, s'. split; [exact Hrun|].
        split; [eapply reach_trans; eauto|]. split; [now apply Forall_app|].
        split; [exact Hf|]. intros Htt. destruct (Ht Htt) as (Ho & Ba & Bb).
        rewrite (reach_src _ _ _ R1) in Ba, Bb. split; [lia|]. split; assumption.
    + exists [], false, s. split; [reflexivity|]. split; [now apply reach_refl|].
      split; [constructor|]. split; [|discriminate]. intros _. apply Z.leb_gt in E.
      destruct (WF_char s Hwf); [assumption|lia].
Qed.

(** X10: a block comment needs its terminator.  [scanComment], called
    behind the [/] with the [*] current, either finds [*/] behind the
    opening [*], stops right behind it and emits no diagnostic of its own,
    or runs to the end of the input and emits exactly one "comment not
    terminated"; the [*] that opens the comment does not count for the
    terminator.  The literal is the text from the [/] on either way. *)
Theorem block_comment_needs_terminator (fuel : nat) (s : Scanner) :
  WF s -> (len s - offset s <= fuel)%nat -> (1 <= offset s)%nat ->
  char s = ch "*" ->
  exists new s',
    scanComment fuel s = Ok (span s (offset s - 1) (offset s'), s') /\
    emits s new s' /\
    ((Forall cursor_msg new /\
      (offset s + 3 <= offset s')%nat /\
      byteAt (src s) (offset s' - 2) = ch "*" /\
      byteAt (src s) (offset s' - 1) = ch "/") \/
     (char s' = eof /\
      exists n0, new = n0 ++ [Text "comment not terminated"] /\
                 Forall cursor_msg n0)).
Proof.
  intros Hwf Hfuel Ho Hc. unfold scanComment. rewrite Hc.
  change (ch "*" =? ch "/") with false. cbv iota.
  assert (Ha : 0 <= char s < 0x80) by (rewrite Hc; ch_eval; lia).
  destruct (next_ascii s Hwf Ha) as (O1 & S1 & W1 & L1).
  destruct (next_reach s Hwf) as (n1 & R1 & F1 & _).
  destruct (blockComment_spec fuel (next s) W1)
    as (n2 & t & s' & Hrun & R2 & F2 & Hf & Ht); [rewrite L1, O1; lia|].
  rewrite Hrun. cbn [bind].
  pose proof (reach_trans _ _ _ _ _ R1 R2) as R.
  pose proof (reach_offset _ _ _ R) as Oall.
  assert (F : Forall cursor_msg (n1 ++ n2)) by (now apply Forall_app).
  destruct t.
  - exists (n1 ++ n2), s'.
    rewrite text_span_pred;
      [|lia|apply WF_offset_le; eapply reach_WF; eauto].
    cbn [bind]. rewrite (span_src s s') by (eapply reach_src; eauto).
    split; [reflexivity|]. split; [exact (proj1 R)|]. left.
    destruct (Ht eq_refl) as (Hlen & Ba & Bb). rewrite S1 in Ba, Bb.
    split; [exact F|]. split; [lia|]. split; assumption.
  - set (e := error _ (Text "comment not terminated") s').
    assert (Re : reach s' [Text "comment not terminated"] e)
      by (apply reach_error; eapply reach_WF; eauto).
    pose proof (reach_trans _ _ _ _ _ R Re) as R'.
    destruct (error_cursor (Z.of_nat (offset s) - 1)
                (Text "comment not terminated") s') as (Ec & Eo & _).
    fold e in Ec, Eo.
    exists ((n1 ++ n2) ++ [Text "comment not terminated"]), e.
    rewrite text_span_pred;
      [|rewrite Eo; lia|apply WF_offset_le; eapply reach_WF; eauto].
    cbn [bind]. rewrite (span_src s e) by (eapply reach_src; eauto).
    split; [reflexivity|]. split; [exact (proj1 R')|]. right.
    split; [rewrite Ec; now apply Hf|]. exists (n1 ++ n2). auto.
Qed.

Lemma block_comment_needs_terminator_witness :
  let s := next (NewScanner (source "/*/ x") true true []) in
  WF s /\ (len s - offset s <= 6)%nat /\ (1 <= offset s)%nat /\
  char s = ch "*" /\
  exists new s',
    scanComment 6 s = Ok (span s (offset s - 1) (offset s'), s') /\
    emits s new s' /\
    ((Forall cursor_msg new /\
      (offset s + 3 <= offset s')%nat /\
      byteAt (src s) (offset s' - 2) = ch "*" /\
      byteAt (src s) (offset s' - 1) = ch "/") \/
     (char s' = eof /\
      exists n0, new = n0 ++ [Text "comment not terminated"] /\
                 Forall cursor_msg n0)).
Proof.
  cbv zeta.
  split; [apply WFb_WF; vm_compute; reflexivity|].
  split; [vm_compute; lia|]. split; [vm_compute; lia|].
  split; [vm_compute; reflexivity|].
  apply block_comment_needs_terminator.
  - apply WFb_WF. vm_compute. reflexivity.
  - vm_compute. lia.
  - vm_compute. lia.
  - vm_compute. reflexivity.
Defined.

(** *** Identifiers *)

Lemma firstn_skipn_cons (l : list byte) (o n : nat) :
  (o < List.length l)%nat ->
  firstn (S n) (skipn o l) = nth o l x00 :: firstn n (skipn (S o) l).
Proof.
  revert o. induction l as [|a l IH]; intros [|o] H; simpl in *; try lia.
  - reflexivity.
  - apply IH. lia.
Qed.

(** The bytes a loop over ASCII characters consumes all pass its test. *)
Lemma run_bytes (p : rune -> bool) :
  (forall c, p c = true -> 0 <= c < 0x80) ->
  forall s s',
    run (fun s => p (char s)) s s' -> WF s ->
    (offset s <= offset s')%nat /\
    Forall (fun b => p (rune_of_byte b) = true)
           (firstn (offset s' - offset s) (skipn (offset s) (src s))).
Proof.
  intros Hp s s' Hrun. induction Hrun as [s Hs|s s' Hs _ IH]; intros Hwf.
  - split; [lia|]. rewrite Nat.sub_diag. constructor.
  - pose proof (Hp _ Hs) as Ha.
    destruct (next_ascii s Hwf Ha) as (O1 & S1 & W1 & _).
    destruct (WF_ascii s Hwf Ha) as (_ & B & Hlt).
    destruct (IH W1) as (Hle & Hall). rewrite O1, S1 in *.
    split; [lia|].
    replace (offset s' - offset s)%nat with (S (offset s' - (offset s + 1)))
      by lia.
    rewrite firstn_skipn_cons by exact Hlt.
    replace (S (offset s)) with (offset s + 1)%nat by lia.
    constructor; [|exact Hall]. unfold byteAt in B. now rewrite B.
Qed.

(** X11: [scanIdentifier] takes the longest run of letters, digits and
    underscores: it stops at the first code point that is none of them,
    every byte of the literal it returns is one of them, and the literal is
    exactly the source text it has passed.  It reports nothing itself: the
    only diagnostics are those of the cursor. *)
Theorem identifier_is_longest_run (fuel : nat) (s : Scanner) :
  WF s -> (len s - offset s <= fuel)%nat ->
  exists literal s' new,
    scanIdentifier fuel s = Ok (literal, s') /\
    list_byte_of_string literal =
      firstn (offset s' - offset s) (skipn (offset s) (src s)) /\
    Forall (fun b => isLetter (rune_of_byte b) || isDecimal (rune_of_byte b)
                     = true)
           (list_byte_of_string literal) /\
    isLetter (char s') || isDecimal (char s') = false /\
    emits s new s' /\ Forall cursor_msg new.
Proof.
  intros Hwf Hfuel.
  destruct (scanIdentifier_ok fuel s Hwf Hfuel) as (new & s' & H & R & F & Hrun & _).
  exists (span s (offset s) (offset s')), s', new. split; [exact H|].
  split; [apply span_bytes|].
  assert (Hp : forall c, isLetter c || isDecimal c = true -> 0 <= c < 0x80).
  { intros c Hc. apply orb_true_iff in Hc.
    destruct Hc as [Hc|Hc]; [now apply isLetter_nonneg|now apply isDecimal_nonneg]. }
  destruct (run_bytes (fun c => isLetter c || isDecimal c) Hp s s' Hrun Hwf)
    as (_ & Hall).
  split; [rewrite span_bytes; exact Hall|].
  split; [exact (run_end _ _ _ Hrun)|].
  split; [exact (proj1 R)|exact F].
Qed.

Lemma identifier_is_longest_run_witness :
  let s := NewScanner (source "ab_1+c") true true [] in
  WF s /\ (len s - offset s <= 6)%nat /\
  exists literal s' new,
    scanIdentifier 6 s = Ok (literal, s') /\
    list_byte_of_string literal =
      firstn (offset s' - offset s) (skipn (offset s) (src s)) /\
    Forall (fun b => isLetter (rune_of_byte b) || isDecimal (rune_of_byte b)
                     = true)
           (list_byte_of_string literal) /\
    isLetter (char s') || isDecimal (char s') = false /\
    emits s new s' /\ Forall cursor_msg new.
Proof.
  cbv zeta.
  split; [apply WFb_WF; vm_compute; reflexivity|].
  split; [vm_compute; lia|].
  apply identifier_is_longest_run.
  - apply WFb_WF. vm_compute. reflexivity.
  - vm_compute. lia.
Defined.

(** *** Escapes *)

(** X12: a [\x] escape takes exactly two hexadecimal digits, and every pair
    of them is accepted: [scanEscape] consumes the [x] and the two digits
    and emits nothing of its own. *)
Theorem scanEscape_hex (quote : rune) (s : Scanner) :
  char s = ch "x" -> quote <> ch "x" ->
  digitsAhead 2 16 (next s) = true ->
  scanEscape quote s = (true, advance 3 s) /\
  0 <= digitsValue 2 16 0 (next s) <= 255.
Proof.
  intros Hc Hq Hd.
  assert (Hk : escapeKind quote (char s) = Digits true 2 16 255).
  { unfold escapeKind. rewrite Hc.
    replace (existsb _ _) with false; [reflexivity|].
    symmetry. cbn [existsb].
    repeat (apply orb_false_iff; split); try reflexivity.
    apply Z.eqb_neq. congruence. }
  assert (Hv : 0 <= digitsValue 2 16 0 (next s) <= 255).
  { cbn [digitsAhead] in Hd.
    repeat (apply andb_true_iff in Hd; destruct Hd as [? Hd]). bool_hyps.
    pose proof (digitVal_range (char (next s))).
    pose proof (digitVal_range (char (next (next s)))).
    cbn [digitsValue].
    generalize dependent (digitVal (char (next s))). intros a ? ?.
    generalize dependent (digitVal (char (next (next s)))). intros b ? ?.
    rewrite (wrap32_small (0 * 16 + a))
      by (change (2 ^ 32) with 4294967296; lia).
    rewrite wrap32_small by (change (2 ^ 32) with 4294967296; lia).
    lia. }
  split; [|exact Hv].
  unfold scanEscape. rewrite Hk, (escapeDigits_good 2 16 0 (next s) Hd).
  replace ((255 <? digitsValue 2 16 0 (next s))
           || ((55296 <=? digitsValue 2 16 0 (next s))
               && (digitsValue 2 16 0 (next s) <? 57344))) with false;
    [reflexivity|].
  symmetry. apply orb_false_iff. split; [apply Z.ltb_ge; lia|].
  apply andb_false_iff. left. apply Z.leb_gt. lia.
Qed.

Lemma scanEscape_hex_witness :
  let s := advance 2 (NewScanner ([x22] ++ source "\xFf" ++ [x22]) true true []) in
  char s = ch "x" /\ dquote <> ch "x" /\
  digitsAhead 2 16 (next s) = true /\
  scanEscape dquote s = (true, advance 3 s) /\
  0 <= digitsValue 2 16 0 (next s) <= 255.
Proof.
  cbv zeta.
  split; [vm_compute; reflexivity|]. split; [vm_compute; discriminate|].
  split; [vm_compute; reflexivity|].
  apply scanEscape_hex.
  - vm_compute. reflexivity.
  - vm_compute. discriminate.
  - vm_compute. reflexivity.
Defined.

(** *** Strings *)

Lemma Forall_cursor_escape (l : list Msg) :
  Forall cursor_msg l -> Forall escape_msg l.
Proof. apply Forall_impl. now left. Qed.

Lemma scanString_loop_spec (fuel : nat) (off : Z) :
  forall s : Scanner,
    WF s -> (len s - offset s <= fuel)%nat ->
    exists new s',
      scanString_loop fuel off s = Ok s' /\ reach s new s' /\
      (((offset s < offset s')%nat /\
        byteAt (src s) (offset s' - 1) = dquote /\
        Forall escape_msg new) \/
       ((char s' = 10 \/ char s' = eof) /\
        exists n0, new = n0 ++ [Text "string literal not terminated"] /\
                   Forall escape_msg n0)).
Proof.
  induction fuel as [|f IH]; intros s Hwf Hfuel; simpl.
  - destruct ((char s =? 10) || (char s <? 0)) eqn:E.
    + eexists _, _. split; [reflexivity|]. split; [now apply reach_error|].
      right. destruct (error_cursor off (Text "string literal not terminated") s)
        as (-> & _). split.
      * apply orb_true_iff in E. destruct E as [E|E]; bool_hyps; [now left|right].
        destruct (WF_char s Hwf); [assumption|lia].
      * exists []. split; [reflexivity|constructor].
    + bool_hyps. pose proof (WF_nonneg_lt s Hwf ltac:(lia)). lia.
  - destruct ((char s =? 10) || (char s <? 0)) eqn:E.
    + eexists _, _. split; [reflexivity|]. split; [now apply reach_error|].
      right. destruct (error_cursor off (Text "string literal not terminated") s)
        as (-> & _). split.
      * apply orb_true_iff in E. destruct E as [E|E]; bool_hyps; [now left|right].
        destruct (WF_char s Hwf); [assumption|lia].
      * exists []. split; [reflexivity|constructor].
    + bool_hyps.
      pose proof (next_advances s Hwf ltac:(lia)) as Hadv.
      destruct (next_reach s Hwf) as (n1 & R1 & F1 & _).
      pose proof (reach_WF _ _ _ R1) as W1.
      pose proof (reach_len _ _ _ R1) as L1.
      pose proof (reach_src _ _ _ R1) as S1.
      destruct (char s =? dquote) eqn:Eq.
      * apply Z.eqb_eq in Eq.
        assert (Ha : 0 <= char s < 0x80) by (rewrite Eq; unfold dquote; lia).
        destruct (WF_ascii s Hwf Ha) as (_ & B & _).
        destruct (next_ascii s Hwf Ha) as (O1 & _).
        exists n1, (next s). split; [reflexivity|]. split; [exact R1|]. left.
        split; [exact Hadv|]. rewrite O1.
        replace (offset s + 1 - 1)%nat with (offset s) by lia.
        split; [now rewrite B|now apply Forall_cursor_escape].
      * assert (Hrec : forall t n2,
                   reach (next s) n2 t -> Forall escape_msg n2 ->
                   scanString_loop f off t = scanString_loop f off t ->
                   exists new s',
                     scanString_loop f off t = Ok s' /\ reach s new s' /\
                     (((offset s < offset s')%nat /\
                       byteAt (src s) (offset s' - 1) = dquote /\
                       Forall escape_msg new) \/
                      ((char s' = 10 \/ char s' = eof) /\
                       exists n0,
                         new = n0 ++ [Text "string literal not terminated"] /\
                         Forall escape_msg n0))).
        { intros t n2 R2 F2 _.
          pose proof (reach_trans _ _ _ _ _ R1 R2) as R12.
          destruct (IH t (reach_WF _ _ _ R2)) as (n3 & s' & Hrun & R3 & Hcase).
          { rewrite (reach_len _ _ _ R2), L1.
            pose proof (reach_offset _ _ _ R2). lia. }
          exists ((n1 ++ n2) ++ n3), s'. split; [exact Hrun|].
          split; [eapply reach_trans; eauto|].
          assert (F12 : Forall escape_msg (n1 ++ n2))
            by (apply Forall_app; split; [now apply Forall_cursor_escape|exact F2]).
          destruct Hcase as [(Ho & B & F3)|(Hc & n0 & -> & F0)].
          - left. rewrite (reach_src _ _ _ R12) in B.
            pose proof (reach_offset _ _ _ R2).
            split; [lia|]. split; [exact B|now apply Forall_app].
          - right. split; [exact Hc|]. exists ((n1 ++ n2) ++ n0).
            split; [now rewrite app_assoc|now apply Forall_app]. }
        destruct (char s =? ch "\").
        -- destruct (scanEscape_reach dquote (next s) W1) as (n2 & R2 & F2).
           exact (Hrec _ n2 R2 F2 eq_refl).
        -- exact (Hrec (next s) [] (reach_refl _ W1) (Forall_nil _) eq_refl).
Qed.

(** X13: a string literal ends at its closing quote or fails.
    [scanString], called behind the opening quote, either stops right
    behind a double quote, with no diagnostics but those of the cursor and
    of the escapes in the string, or stops at a newline or at the end of
    the input, its last diagnostic being "string literal not terminated".
    An escape that fails does not end the string.  The literal is the text
    from the opening quote on. *)
Theorem string_literal_ends (fuel : nat) (s : Scanner) :
  WF s -> (len s - offset s <= fuel)%nat -> (1 <= offset s)%nat ->
  exists new s',
    scanString fuel s = Ok (span s (offset s - 1) (offset s'), s') /\
    emits s new s' /\
    (((offset s < offset s')%nat /\
      byteAt (src s) (offset s' - 1) = dquote /\
      Forall escape_msg new) \/
     ((char s' = 10 \/ char s' = eof) /\
      exists n0, new = n0 ++ [Text "string literal not terminated"] /\
                 Forall escape_msg n0)).
Proof.
  intros Hwf Hfuel Ho. unfold scanString.
  destruct (scanString_loop_spec fuel (Z.of_nat (offset s) - 1) s Hwf Hfuel)
    as (new & s' & Hrun & R & Hcase).
  rewrite Hrun. cbn [bind].
  rewrite text_span_pred;
    [|pose proof (reach_offset _ _ _ R); lia
     |apply WF_offset_le; eapply reach_WF; eauto].
  cbn [bind]. rewrite (span_src s s') by (eapply reach_src; eauto).
  exists new, s'. split; [reflexivity|]. split; [exact (proj1 R)|exact Hcase].
Qed.

Lemma string_literal_ends_witness :
  let s := next (NewScanner ([x22] ++ source "a\q" ++ [x22]) true true []) in
  WF s /\ (len s - offset s <= 5)%nat /\ (1 <= offset s)%nat /\
  exists new s',
    scanString 5 s = Ok (span s (offset s - 1) (offset s'), s') /\
    emits s new s' /\
    (((offset s < offset s')%nat /\
      byteAt (src s) (offset s' - 1) = dquote /\
      Forall escape_msg new) \/
     ((char s' = 10 \/ char s' = eof) /\
      exists n0, new = n0 ++ [Text "string literal not terminated"] /\
                 Forall escape_msg n0)).
Proof.
  cbv zeta.
  split; [apply WFb_WF; vm_compute; reflexivity|].
  split; [vm_compute; lia|]. split; [vm_compute; lia|].
  apply string_literal_ends.
  - apply WFb_WF. vm_compute. reflexivity.
  - vm_compute. lia.
  - vm_compute. lia.
Defined.

Lemma scanRawString_loop_spec (fuel : nat) (off : Z) :
  forall s : Scanner,
    WF s -> (len s - offset s <= fuel)%nat ->
    exists new s',
      scanRawString_loop fuel off s = Ok s' /\ reach s new s' /\
      (((offset s < offset s')%nat /\
        byteAt (src s) (offset s' - 1) = ch "`" /\
        Forall cursor_msg new) \/
       (char s' = eof /\
        exists n0, new = n0 ++ [Text "raw string literal not terminated"] /\
                   Forall cursor_msg n0)).
Proof.
  induction fuel as [|f IH]; intros s Hwf Hfuel; simpl.
  - destruct (char s <? 0) eqn:E.
    + eexists _, _. split; [reflexivity|]. split; [now apply reach_error|].
      right. destruct (error_cursor off (Text "raw string literal not terminated") s)
        as (-> & _). split.
      * bool_hyps. destruct (WF_char s Hwf); [assumption|lia].
      * exists []. split; [reflexivity|constructor].
    + bool_hyps. pose proof (WF_nonneg_lt s Hwf ltac:(lia)). lia.
  - destruct (char s <? 0) eqn:E.
    + eexists _, _. split; [reflexivity|]. split; [now apply reach_error|].
      right. destruct (error_cursor off (Text "raw string literal not terminated") s)
        as (-> & _). split.
      * bool_hyps. destruct (WF_char s Hwf); [assumption|lia].
      * exists []. split; [reflexivity|constructor].
    + bool_hyps.
      pose proof (next_advances s Hwf ltac:(lia)) as Hadv.
      destruct (next_reach s Hwf) as (n1 & R1 & F1 & _).
      pose proof (reach_WF _ _ _ R1) as W1.
      pose proof (reach_len _ _ _ R1) as L1.
      destruct (char s =? ch "`") eqn:Eq.
      * apply Z.eqb_eq in Eq.
        assert (Ha : 0 <= char s < 0x80) by (rewrite Eq; ch_eval; lia).
        destruct (WF_ascii s Hwf Ha) as (_ & B & _).
        destruct (next_ascii s Hwf Ha) as (O1 & _).
        exists n1, (next s). split; [reflexivity|]. split; [exact R1|]. left.
        split; [exact Hadv|]. rewrite O1.
        replace (offset s + 1 - 1)%nat with (offset s) by lia.
        split; [now rewrite B|exact F1].
      * destruct (IH (next s) W1) as (n3 & s' & Hrun & R3 & Hcase); [lia|].
        exists (n1 ++ n3), s'. split; [exact Hrun|].
        split; [eapply reach_trans; eauto|].
        destruct Hcase as [(Ho & B & F3)|(Hc & n0 & -> & F0)].
        -- left. rewrite (reach_src _ _ _ R1) in B.
           split; [lia|]. split; [exact B|now apply Forall_app].
        -- right. split; [exact Hc|]. exists (n1 ++ n0).
           split; [now rewrite app_assoc|now apply Forall_app].
Qed.

(** X14: a raw string runs to its closing backquote, over newlines and
    backslashes alike: [scanRawString], called behind the opening
    backquote, either stops right behind a backquote, with no diagnostics
    but those of the cursor (no escape is examined), or reaches the end of
    the input, its last diagnostic being "raw string literal not
    terminated". *)
Theorem raw_string_ends (fuel : nat) (s : Scanner) :
  WF s -> (len s - offset s <= fuel)%nat -> (1 <= offset s)%nat ->
  exists new s',
    scanRawString fuel s = Ok (span s (offset s - 1) (offset s'), s') /\
    emits s new s' /\
    (((offset s < offset s')%nat /\
      byteAt (src s) (offset s' - 1) = ch "`" /\
      Forall cursor_msg new) \/
     (char s' = eof /\
      exists n0, new = n0 ++ [Text "raw string literal not terminated"] /\
                 Forall cursor_msg n0)).
Proof.
  intros Hwf Hfuel Ho. unfold scanRawString.
  destruct (scanRawString_loop_spec fuel (Z.of_nat (offset s) - 1) s Hwf Hfuel)
    as (new & s' & Hrun & R & Hcase).
  rewrite Hrun. cbn [bind].
  rewrite text_span_pred;
    [|pose proof (reach_offset _ _ _ R); lia
     |apply WF_offset_le; eapply reach_WF; eauto].
  cbn [bind]. rewrite (span_src s s') by (eapply reach_src; eauto).
  exists new, s'. split; [reflexivity|]. split; [exact (proj1 R)|exact Hcase].
Qed.

Lemma raw_string_ends_witness :
  let s := next (NewScanner (source "`a\" ++ [x0a] ++ source "b`") true true []) in
  WF s /\ (len s - offset s <= 6)%nat /\ (1 <= offset s)%nat /\
  exists new s',
    scanRawString 6 s = Ok (span s (offset s - 1) (offset s'), s') /\
    emits s new s' /\
    (((offset s < offset s')%nat /\
      byteAt (src s) (offset s' - 1) = ch "`" /\
      Forall cursor_msg new) \/
     (char s' = eof /\
      exists n0, new = n0 ++ [Text "raw string literal not terminated"] /\
                 Forall cursor_msg n0)).
Proof.
  cbv zeta.
  split; [apply WFb_WF; vm_compute; reflexivity|].
  split; [vm_compute; lia|]. split; [vm_compute; lia|].
  apply raw_string_ends.
  - apply WFb_WF. vm_compute. reflexivity.
  - vm_compute. lia.
  - vm_compute. lia.
Defined.

(** *** Rune literals *)

Lemma scanChar_loop_spec (fuel : nat) (off : Z) :
  forall (valid : bool) (n : Z) (s : Scanner),
    WF s -> (len s - offset s <= fuel)%nat ->
    exists new valid' n' s',
      scanChar_loop fuel off valid n s = Ok (valid', n', s') /\
      reach s new s' /\ n <= n' /\
      (valid' = true -> valid = true) /\
      (valid = true -> valid' = false -> Exists rune_literal_msg new) /\
      (valid' = true -> n' = n ->
       char s = squote /\ s' = next s /\ Forall cursor_msg new).
Proof.
  induction fuel as [|f IH]; intros valid n s Hwf Hfuel.
  - simpl. destruct ((char s =? 10) || (char s <? 0)) eqn:E.
    + destruct valid; eexists _, _, _, _; (split; [reflexivity|]).
      * split; [now apply reach_error|]. split; [lia|].
        split; [discriminate|]. split; [|discriminate].
        intros _ _. constructor. now left.
      * split; [now apply reach_refl|]. split; [lia|].
        split; [discriminate|]. split; discriminate.
    + bool_hyps. pose proof (WF_nonneg_lt s Hwf ltac:(lia)). lia.
  - rewrite scanChar_loop_S.
    destruct ((char s =? 10) || (char s <? 0)) eqn:E.
    + destruct valid; eexists _, _, _, _; (split; [reflexivity|]).
      * split; [now apply reach_error|]. split; [lia|].
        split; [discriminate|]. split; [|discriminate].
        intros _ _. constructor. now left.
      * split; [now apply reach_refl|]. split; [lia|].
        split; [discriminate|]. split; discriminate.
    + bool_hyps.
      pose proof (next_advances s Hwf ltac:(lia)) as Hadv.
      destruct (next_reach s Hwf) as (n1 & R1 & F1 & _).
      pose proof (reach_WF _ _ _ R1) as W1.
      pose proof (reach_len _ _ _ R1) as L1.
      destruct (char s =? squote) eqn:Eq.
      * apply Z.eqb_eq in Eq.
        exists n1, valid, n, (next s). split; [reflexivity|].
        split; [exact R1|]. split; [lia|]. split; [auto|].
        split; [congruence|]. intros _ _. auto.
      * destruct (char s =? ch "\").
        -- destruct (existsb _ _).
           ++ destruct (next_reach (next s) W1) as (n2 & R2 & _).
              destruct (IH valid (n + 1) (next (next s)) (reach_WF _ _ _ R2))
                as (n3 & v' & m' & s' & Hrun & R3 & Hn & Hv & Hx & _).
              { rewrite (reach_len _ _ _ R2), L1.
                pose proof (reach_offset _ _ _ R2). lia. }
              exists ((n1 ++ n2) ++ n3), v', m', s'. split; [exact Hrun|].
              split; [eapply reach_trans; [eapply reach_trans; eauto|exact R3]|].
              split; [lia|]. split; [exact Hv|]. split; [|lia].
              intros H1 H2. apply Exists_app. right. auto.
           ++ set (e := error off (Text "illegal char literal") (next s)).
              assert (R2 : reach (next s) [Text "illegal char literal"] e)
                by (now apply reach_error).
              destruct (IH false (n + 1) e (reach_WF _ _ _ R2))
                as (n3 & v' & m' & s' & Hrun & R3 & Hn & Hv & _ & _).
              { rewrite (reach_len _ _ _ R2), L1.
                pose proof (reach_offset _ _ _ R2). lia. }
              exists ((n1 ++ [Text "illegal char literal"]) ++ n3), v', m', s'.
              split; [exact Hrun|].
              split; [eapply reach_trans; [eapply reach_trans; eauto|exact R3]|].
              split; [lia|]. split; [intros Hv0; now apply Hv in Hv0|].
              split; [|lia]. intros _ _. apply Exists_app. left.
              apply Exists_app. right. constructor. now right.
        -- destruct (IH valid (n + 1) (next s) W1)
             as (n3 & v' & m' & s' & Hrun & R3 & Hn & Hv & Hx & _); [lia|].
           exists (n1 ++ n3), v', m', s'. split; [exact Hrun|].
           split; [eapply reach_trans; eauto|].
           split; [lia|]. split; [exact Hv|]. split; [|lia].
           intros H1 H2. apply Exists_app. right. auto.
Qed.

(** The loop of [scanChar] behind the one character of the literal. *)
Lemma scanChar_loop_second (fuel : nat) (off : Z) (t : Scanner) :
  WF t -> (len t - offset t <= fuel)%nat ->
  exists new valid' n' s',
    scanChar_loop fuel off true 1 t = Ok (valid', n', s') /\
    reach t new s' /\
    ((valid' = true /\ n' = 1 /\ Forall cursor_msg new /\
      char t = squote /\ s' = next t) \/
     (valid' = false /\ Exists rune_literal_msg new) \/
     (valid' = true /\ n' <> 1)).
Proof.
  intros Hwf Hfuel.
  destruct (scanChar_loop_spec fuel off true 1 t Hwf Hfuel)
    as (new & v' & n' & s' & Hrun & R & Hn & _ & Hx & Hq).
  exists new, v', n', s'. split; [exact Hrun|]. split; [exact R|].
  destruct v'.
  - destruct (Z.eq_dec n' 1) as [E|E].
    + left. destruct (Hq eq_refl E) as (H1 & H2 & H3). auto.
    + right. right. auto.
  - right. left. auto.
Qed.

Lemma scanChar_loop_first (fuel : nat) (off : Z) (s : Scanner) :
  WF s -> (len s - offset s <= fuel)%nat ->
  exists new valid' n' s',
    scanChar_loop fuel off true 0 s = Ok (valid', n', s') /\
    reach s new s' /\
    ((valid' = true /\ n' = 1 /\ Forall cursor_msg new /\
      0 <= char s /\ char s <> 10 /\ char s <> squote /\
      ((char s <> ch "\" /\ char (next s) = squote /\ s' = advance 2 s) \/
       (char s = ch "\" /\ char_escape (char (next s)) = true /\
        char (advance 2 s) = squote /\ s' = advance 3 s))) \/
     (valid' = false /\ Exists rune_literal_msg new) \/
     (valid' = true /\ n' <> 1)).
Proof.
  intros Hwf Hfuel. destruct fuel as [|f].
  - simpl. destruct ((char s =? 10) || (char s <? 0)) eqn:E.
    + eexists _, _, _, _. split; [reflexivity|].
      split; [now apply reach_error|]. right. left. split; [reflexivity|].
      constructor. now left.
    + bool_hyps. pose proof (WF_nonneg_lt s Hwf ltac:(lia)). lia.
  - rewrite scanChar_loop_S.
    destruct ((char s =? 10) || (char s <? 0)) eqn:E.
    + eexists _, _, _, _. split; [reflexivity|].
      split; [now apply reach_error|]. right. left. split; [reflexivity|].
      constructor. now left.
    + bool_hyps.
      pose proof (next_advances s Hwf ltac:(lia)) as Hadv.
      destruct (next_reach s Hwf) as (n1 & R1 & F1 & _).
      pose proof (reach_WF _ _ _ R1) as W1.
      pose proof (reach_len _ _ _ R1) as L1.
      destruct (char s =? squote) eqn:Eq.
      * exists n1, true, 0, (next s). split; [reflexivity|].
        split; [exact R1|]. right. right. split; [reflexivity|lia].
      * apply Z.eqb_neq in Eq. destruct (char s =? ch "\") eqn:Eb.
        -- apply Z.eqb_eq in Eb.
           fold (char_escape (char (next s))).
           destruct (char_escape (char (next s))) eqn:Ee.
           ++ destruct (next_reach (next s) W1) as (n2 & R2 & F2 & _).
              pose proof (reach_trans _ _ _ _ _ R1 R2) as R12.
              destruct (scanChar_loop_second f off (next (next s))
                          (reach_WF _ _ _ R2))
                as (n3 & v' & m' & s' & Hrun & R3 & Hcase).
              { rewrite (reach_len _ _ _ R2), L1.
                pose proof (reach_offset _ _ _ R2). lia. }
              exists ((n1 ++ n2) ++ n3), v', m', s'.
              split; [exact Hrun|].
              split; [eapply reach_trans; eauto|].
              destruct Hcase as [(Hv & Hm & F3 & Hq & Hs)|[(Hv & Hx)|Hc]].
              ** left. split; [exact Hv|]. split; [exact Hm|].
                 split; [apply Forall_app; split;
                         [apply Forall_app; split|]; assumption|].
                 split; [lia|]. split; [lia|]. split; [exact Eq|].
                 right. auto.
              ** right. left. split; [exact Hv|].
                 apply Exists_app. now right.
              ** right. right. exact Hc.
           ++ set (e := error off (Text "illegal char literal") (next s)).
              assert (R2 : reach (next s) [Text "illegal char literal"] e)
                by (now apply reach_error).
              destruct (scanChar_loop_spec f off false (0 + 1) e
                          (reach_WF _ _ _ R2))
                as (n3 & v' & m' & s' & Hrun & R3 & Hn & Hv & _ & _).
              { rewrite (reach_len _ _ _ R2), L1.
                pose proof (reach_offset _ _ _ R2). lia. }
              exists ((n1 ++ [Text "illegal char literal"]) ++ n3), v', m', s'.
              split; [exact Hrun|].
              split; [eapply reach_trans; [eapply reach_trans; eauto|exact R3]|].
              right. left. split.
              ** destruct v'; [now specialize (Hv eq_refl)|reflexivity].
              ** apply Exists_app. left. apply Exists_app. right.
                 constructor. now right.
        -- apply Z.eqb_neq in Eb.
           destruct (scanChar_loop_second f off (next s) W1)
             as (n3 & v' & m' & s' & Hrun & R3 & Hcase); [lia|].
           exists (n1 ++ n3), v', m', s'.
           split; [exact Hrun|].
           split; [eapply reach_trans; eauto|].
           destruct Hcase as [(Hv & Hm & F3 & Hq & Hs)|[(Hv & Hx)|Hc]].
           ** left. split; [exact Hv|]. split; [exact Hm|].
              split; [apply Forall_app; split; assumption|].
              split; [lia|]. split; [lia|]. split; [exact Eq|].
              left. auto.
           ** right. left. split; [exact Hv|].
              apply Exists_app. now right.
           ** right. right. exact Hc.
Qed.

(** X15: a rune literal holds one character or one escape.  [scanChar],
    called behind the opening quote, emits no diagnostic of its own only
    when the quote closes behind a single character that is no quote, no
    backslash and no newline, or behind a backslash and one of
    [a b f n r t v \ '] (no octal, hexadecimal or Unicode escape is
    accepted here); in every other case it emits "rune literal not
    terminated" or "illegal char literal".  The literal is the text from
    the opening quote on. *)
Theorem rune_literal_is_one_character (fuel : nat) (s : Scanner) :
  WF s -> (len s - offset s <= fuel)%nat -> (1 <= offset s)%nat ->
  exists new s',
    scanChar fuel s = Ok (span s (offset s - 1) (offset s'), s') /\
    emits s new s' /\
    ((Forall cursor_msg new /\
      0 <= char s /\ char s <> 10 /\ char s <> squote /\
      ((char s <> ch "\" /\ char (next s) = squote /\ s' = advance 2 s) \/
       (char s = ch "\" /\ char_escape (char (next s)) = true /\
        char (advance 2 s) = squote /\ s' = advance 3 s))) \/
     Exists rune_literal_msg new).
Proof.
  intros Hwf Hfuel Ho. unfold scanChar.
  destruct (scanChar_loop_first fuel (Z.of_nat (offset s) - 1) s Hwf Hfuel)
    as (new & v & n & s1 & Hrun & R & Hcase).
  rewrite Hrun. cbn [bind].
  set (s2 := if v && negb (n =? 1) then error _ _ s1 else s1).
  assert (R2 : exists n2, reach s1 n2 s2 /\
                 ((Forall cursor_msg (new ++ n2) /\
                   0 <= char s /\ char s <> 10 /\ char s <> squote /\
                   ((char s <> ch "\" /\ char (next s) = squote /\
                     s2 = advance 2 s) \/
                    (char s = ch "\" /\ char_escape (char (next s)) = true /\
                     char (advance 2 s) = squote /\ s2 = advance 3 s))) \/
                  Exists rune_literal_msg (new ++ n2))).
  { unfold s2.
    destruct Hcase as [(-> & -> & F & H)|[(-> & Hx)|(-> & Hn)]].
    - exists []. split; [apply reach_refl; eapply reach_WF; eauto|].
      left. rewrite app_nil_r. split; [exact F|exact H].
    - exists []. split; [apply reach_refl; eapply reach_WF; eauto|].
      right. rewrite app_nil_r. exact Hx.
    - apply Z.eqb_neq in Hn. rewrite Hn. cbn [andb negb].
      eexists. split; [apply reach_error; eapply reach_WF; eauto|].
      right. apply Exists_app. right. constructor. now right. }
  destruct R2 as (n2 & R2 & Hfin).
  pose proof (reach_trans _ _ _ _ _ R R2) as R'.
  rewrite text_span_pred.
  - cbn [bind]. rewrite (span_src s s2) by (eapply reach_src; eauto).
    exists (new ++ n2), s2. split; [reflexivity|].
    split; [exact (proj1 R')|exact Hfin].
  - pose proof (reach_offset _ _ _ R'). lia.
  - apply WF_offset_le. eapply reach_WF; eauto.
Qed.

Lemma rune_literal_is_one_character_witness :
  let s := next (NewScanner (source "'\n'") true true []) in
  WF s /\ (len s - offset s <= 3)%nat /\ (1 <= offset s)%nat /\
  exists new s',
    scanChar 3 s = Ok (span s (offset s - 1) (offset s'), s') /\
    emits s new s' /\
    ((Forall cursor_msg new /\
      0 <= char s /\ char s <> 10 /\ char s <> squote /\
      ((char s <> ch "\" /\ char (next s) = squote /\ s' = advance 2 s) \/
       (char s = ch "\" /\ char_escape (char (next s)) = true /\
        char (advance 2 s) = squote /\ s' = advance 3 s))) \/
     Exists rune_literal_msg new).
Proof.
  cbv zeta.
  split; [apply WFb_WF; vm_compute; reflexivity|].
  split; [vm_compute; lia|]. split; [vm_compute; lia|].
  apply rune_literal_is_one_character.
  - apply WFb_WF. vm_compute. reflexivity.
  - vm_compute. lia.
  - vm_compute. lia.
Defined.

(** *** The leading byte order mark *)

Lemma DecodeRune_bom (rest : list byte) :
  utf8.DecodeRune (xef :: xbb :: xbf :: rest) = (bom, 3%nat).
Proof.
  unfold utf8.DecodeRune.
  change (byteAt (xef :: xbb :: xbf :: rest) 0) with 0xEF.
  change (byteAt (xef :: xbb :: xbf :: rest) 1) with 0xBB.
  change (byteAt (xef :: xbb :: xbf :: rest) 2) with 0xBF.
  let v := eval vm_compute in (utf8.first 0xEF) in
  change (utf8.first 0xEF) with v.
  cbv beta zeta.
  change (0xF0 <=? 3) with false. cbv iota.
  change (Z.land 3 7) with 3.
  let v := eval vm_compute in (utf8.acceptRanges (Z.shiftr 3 4)) in
  change (utf8.acceptRanges (Z.shiftr 3 4)) with v.
  cbv beta iota zeta.
  assert (H : (Z.of_nat (List.length (xef :: xbb :: xbf :: rest)) <? 3) = false).
  { apply Z.ltb_ge. cbn [List.length]. lia. }
  rewrite H. reflexivity.
Qed.

(** The diagnostic of one step of the cursor, read off the bytes. *)
Lemma next_diagnostic (s : Scanner) :
  (readOffset s < len s)%nat ->
  let b := byteAt (src s) (readOffset s) in
  let r := fst (decodeAt (src s) (readOffset s)) in
  let w := snd (decodeAt (src s) (readOffset s)) in
  let new :=
    if b =? 0 then [Text "illegal character NUL"]
    else if RuneSelf <=? b then
      if (r =? RuneError) && (w =? 1)%nat then [Text "illegal UTF-8 encoding"]
      else if (r =? bom) && (0 <? readOffset s)%nat
           then [Text "illegal byte order mark"]
           else []
    else [] in
  stdout (next s) = stdout s ++ new /\
  ErrorCount (next s) = ErrorCount s + Z.of_nat (List.length new).
Proof.
  intros Hlt. cbv zeta. unfold next, decodeAt.
  apply Nat.ltb_lt in Hlt. rewrite Hlt. cbv zeta.
  change (src (set_offset (readOffset s) s)) with (src s).
  change (readOffset (set_offset (readOffset s) s)) with (readOffset s).
  change (offset (set_offset (readOffset s) s)) with (readOffset s).
  destruct (byteAt (src s) (readOffset s) =? 0).
  - rewrite error_eq. simpl. split; [reflexivity|lia].
  - destruct (RuneSelf <=? byteAt (src s) (readOffset s)).
    + destruct (utf8.DecodeRune _) as [r w]. cbn [fst snd].
      destruct ((r =? RuneError) && (w =? 1)%nat).
      * rewrite error_eq. simpl. split; [reflexivity|lia].
      * destruct ((r =? bom) && (0 <? readOffset s)%nat).
        -- rewrite error_eq. simpl. split; [reflexivity|lia].
        -- simpl. rewrite app_nil_r. split; [reflexivity|lia].
    + simpl. rewrite app_nil_r. split; [reflexivity|lia].
Qed.

(** X16: a byte order mark at the very beginning of the source is skipped
    silently.  On a source that starts with the three bytes of the mark,
    [NewScanner] gives the state it gives on the rest of the source, moved
    by three bytes: the same current code point, the same diagnostics and
    error count.  (The rest must not start with a second mark: that one is
    reported, at offset 3.) *)
Theorem leading_byte_order_mark_is_skipped (rest : list byte)
    (handler scanComment : bool) (flagNames : list string) :
  fst (decodeAt rest 0) <> bom ->
  let s := NewScanner (xef :: xbb :: xbf :: rest) handler scanComment flagNames in
  let t := NewScanner rest handler scanComment flagNames in
  char s = char t /\
  offset s = (3 + offset t)%nat /\
  readOffset s = (3 + readOffset t)%nat /\
  stdout s = stdout t /\
  ErrorCount s = ErrorCount t.
Proof.
  intros Hb. cbv zeta. unfold NewScanner. cbv zeta.
  set (i := mkScanner (xef :: xbb :: xbf :: rest) _ _ _ _ _ _ _ _ _ _ _).
  set (j := mkScanner rest _ _ _ _ _ _ _ _ _ _ _).
  assert (Hi : next i = set_char bom (set_readOffset 3 i)).
  { unfold next at 1.
    change (readOffset i) with 0%nat.
    change (len i) with (S (S (S (List.length rest)))).
    change (0 <? S (S (S (List.length rest))))%nat with true. cbv iota zeta.
    change (src (set_offset 0 i)) with (xef :: xbb :: xbf :: rest).
    change (readOffset (set_offset 0 i)) with 0%nat.
    change (byteAt (xef :: xbb :: xbf :: rest) 0) with 0xEF.
    change (0xEF =? 0) with false. change (RuneSelf <=? 0xEF) with true.
    cbv iota. change (skipn 0 (xef :: xbb :: xbf :: rest))
      with (xef :: xbb :: xbf :: rest).
    rewrite DecodeRune_bom. reflexivity. }
  rewrite Hi.
  change (char (set_char bom (set_readOffset 3 i)) =? bom) with true.
  cbv iota.
  set (i3 := set_char bom (set_readOffset 3 i)).
  cbn [char offset readOffset stdout ErrorCount].
  destruct rest as [|b rest'].
  - vm_compute. repeat split; reflexivity.
  - assert (Hlj : (readOffset j < len j)%nat)
      by (change (0 < S (List.length rest'))%nat; lia).
    assert (Hli : (readOffset i3 < len i3)%nat)
      by (change (3 < S (S (S (S (List.length rest')))))%nat; lia).
    destruct (next_cursor j Hlj) as (_ & Hoj & Hcj & Hrj).
    destruct (next_cursor i3 Hli) as (_ & Hoi & Hci & Hri).
    destruct (next_diagnostic j Hlj) as (Hsj & Hej).
    destruct (next_diagnostic i3 Hli) as (Hsi & Hei).
    change (decodeAt (src i3) (readOffset i3))
      with (decodeAt (b :: rest') 0) in *.
    change (decodeAt (src j) (readOffset j))
      with (decodeAt (b :: rest') 0) in *.
    change (byteAt (src i3) (readOffset i3))
      with (byteAt (b :: rest') 0) in *.
    change (byteAt (src j) (readOffset j))
      with (byteAt (b :: rest') 0) in *.
    change (readOffset i3) with 3%nat in *.
    change (readOffset j) with 0%nat in *.
    change (stdout i3) with (@nil Msg) in *.
    change (stdout j) with (@nil Msg) in *.
    change (ErrorCount i3) with 0 in *.
    change (ErrorCount j) with 0 in *.
    apply Z.eqb_neq in Hb.
    assert (Hjb : (char (next j) =? bom) = false) by (now rewrite Hcj).
    rewrite Hjb. rewrite Hb, andb_false_l in Hsi, Hei, Hsj, Hej.
    rewrite Hci, Hcj, Hoi, Hoj, Hri, Hrj, Hsi, Hsj, Hei, Hej.
    repeat split; lia.
Qed.

Lemma leading_byte_order_mark_is_skipped_witness :
  fst (decodeAt (source "a") 0) <> bom /\
  let s := NewScanner (xef :: xbb :: xbf :: source "a") true true [] in
  let t := NewScanner (source "a") true true [] in
  char s = char t /\
  offset s = (3 + offset t)%nat /\
  readOffset s = (3 + readOffset t)%nat /\
  stdout s = stdout t /\
  ErrorCount s = ErrorCount t.
Proof.
  split; [vm_compute; discriminate|].
  apply (leading_byte_order_mark_is_skipped (source "a") true true []).
  vm_compute. discriminate.
Defined.
